(** * GTM-Medium worker: streaming injection of the Tag Manager snippet

    A shallow embedding of [GTM-Medium_Worker.js] and the properties of its
    streaming decode / scan / inject / re-encode pipeline.

    Representation choices.
    - A [Uint8Array] is a [list Z] of values in [0, 255].
    - A JavaScript string is a [list Z] of Unicode scalar values.  JavaScript
      stores UTF-16 code units; the worker only searches for ASCII needles,
      slices at the index of such a needle, tests a string for emptiness and
      runs regular expressions whose literals are ASCII and whose quantified
      classes are single characters, so every operation used commutes with
      the expansion of a scalar value above U+FFFF into its surrogate pair.
    - [TextDecoder] and [TextEncoder] are the platform's; they are modelled
      after the WHATWG Encoding Standard (UTF-8 decoder, fatal error mode,
      [stream: true], byte order mark handling of [serialize I/O queue]).
    - The body stream is a finite list of reads; the writable side is a log
      of the calls made on the writer.
    - Exceptions are explicit: a decode that throws is [None]; a write or a
      close that is rejected, and an exception raised while a chunk is
      scanned, are chosen by the surroundings ([Env]).  The unused locals
      [partial], [request] and [event] are left out. *)

From stdpp Require Import base numbers list option strings gmap.

Local Open Scope Z_scope.

(** ** JavaScript strings *)

Module JS.

Abbreviation jsstring := (list Z) (only parsing).

(** An ASCII literal of the source, as a string of scalar values. *)
Fixpoint str (s : string) : jsstring :=
  match s with
  | EmptyString => []
  | String a s' => Z.of_N (Ascii.N_of_ascii a) :: str s'
  end.

Definition DQUOTE : Z := 34.
Definition SQUOTE : Z := 39.
Definition LF : Z := 10.

Fixpoint eqb (a b : jsstring) : bool :=
  match a, b with
  | [], [] => true
  | x :: a', y :: b' => (x =? y) && eqb a' b'
  | _, _ => false
  end.

(** [hay.startsWith(needle)] *)
Fixpoint starts_with (needle hay : jsstring) : bool :=
  match needle, hay with
  | [], _ => true
  | x :: n', y :: h' => (x =? y) && starts_with n' h'
  | _ :: _, [] => false
  end.

(** [hay.indexOf(needle)], searching from position [i]; [-1] when absent. *)
Fixpoint indexOf_from (needle hay : jsstring) (i : Z) : Z :=
  if starts_with needle hay then i
  else match hay with
       | [] => -1
       | _ :: hay' => indexOf_from needle hay' (i + 1)
       end.

Definition indexOf (hay needle : jsstring) : Z := indexOf_from needle hay 0.

(** [s.slice(a, b)] and [s.slice(a)] for [0 <= a <= b]. *)
Definition slice (s : jsstring) (a b : Z) : jsstring :=
  take (Z.to_nat (b - a)) (drop (Z.to_nat a) s).
Definition slice_from (s : jsstring) (a : Z) : jsstring := drop (Z.to_nat a) s.

(** [[a, b, c].join('')] *)
Definition join3 (a b c : jsstring) : jsstring := a ++ b ++ c.

(** [s.toLowerCase()].  Only the ASCII letters are mapped: the other case
    mappings of Unicode yield a character outside ASCII, or [k] (from the
    Kelvin sign), none of which occurs in [VALID_CHARSETS], the only place
    the result is compared with. *)
Definition lower_char (c : Z) : Z :=
  if (65 <=? c) && (c <=? 90) then c + 32 else c.
Definition toLowerCase (s : jsstring) : jsstring := map lower_char s.

(** [arr.includes(s)] *)
Definition includes (arr : list jsstring) (s : jsstring) : bool :=
  existsb (eqb s) arr.

(** Number of positions of [hay] at which [needle] occurs. *)
Fixpoint count_sub (needle hay : jsstring) : nat :=
  match hay with
  | [] => 0%nat
  | _ :: hay' =>
      ((if starts_with needle hay then 1 else 0) + count_sub needle hay')%nat
  end.

End JS.
Import JS.

(** ** Regular expressions

    The fragment of JavaScript regular expressions the worker uses: literals
    (matched case-insensitively, flag [i]), character classes, greedy [*] and
    [+] over a class, concatenation and one capture group.  Matching is the
    backtracking semantics of the language: a quantifier first takes as many
    characters as it can and gives them back one at a time. *)

Module RegExp.

Inductive regex : Type :=
| Lit (s : jsstring)
| Cls (p : Z -> bool)
| Star (p : Z -> bool)
| Plus (p : Z -> bool)
| Cat (r1 r2 : regex)
| Cap (r : regex).

(** Canonicalize of a non-Unicode pattern under [i]: characters outside
    ASCII are never identified with ASCII ones. *)
Definition canon (c : Z) : Z :=
  if (97 <=? c) && (c <=? 122) then c - 32 else c.

Fixpoint lit_match (s input : jsstring) : option jsstring :=
  match s, input with
  | [], _ => Some input
  | x :: s', y :: input' =>
      if canon x =? canon y then lit_match s' input' else None
  | _ :: _, [] => None
  end.

Fixpoint star_loop {A} (p : Z -> bool) (k : jsstring -> option A)
    (input : jsstring) : option A :=
  match input with
  | c :: input' =>
      if p c then
        match star_loop p k input' with
        | Some r => Some r
        | None => k input
        end
      else k input
  | [] => k []
  end.

(** [rmatch r input cap k]: match [r] at the head of [input], then continue
    with [k] on what is left; [cap] is the text of group 1 so far. *)
Fixpoint rmatch {A} (r : regex) (input : jsstring) (cap : option jsstring)
    (k : jsstring -> option jsstring -> option A) : option A :=
  match r with
  | Lit s =>
      match lit_match s input with
      | Some rest => k rest cap
      | None => None
      end
  | Cls p =>
      match input with
      | c :: rest => if p c then k rest cap else None
      | [] => None
      end
  | Star p => star_loop p (fun rest => k rest cap) input
  | Plus p =>
      match input with
      | c :: rest => if p c then star_loop p (fun rest' => k rest' cap) rest
                     else None
      | [] => None
      end
  | Cat r1 r2 => rmatch r1 input cap (fun rest cap' => rmatch r2 rest cap' k)
  | Cap r' =>
      rmatch r' input cap
        (fun rest _ => k rest (Some (take (length input - length rest) input)))
  end.

(** The result array of [exec]: element 0 and element 1. *)
Record match_result := { m0 : jsstring; m1 : jsstring }.

Definition match_here (r : regex) (input : jsstring) : option match_result :=
  rmatch r input None
    (fun rest cap =>
       Some {| m0 := take (length input - length rest) input;
               m1 := default [] cap |}).

(** [r.exec(input)] on a freshly created regular expression ([lastIndex] is
    0): the match at the leftmost position that has one. *)
Fixpoint exec (r : regex) (input : jsstring) : option match_result :=
  match match_here r input with
  | Some m => Some m
  | None =>
      match input with
      | [] => None
      | _ :: input' => exec r input'
      end
  end.

(** [\s]: WhiteSpace and LineTerminator of ECMAScript. *)
Definition ws (c : Z) : bool :=
  ((9 <=? c) && (c <=? 13)) || (c =? 32) || (c =? 160) || (c =? 5760)
  || ((8192 <=? c) && (c <=? 8202)) || (c =? 8232) || (c =? 8233)
  || (c =? 8239) || (c =? 8287) || (c =? 12288) || (c =? 65279).

Definition chr (x : Z) (c : Z) : bool := c =? x.
Definition quote (c : Z) : bool := (c =? SQUOTE) || (c =? DQUOTE).
Definition neg (p : Z -> bool) (c : Z) : bool := negb (p c).
Definition either (p q : Z -> bool) (c : Z) : bool := p c || q c.

End RegExp.
Import RegExp.

Infix ">>>" := Cat (at level 60, right associativity).

(** ** The worker's constants *)

(** [const VALID_CHARSETS = ['utf-8', 'utf8', 'iso-8859-1', 'us-ascii']] *)
Definition VALID_CHARSETS : list jsstring :=
  [str "utf-8"; str "utf8"; str "iso-8859-1"; str "us-ascii"].

(** [const TAG_MANAGER]: the template literal, its five lines joined by
    line feeds. *)
Definition TAG_MANAGER : jsstring :=
  str "<script>(function(w,d,s,l,i){w[l]=w[l]||[];w[l].push({'gtm.start':"
  ++ [LF] ++
  str "new Date().getTime(),event:'gtm.js'});var f=d.getElementsByTagName(s)[0],"
  ++ [LF] ++
  str "j=d.createElement(s),dl=l!='dataLayer'?'&l='+l:'';j.async=true;j.src="
  ++ [LF] ++
  str "'https://www.googletagmanager.com/gtm.js?id='+i+dl;f.parentNode.insertBefore(j,f);"
  ++ [LF] ++
  str "})(window,document,'script','dataLayer','GTM-XXXXXXX');</script>".

(** The needle of [content.indexOf('</head>')]. *)
Definition HEAD_END : jsstring := str "</head>".

(** ** Charset gate *)

(** [charsetRegex] of [processHtmlResponse], line 56: the word charset,
    optional white space, an equals sign, optional white space, then
    group 1: one or more characters that are neither white space nor a
    semicolon. *)
Definition headerCharsetRegex : regex :=
  Lit (str "charset") >>> Star ws >>> Lit (str "=") >>> Star ws >>>
  Cap (Plus (neg (either ws (chr 59)))).

(** [charsetRegex] of [chunkContainsInvalidCharset], line 89: an opening
    angle bracket, optional white space, meta, one or more characters other
    than a closing bracket, charset, optional white space, an equals sign,
    optional white space, a single or double quote, group 1: any number of
    characters that are not quotes, a quote, any number of characters other
    than a closing bracket, a closing bracket. *)
Definition charsetRegex : regex :=
  Lit (str "<") >>> Star ws >>> Lit (str "meta") >>> Plus (neg (chr 62)) >>>
  Lit (str "charset") >>> Star ws >>> Lit (str "=") >>> Star ws >>>
  Cls quote >>> Cap (Star (neg quote)) >>> Cls quote >>>
  Star (neg (chr 62)) >>> Lit (str ">").

(** [contentTypeRegex], line 98: as above up to the one or more characters
    other than a closing bracket, then http-equiv, optional white space, an
    equals sign, optional white space, a quote, optional white space,
    content-type, any number of characters other than a closing bracket, a
    closing bracket. *)
Definition contentTypeRegex : regex :=
  Lit (str "<") >>> Star ws >>> Lit (str "meta") >>> Plus (neg (chr 62)) >>>
  Lit (str "http-equiv") >>> Star ws >>> Lit (str "=") >>> Star ws >>>
  Cls quote >>> Star ws >>> Lit (str "content-type") >>>
  Star (neg (chr 62)) >>> Lit (str ">").

(** [metaRegex], line 102: charset, optional white space, an equals sign,
    optional white space, then group 1: any number of characters that are
    neither white space nor a double quote. *)
Definition metaRegex : regex :=
  Lit (str "charset") >>> Star ws >>> Lit (str "=") >>> Star ws >>>
  Cap (Star (neg (either ws (chr DQUOTE)))).

(** [chunkContainsInvalidCharset(chunk)] *)
Definition chunkContainsInvalidCharset (chunk : jsstring) : bool :=
  let invalid := false in
  let invalid :=
    match exec charsetRegex chunk with
    | Some charsetMatch =>
        let docCharset := toLowerCase (m1 charsetMatch) in
        if negb (includes VALID_CHARSETS docCharset) then true else invalid
    | None => invalid
    end in
  let invalid :=
    match exec contentTypeRegex chunk with
    | Some contentTypeMatch =>
        let metaTag := m0 contentTypeMatch in
        match exec metaRegex metaTag with
        | Some metaMatch =>
            let charset := toLowerCase (m1 metaMatch) in
            if negb (includes VALID_CHARSETS charset) then true else invalid
        | None => invalid
        end
    | None => invalid
    end in
  invalid.

(** The header check of [processHtmlResponse]: does the content type declare
    a charset outside [VALID_CHARSETS]? *)
Definition headerCharsetUnsupported (contentType : jsstring) : bool :=
  match exec headerCharsetRegex contentType with
  | Some m =>
      let charset := toLowerCase (m1 m) in
      negb (includes VALID_CHARSETS charset)
  | None => false
  end.

(** ** UTF-8, after the WHATWG Encoding Standard *)

Module Encoding.

Abbreviation bytes := (list Z) (only parsing).

(** The state of the UTF-8 decoder. *)
Record utf8_decoder := {
  code_point : Z;
  bytes_seen : Z;
  bytes_needed : Z;
  lower_boundary : Z;
  upper_boundary : Z
}.

Definition utf8_decoder_new : utf8_decoder :=
  {| code_point := 0; bytes_seen := 0; bytes_needed := 0;
     lower_boundary := 128; upper_boundary := 191 |}.

Inductive handler_result :=
| Continue (d : utf8_decoder)
| CodePoint (d : utf8_decoder) (cp : Z)
| DecodeError.

Definition in_range (lo hi b : Z) : bool := (lo <=? b) && (b <=? hi).

(** The handler of the UTF-8 decoder, given a byte. *)
Definition utf8_handler (d : utf8_decoder) (byte : Z) : handler_result :=
  if bytes_needed d =? 0 then
    if in_range 0 127 byte then CodePoint d byte
    else if in_range 194 223 byte then
      Continue {| code_point := Z.land byte 31; bytes_seen := 0;
                  bytes_needed := 1;
                  lower_boundary := lower_boundary d;
                  upper_boundary := upper_boundary d |}
    else if in_range 224 239 byte then
      Continue {| code_point := Z.land byte 15; bytes_seen := 0;
                  bytes_needed := 2;
                  lower_boundary :=
                    if byte =? 224 then 160 else lower_boundary d;
                  upper_boundary :=
                    if byte =? 237 then 159 else upper_boundary d |}
    else if in_range 240 244 byte then
      Continue {| code_point := Z.land byte 7; bytes_seen := 0;
                  bytes_needed := 3;
                  lower_boundary :=
                    if byte =? 240 then 144 else lower_boundary d;
                  upper_boundary :=
                    if byte =? 244 then 143 else upper_boundary d |}
    else DecodeError
  else if negb (in_range (lower_boundary d) (upper_boundary d) byte) then
    DecodeError
  else
    let cp := Z.lor (Z.shiftl (code_point d) 6) (Z.land byte 63) in
    let seen := bytes_seen d + 1 in
    if seen =? bytes_needed d then CodePoint utf8_decoder_new cp
    else Continue {| code_point := cp; bytes_seen := seen;
                     bytes_needed := bytes_needed d;
                     lower_boundary := 128; upper_boundary := 191 |}.

(** Processing a queue of bytes in fatal error mode, without the end of
    queue item: the new state and the scalar values produced, or [None] for
    the [TypeError]. *)
Fixpoint process_queue (d : utf8_decoder) (input : bytes)
    : option (utf8_decoder * jsstring) :=
  match input with
  | [] => Some (d, [])
  | byte :: input' =>
      match utf8_handler d byte with
      | DecodeError => None
      | Continue d' => process_queue d' input'
      | CodePoint d' cp =>
          match process_queue d' input' with
          | Some (d'', out) => Some (d'', cp :: out)
          | None => None
          end
      end
  end.

(** A [TextDecoder("utf-8", {fatal: true})]; [ignoreBOM] is false. *)
Record TextDecoder := {
  decoder : utf8_decoder;
  BOM_seen : bool
}.

Definition TextDecoder_new : TextDecoder :=
  {| decoder := utf8_decoder_new; BOM_seen := false |}.

(** Serialize I/O queue: the first scalar value of the stream is dropped
    when it is U+FEFF. *)
Definition serialize (bom_seen : bool) (output : jsstring) : bool * jsstring :=
  if bom_seen then (true, output)
  else match output with
       | [] => (false, [])
       | item :: output' =>
           (true, if item =? 65279 then output' else item :: output')
       end.

(** [decoder.decode(value, {stream: true})] *)
Definition decode_stream (td : TextDecoder) (value : bytes)
    : option (TextDecoder * jsstring) :=
  match process_queue (decoder td) value with
  | None => None
  | Some (d', output) =>
      let '(seen, text) := serialize (BOM_seen td) output in
      Some ({| decoder := d'; BOM_seen := seen |}, text)
  end.

(** [new TextDecoder("utf-8", {fatal: true}).decode(value)]: the whole input
    at once; at the end of the queue a pending sequence is an error. *)
Definition decode (value : bytes) : option jsstring :=
  match decode_stream TextDecoder_new value with
  | Some (td, text) =>
      if bytes_needed (decoder td) =? 0 then Some text else None
  | None => None
  end.

(** The UTF-8 encoder, one scalar value. *)
Definition utf8_encode_cp (cp : Z) : bytes :=
  if cp <=? 127 then [cp]
  else if cp <=? 2047 then
    [Z.lor 192 (Z.shiftr cp 6); Z.lor 128 (Z.land cp 63)]
  else if cp <=? 65535 then
    [Z.lor 224 (Z.shiftr cp 12); Z.lor 128 (Z.land (Z.shiftr cp 6) 63);
     Z.lor 128 (Z.land cp 63)]
  else
    [Z.lor 240 (Z.shiftr cp 18); Z.lor 128 (Z.land (Z.shiftr cp 12) 63);
     Z.lor 128 (Z.land (Z.shiftr cp 6) 63); Z.lor 128 (Z.land cp 63)].

(** [new TextEncoder().encode(s)], for a string of scalar values: the worker
    encodes what the decoder produced and the ASCII snippet, so no lone
    surrogate reaches the encoder. *)
Definition encode (s : jsstring) : bytes := flat_map utf8_encode_cp s.

(** A Unicode scalar value. *)
Definition scalar (cp : Z) : bool :=
  in_range 0 55295 cp || in_range 57344 1114111 cp.

End Encoding.
Import Encoding.

(** ** The streams *)

(** One [reader.read()] of the origin body that is not [done]: a chunk, or
    a rejected read. *)
Inductive read_result :=
| ReadChunk (value : bytes)
| ReadThrows.

(** A call made on the writer of the output stream. *)
Inductive event :=
| Write (value : bytes)
| WriteRejected (value : bytes)
| Close
| CloseRejected.

(** Where an unexpected exception is raised inside the inner [try] block. *)
Inductive fault :=
| NoFault
| FaultInSniff      (* in [chunkContainsInvalidCharset(chunk)] *)
| FaultInSearch     (* in [content.indexOf('</head>')] *)
| FaultInSplice.    (* in the [slice] / [join] of the splice *)

(** What the surroundings do: whether the [n]-th call on the writer is
    accepted, whether [close] is, and the fault raised while the [i]-th
    chunk is scanned. *)
Record Env := {
  write_ok : nat -> bool;
  close_ok : bool;
  scan_fault : nat -> fault
}.

Definition ideal : Env :=
  {| write_ok := fun _ => true; close_ok := true;
     scan_fault := fun _ => NoFault |}.

(** The variables of [modifyHtmlStream], the calls seen by the writer, and
    the number of splices executed. *)
Record Stream := {
  td : TextDecoder;
  firstChunk : bool;
  unsupportedCharset : bool;
  content : jsstring;
  sink : list event;
  injections : nat
}.

Definition set_td (v : TextDecoder) (s : Stream) : Stream :=
  {| td := v; firstChunk := firstChunk s;
     unsupportedCharset := unsupportedCharset s; content := content s;
     sink := sink s; injections := injections s |}.
Definition set_firstChunk (v : bool) (s : Stream) : Stream :=
  {| td := td s; firstChunk := v;
     unsupportedCharset := unsupportedCharset s; content := content s;
     sink := sink s; injections := injections s |}.
Definition set_unsupportedCharset (v : bool) (s : Stream) : Stream :=
  {| td := td s; firstChunk := firstChunk s;
     unsupportedCharset := v; content := content s;
     sink := sink s; injections := injections s |}.
Definition set_content (v : jsstring) (s : Stream) : Stream :=
  {| td := td s; firstChunk := firstChunk s;
     unsupportedCharset := unsupportedCharset s; content := v;
     sink := sink s; injections := injections s |}.
Definition log (e : event) (s : Stream) : Stream :=
  {| td := td s; firstChunk := firstChunk s;
     unsupportedCharset := unsupportedCharset s; content := content s;
     sink := sink s ++ [e]; injections := injections s |}.
Definition count_injection (s : Stream) : Stream :=
  {| td := td s; firstChunk := firstChunk s;
     unsupportedCharset := unsupportedCharset s; content := content s;
     sink := sink s; injections := S (injections s) |}.

(** How a statement ends: normally, by [continue], or by an exception. *)
Inductive completion :=
| Normal (s : Stream)
| ContinueLoop (s : Stream)
| Throw (s : Stream).

Definition state_of (c : completion) : Stream :=
  match c with Normal s | ContinueLoop s | Throw s => s end.

(** [await writer.write(value)] *)
Definition writer_write (env : Env) (value : bytes) (s : Stream) : completion :=
  if write_ok env (length (sink s)) then Normal (log (Write value) s)
  else Throw (log (WriteRejected value) s).

(** [await writer.close()] *)
Definition writer_close (env : Env) (s : Stream) : completion :=
  if close_ok env then Normal (log Close s) else Throw (log CloseRejected s).

(** [await writer.write(value); continue;] *)
Definition write_continue (env : Env) (value : bytes) (s : Stream)
    : completion :=
  match writer_write env value s with
  | Normal s' => ContinueLoop s'
  | other => other
  end.

(** ** [modifyHtmlStream] *)

(** The first chunk's check, lines 162 to 170. *)
Definition sniff (env : Env) (i : nat) (value : bytes) (chunk : jsstring)
    (s : Stream) : completion :=
  if firstChunk s then
    let s := set_firstChunk false s in
    match scan_fault env i with
    | FaultInSniff => Throw s
    | _ =>
        if chunkContainsInvalidCharset chunk then
          write_continue env value (set_unsupportedCharset true s)
        else Normal s
    end
  else Normal s.

(** The search for the marker and the splice, lines 172 to 177. *)
Definition search_splice (env : Env) (i : nat) (chunk : jsstring)
    (s : Stream) : completion :=
  let s := set_content chunk s in
  match scan_fault env i with
  | FaultInSearch => Throw s
  | _ =>
      let headPos := indexOf (content s) HEAD_END in
      if headPos >? -1 then
        match scan_fault env i with
        | FaultInSplice => Throw s
        | _ =>
            Normal
              (count_injection
                 (set_content
                    (join3 (slice (content s) 0 headPos) TAG_MANAGER
                       (slice_from (content s) headPos)) s))
        end
      else Normal s
  end.

(** The body of the inner [try], lines 160 to 178. *)
Definition scan_try (env : Env) (i : nat) (value : bytes) (chunk : jsstring)
    (s : Stream) : completion :=
  match sniff env i value chunk s with
  | Normal s => search_splice env i chunk s
  | other => other
  end.

(** The write of lines 182 to 185. *)
Definition flush_content (env : Env) (s : Stream) : completion :=
  if negb (length (content s) =? 0)%nat then
    match writer_write env (encode (content s)) s with
    | Normal s' => Normal (set_content [] s')
    | other => other
    end
  else Normal s.

(** One turn of the [for(;;)] loop on a chunk that was read, lines 144 to
    185. *)
Definition loop_body (env : Env) (i : nat) (value : bytes) (s : Stream)
    : completion :=
  if unsupportedCharset s then write_continue env value s
  else
    match decode_stream (td s) value with
    | None => write_continue env value (set_unsupportedCharset true s)
    | Some (td', chunk) =>
        let s := set_td td' s in
        let after_try :=
          match scan_try env i value chunk s with
          | Throw s' => Normal s'
          | other => other
          end in
        match after_try with
        | Normal s => flush_content env s
        | other => other
        end
    end.

(** The [for(;;)] loop: [reads] is what [reader.read()] returns before it
    reports [done]. *)
Fixpoint read_loop (env : Env) (i : nat) (reads : list read_result)
    (s : Stream) : completion :=
  match reads with
  | [] => Normal s
  | ReadThrows :: _ => Throw s
  | ReadChunk value :: reads' =>
      match loop_body env i value s with
      | Throw s' => Throw s'
      | Normal s' | ContinueLoop s' => read_loop env (S i) reads' s'
      end
  end.

Definition Stream_new : Stream :=
  {| td := TextDecoder_new; firstChunk := true; unsupportedCharset := false;
     content := []; sink := []; injections := 0 |}.

(** [modifyHtmlStream(readable, writable, request, event)]: both [try]
    statements ignore the exception they catch. *)
Definition modifyHtmlStream (env : Env) (reads : list read_result)
    : completion :=
  let s := Stream_new in
  let s :=
    match read_loop env 0 reads s with
    | Throw s' => s'
    | Normal s' | ContinueLoop s' => s'
    end in
  match writer_close env s with
  | Throw s' => Normal s'
  | other => other
  end.

(** The chunks the writer accepted, in order. *)
Fixpoint written (l : list event) : list bytes :=
  match l with
  | [] => []
  | Write v :: l' => v :: written l'
  | _ :: l' => written l'
  end.

(** The body the client receives from a stream of chunks when nothing
    around the worker fails. *)
Definition run (chunks : list bytes) : Stream :=
  state_of (modifyHtmlStream ideal (map ReadChunk chunks)).
Definition output (chunks : list bytes) : list bytes := written (sink (run chunks)).

(** ** Responses *)

(** A response: its status, its headers by lower-case name, and the chunks
    of its body. *)
Record Response := {
  status : Z;
  headers : gmap string jsstring;
  body : list bytes
}.

(** [new Response(readable, response)] *)
Definition Response_new (readable : list bytes) (response : Response)
    : Response :=
  {| status := status response; headers := headers response;
     body := readable |}.

(** [processHtmlResponse(response, request, event)].  A missing header
    reads as the string null in [exec], which has no charset either. *)
Definition processHtmlResponse (response : Response) : Response :=
  let contentType := default [] (headers response !! "content-type") in
  if headerCharsetUnsupported contentType then response
  else Response_new (output (body response)) response.

(** [processRequest(request, event)], from the response [fetch] resolved
    to. *)
Definition processRequest (fetched : option Response) : option Response :=
  match fetched with
  | Some response =>
      if status response =? 200 then
        match headers response !! "content-type" with
        | Some contentType =>
            if negb (length contentType =? 0)%nat
               && negb (indexOf contentType (str "text/html") =? -1)
            then Some (processHtmlResponse response)
            else fetched
        | None => fetched
        end
      else fetched
  | None => fetched
  end.

(** The bytes of a page given as pieces of text. *)
Definition html (l : list jsstring) : bytes := encode (concat l).

(** * Vocabulary of the properties *)

(** What lines 174 to 177 compute from the decoded chunk, for any needle
    and snippet. *)
Definition spliced (needle snippet chunk : jsstring) : jsstring :=
  let headPos := indexOf chunk needle in
  if headPos >? -1 then
    join3 (slice chunk 0 headPos) snippet (slice_from chunk headPos)
  else chunk.

(** The same, by recursion on the text: the snippet goes before the first
    occurrence of the needle. *)
Fixpoint splice (needle snippet t : jsstring) : jsstring :=
  if starts_with needle t then snippet ++ t
  else match t with
       | [] => []
       | c :: t' => c :: splice needle snippet t'
       end.

(** Does the suffix of [X] from position [k] equal a prefix of [X]? *)
Definition bordered_at (X : jsstring) (k : nat) : bool :=
  JS.eqb (take (length X - k) X) (drop k X).

(** No proper suffix of [X] is a prefix of [X]: two occurrences of [X] do
    not overlap. *)
Definition unbordered (X : jsstring) : bool :=
  forallb (fun k => negb (bordered_at X k)) (seq 1 (length X - 1)).

(** The states the decoder is in while a sequence is pending: bytes needed,
    bytes seen, and the range of the bits collected so far. *)
Definition pending (d : utf8_decoder) : Prop :=
  let n := bytes_needed d in
  let s := bytes_seen d in
  let cp := code_point d in
  let lo := lower_boundary d in
  let hi := upper_boundary d in
  (n = 1 /\ s = 0 /\ 2 <= cp <= 31 /\ lo = 128 /\ hi = 191) \/
  (n = 2 /\ s = 0 /\ 0 <= cp <= 15 /\
   lo = (if cp =? 0 then 160 else 128) /\
   hi = (if cp =? 13 then 159 else 191)) \/
  (n = 2 /\ s = 1 /\ 32 <= cp <= 1023 /\ ~ (864 <= cp <= 895) /\
   lo = 128 /\ hi = 191) \/
  (n = 3 /\ s = 0 /\ 0 <= cp <= 4 /\
   lo = (if cp =? 0 then 144 else 128) /\
   hi = (if cp =? 4 then 143 else 191)) \/
  (n = 3 /\ s = 1 /\ 16 <= cp <= 271 /\ lo = 128 /\ hi = 191) \/
  (n = 3 /\ s = 2 /\ 1024 <= cp <= 17407 /\ lo = 128 /\ hi = 191).

(** The states reachable from a new decoder. *)
Definition wf (d : utf8_decoder) : Prop := d = utf8_decoder_new \/ pending d.

Definition ascii (c : Z) : Prop := 0 <= c <= 127.

(** The state after one turn of the loop. *)
Definition step (s : Stream) (value : bytes) : Stream :=
  state_of (loop_body ideal 0 value s).

(** What a scanned chunk becomes: lines 172 to 177. *)
Definition inject (chunk : jsstring) : jsstring :=
  spliced HEAD_END TAG_MANAGER chunk.

Definition has_marker (chunk : jsstring) : bool :=
  indexOf chunk HEAD_END >? -1.

(** The write of lines 182 to 185. *)
Definition emitted (text : jsstring) : list bytes :=
  if negb (length text =? 0)%nat then [encode text] else [].

(** Does the chunk hold the marker's bytes? *)
Definition holds_marker (value : bytes) : bool :=
  (0 <? count_sub (encode HEAD_END) value)%nat.

(** The text of each chunk, as the streaming decoder hands it out. *)
Fixpoint chunk_texts (d : TextDecoder) (chunks : list bytes)
    : option (TextDecoder * list jsstring) :=
  match chunks with
  | [] => Some (d, [])
  | c :: chunks' =>
      match decode_stream d c with
      | Some (d1, t) =>
          match chunk_texts d1 chunks' with
          | Some (d2, ts) => Some (d2, t :: ts)
          | None => None
          end
      | None => None
      end
  end.

(** The first chunk's text does not declare an unsupported charset (a first
    chunk that does not decode is not checked). *)
Definition gate_ok (chunks : list bytes) : bool :=
  match chunks with
  | [] => true
  | c :: _ =>
      match decode_stream TextDecoder_new c with
      | Some (_, chunk) => negb (chunkContainsInvalidCharset chunk)
      | None => true
      end
  end.

(** No occurrence of the marker's bytes lies across a chunk boundary: the
    occurrences inside the chunks are all the occurrences of the input.
    This is [within_one_chunk] as a test (lemmas [marker_unsplit_intro] and
    [marker_unsplit_elim]). *)
Definition marker_unsplit (chunks : list bytes) : bool :=
  (count_sub (encode HEAD_END) (concat chunks)
   =? sum_list (map (count_sub (encode HEAD_END)) chunks))%nat.

(** The same, said of each occurrence: wherever the marker's bytes occur in
    the input, they lie inside one chunk. *)
Definition within_one_chunk (chunks : list bytes) : Prop :=
  forall pre post,
    concat chunks = pre ++ encode HEAD_END ++ post ->
    exists cs1 a b cs2,
      chunks = cs1 ++ (a ++ encode HEAD_END ++ b) :: cs2 /\
      pre = concat cs1 ++ a.


(** ** Sample inputs *)

Definition not_found_response : Response :=
  {| status := 404;
     headers := {[ "content-type" := str "text/html; charset=utf-8" ]};
     body := [html [str "<html><head></head></html>"]] |}.

Definition meta (charset : jsstring) : jsstring :=
  str "<meta charset=" ++ [DQUOTE] ++ charset ++ [DQUOTE] ++ str ">".

Definition shift_jis_response : Response :=
  {| status := 200;
     headers := {[ "content-type" := str "text/html; charset=shift_jis" ]};
     body := [html [str "<html><head>"]; html [str "</head></html>"]] |}.

Definition windows_1251_response : Response :=
  {| status := 200;
     headers := {[ "content-type" := str "text/html" ]};
     body := [html [str "<html><head>"; meta (str "windows-1251")];
              html [str "</head></html>"]] |}.

Definition sample_page : jsstring :=
  str "<html><head><title>x</title></head><body>hi</body></html>".

Definition latin1 : jsstring := str "text/html; charset=iso-8859-1".

Definition latin1_response (chunks : list bytes) : Response :=
  {| status := 200; headers := {[ "content-type" := latin1 ]};
     body := chunks |}.


(** Surroundings in which the charset check of the first chunk raises an
    exception. *)
Definition sniff_fails : Env :=
  {| write_ok := fun _ => true; close_ok := true;
     scan_fault := fun i => match i with O => FaultInSniff | _ => NoFault end |}.

(** A sink that accepts its first [k] writes and nothing after them, and
    one that rejects its first write only. *)
Definition sink_closes_after (k : nat) : Env :=
  {| write_ok := fun n => (n <? k)%nat; close_ok := false;
     scan_fault := fun _ => NoFault |}.


(** A response of status 200 and content type text/html, with no charset in
    the header, whose body is one chunk. *)
Definition html_page (text : jsstring) : Response :=
  {| status := 200;
     headers := {[ "content-type" := str "text/html" ]};
     body := [encode text] |}.

(** Three pages that declare an encoding outside [VALID_CHARSETS]: with an
    unquoted value, with a second attribute in charset, and in a second
    tag. *)
Definition unquoted_page : jsstring :=
  str "<html><head><meta charset=windows-1251></head>".

Definition shadowed_page : jsstring :=
  str "<html><head><meta charset=" ++ [DQUOTE] ++ str "koi8-r" ++ [DQUOTE]
  ++ str " data-charset=" ++ [DQUOTE] ++ str "utf-8" ++ [DQUOTE]
  ++ str "></head>".

Definition second_tag_page : jsstring :=
  str "<html><head>" ++ meta (str "utf-8") ++ meta (str "windows-1251")
  ++ str "</head>".

(** The text with the snippet before its marker. *)
Definition with_snippet (text : jsstring) : jsstring :=
  splice HEAD_END TAG_MANAGER text.

(** ** Vocabulary of the further properties *)

(** The UTF-8 bytes of U+FEFF, and the input without them. *)
Definition BOM : bytes := [239; 187; 191].

Definition strip_bom (input : bytes) : bytes :=
  if starts_with BOM input then drop 3 input else input.

(** Where the characters of a class end: at the end of the input or before
    a character outside the class. *)
Definition stops (p : Z -> bool) (rest : jsstring) : bool :=
  match rest with
  | [] => true
  | c :: _ => negb (p c)
  end.

(** Every match of the pattern holds a character with property [P]: the
    pattern has, outside its starred parts, a class inside [P] or a literal
    character that only characters with [P] are equal to under flag i. *)
Fixpoint requires (P : Z -> Prop) (r : regex) : Prop :=
  match r with
  | Lit s => Exists (fun x => forall y, canon x = canon y -> P y) s
  | Cls q | Plus q => forall c, q c = true -> P c
  | Star _ => False
  | Cat r1 r2 => requires P r1 \/ requires P r2
  | Cap r' => requires P r'
  end.

(** The pattern's word occurs nowhere in the input, in any case. *)
Fixpoint keyword_free (kw input : jsstring) : bool :=
  match lit_match kw input with
  | Some _ => false
  | None =>
      match input with
      | [] => true
      | _ :: input' => keyword_free kw input'
      end
  end.

(** A tag of the shape [charsetRegex] is written for: an opening bracket,
    white space, the name, what stands before the keyword, the keyword,
    white space around an equals sign, the value between two quotes, the
    rest of the tag and a closing bracket. *)
Record MetaTag := {
  before_name : jsstring;
  tag_name : jsstring;
  before_keyword : jsstring;
  tag_keyword : jsstring;
  before_equals : jsstring;
  after_equals : jsstring;
  open_quote : Z;
  tag_value : jsstring;
  close_quote : Z;
  after_value : jsstring
}.

Definition tag_text (m : MetaTag) : jsstring :=
  [60] ++ before_name m ++ tag_name m ++ before_keyword m ++ tag_keyword m
  ++ before_equals m ++ [61] ++ after_equals m ++ [open_quote m]
  ++ tag_value m ++ [close_quote m] ++ after_value m ++ [62].

(** The name is meta and the keyword charset, in any case; something other
    than a closing bracket stands between them; the value holds no quote;
    no closing bracket comes before the last one; and the keyword does not
    occur again from the value on. *)
Definition tag_shape (m : MetaTag) : bool :=
  forallb ws (before_name m)
  && JS.eqb (map canon (tag_name m)) (map canon (str "meta"))
  && negb (length (before_keyword m) =? 0)%nat
  && forallb (neg (chr 62)) (before_keyword m)
  && JS.eqb (map canon (tag_keyword m)) (map canon (str "charset"))
  && forallb ws (before_equals m)
  && forallb ws (after_equals m)
  && quote (open_quote m)
  && forallb (neg (either quote (chr 62))) (tag_value m)
  && quote (close_quote m)
  && forallb (neg (chr 62)) (after_value m)
  && keyword_free (str "charset")
       (tag_value m ++ [close_quote m] ++ after_value m ++ [62]).

(** The input from its first character that is not white space. *)
Fixpoint skip_ws (input : jsstring) : jsstring :=
  match input with
  | c :: rest => if ws c then skip_ws rest else input
  | [] => []
  end.

(** An opening bracket followed, after optional white space, by the
    letter m. *)
Definition opens_m (input : jsstring) : bool :=
  match input with
  | c :: rest =>
      (c =? 60) && match skip_ws rest with
                   | x :: _ => canon x =? 77
                   | [] => false
                   end
  | [] => false
  end.

(** No tag whose name begins with m opens in the input. *)
Fixpoint no_m_tag (input : jsstring) : bool :=
  match input with
  | [] => true
  | _ :: rest => negb (opens_m input) && no_m_tag rest
  end.

(** The input ends in a closing bracket and holds no other. *)
Definition closes (input : jsstring) : bool :=
  match reverse input with
  | c :: r => (c =? 62) && forallb (neg (chr 62)) r
  | [] => false
  end.

(** A tag of the shape [contentTypeRegex] and [metaRegex] are written for:
    as far as the name like [MetaTag], then what stands before http-equiv,
    that word, white space around an equals sign, a quote, white space,
    content-type, what stands before the keyword charset, the keyword,
    white space around an equals sign, the value, and the rest of the tag
    with its closing bracket. *)
Record EquivTag := {
  eq_before_name : jsstring;
  eq_name : jsstring;
  eq_before_equiv : jsstring;
  eq_equiv : jsstring;
  eq_before_equals : jsstring;
  eq_after_equals : jsstring;
  eq_quote : Z;
  eq_after_quote : jsstring;
  eq_content_type : jsstring;
  eq_before_keyword : jsstring;
  eq_keyword : jsstring;
  eq_keyword_equals : jsstring;
  eq_before_value : jsstring;
  eq_value : jsstring;
  eq_rest : jsstring
}.

(** The tag up to its keyword charset. *)
Definition equiv_head (m : EquivTag) : jsstring :=
  [60] ++ eq_before_name m ++ eq_name m ++ eq_before_equiv m ++ eq_equiv m
  ++ eq_before_equals m ++ [61] ++ eq_after_equals m ++ [eq_quote m]
  ++ eq_after_quote m ++ eq_content_type m ++ eq_before_keyword m.

(** The tag from its keyword on. *)
Definition equiv_tail (m : EquivTag) : jsstring :=
  eq_keyword m ++ eq_keyword_equals m ++ [61] ++ eq_before_value m
  ++ eq_value m ++ eq_rest m.

Definition equiv_text (m : EquivTag) : jsstring :=
  equiv_head m ++ equiv_tail m.

(** The words are those of the patterns, in any case; the value is made of
    characters that are neither white space nor a double quote, and ends
    before such a character or with the tag; the closing bracket is the
    last character of the tag and the only one; http-equiv does not occur
    again after content-type, nor charset before the keyword. *)
Definition equiv_shape (m : EquivTag) : bool :=
  forallb ws (eq_before_name m)
  && JS.eqb (map canon (eq_name m)) (map canon (str "meta"))
  && negb (length (eq_before_equiv m) =? 0)%nat
  && forallb (neg (chr 62)) (eq_before_equiv m)
  && JS.eqb (map canon (eq_equiv m)) (map canon (str "http-equiv"))
  && forallb ws (eq_before_equals m)
  && forallb ws (eq_after_equals m)
  && quote (eq_quote m)
  && forallb ws (eq_after_quote m)
  && JS.eqb (map canon (eq_content_type m)) (map canon (str "content-type"))
  && forallb (neg (chr 62)) (eq_before_keyword m)
  && JS.eqb (map canon (eq_keyword m)) (map canon (str "charset"))
  && forallb ws (eq_keyword_equals m)
  && forallb ws (eq_before_value m)
  && negb (length (eq_value m) =? 0)%nat
  && forallb (neg (either ws (chr DQUOTE))) (eq_value m)
  && stops (neg (either ws (chr DQUOTE))) (eq_rest m)
  && closes (eq_value m ++ eq_rest m)
  && keyword_free (str "http-equiv") (eq_before_keyword m ++ equiv_tail m)
  && keyword_free (str "charset")
       (equiv_head m ++ removelast (eq_keyword m)).

(** * Properties *)

(** ** The model on sample inputs *)

Example sniff_windows_1251 :
  chunkContainsInvalidCharset
    (str "<html><head><meta charset=" ++ [DQUOTE] ++ str "windows-1251"
       ++ [DQUOTE] ++ str ">") = true.
Proof. vm_compute. reflexivity. Qed.

Example sniff_utf8 :
  chunkContainsInvalidCharset
    (str "<html><head><META   charset = 'UTF-8' ></head>") = false.
Proof. vm_compute. reflexivity. Qed.

Example sniff_http_equiv :
  chunkContainsInvalidCharset
    (str "<meta http-equiv='Content-Type' content='text/html; charset=koi8-r'>")
  = true.
Proof. vm_compute. reflexivity. Qed.

Example sniff_snippet : chunkContainsInvalidCharset TAG_MANAGER = false.
Proof. vm_compute. reflexivity. Qed.

Example header_shift_jis :
  headerCharsetUnsupported (str "text/html; charset=shift_jis") = true.
Proof. vm_compute. reflexivity. Qed.

Example header_utf8 :
  headerCharsetUnsupported (str "text/html; Charset=UTF-8") = false.
Proof. vm_compute. reflexivity. Qed.

Example e2e :
  output [html [str "<html><head><title>x</title>"];
          html [str "</head><body>hi</body></html>"]]
  = [html [str "<html><head><title>x</title>"];
     html [TAG_MANAGER; str "</head><body>hi</body></html>"]].
Proof. vm_compute. reflexivity. Qed.

(** The charset check needs the value in quotes. *)
Example unquoted_meta_not_matched :
  output [html [str "<meta charset=windows-1251></head>"]]
  = [html [str "<meta charset=windows-1251>"; TAG_MANAGER; str "</head>"]].
Proof. vm_compute. reflexivity. Qed.

(** A marker cut by a chunk boundary is not found. *)
Example split_marker_missed :
  output [html [str "<head></he"]; html [str "ad><body>"]]
  = [html [str "<head></he"]; html [str "ad><body>"]].
Proof. vm_compute. reflexivity. Qed.

(** The charset check sees the first chunk only: the same bytes, cut
    differently, are passed through or rewritten. *)
Example delivery_changes_gate :
  output [html [str "<meta charset='koi8-r'></head>"]]
  = [html [str "<meta charset='koi8-r'></head>"]] /\
  output [html [str "<meta "]; html [str "charset='koi8-r'></head>"]]
  = [html [str "<meta "];
     html [str "charset='koi8-r'>"; TAG_MANAGER; str "</head>"]].
Proof. vm_compute. split; reflexivity. Qed.

(** A chunk is decoded as a whole: the same bytes, cut differently, are
    passed through or rewritten up to the byte that does not decode. *)
Example delivery_changes_failure :
  output [html [str "</head>"] ++ [255]] = [html [str "</head>"] ++ [255]] /\
  output [html [str "</head>"]; [255]]
  = [html [TAG_MANAGER; str "</head>"]; [255]].
Proof. vm_compute. split; reflexivity. Qed.

(** The bytes of a sequence left pending by one chunk are not written when
    the next chunk fails to decode. *)
Example pending_bytes_before_failure :
  output [[97; 226]; [65]] = [[97]; [65]].
Proof. vm_compute. reflexivity. Qed.

(** An exception in the charset check of the first chunk is caught before
    [content] is assigned: nothing is written for that chunk. *)
Example sniff_exception_drops_chunk :
  written (sink (state_of (modifyHtmlStream sniff_fails
    [ReadChunk (html [str "<html>"]); ReadChunk (html [str "<head></head>"])])))
  = [html [str "<head>"; TAG_MANAGER; str "</head>"]].
Proof. vm_compute. reflexivity. Qed.

(** ** Searching and splicing *)

Section Search.

Lemma starts_with_spec (n h : jsstring) :
  starts_with n h = true <-> exists rest, h = n ++ rest.
Proof.
  revert h. induction n as [|x n IH]; intros h; simpl.
  - split; eauto.
  - destruct h as [|y h]; simpl.
    + split; [discriminate | intros [r Hr]; discriminate].
    + rewrite andb_true_iff, Z.eqb_eq, IH. split.
      * intros [-> [r ->]]. eauto.
      * intros [r Hr]. injection Hr as -> ->. eauto.
Qed.

Lemma starts_with_app (n h x : jsstring) :
  starts_with n h = true -> starts_with n (h ++ x) = true.
Proof.
  rewrite !starts_with_spec. intros [r ->]. exists (r ++ x).
  by rewrite app_assoc.
Qed.

Lemma starts_with_self (n r : jsstring) : starts_with n (n ++ r) = true.
Proof. apply starts_with_spec. eauto. Qed.

(** Extending the text beyond the needle's length does not change the
    test. *)
Lemma starts_with_long (n h x y : jsstring) :
  (length n <= length h)%nat ->
  starts_with n (h ++ x) = starts_with n (h ++ y).
Proof.
  revert h. induction n as [|a n IH]; intros h Hl; [done|].
  destruct h as [|b h]; simpl in *; [lia|].
  f_equal. apply IH. lia.
Qed.

Lemma eqb_eq (a b : jsstring) : JS.eqb a b = true <-> a = b.
Proof.
  revert b. induction a as [|x a IH]; intros [|y b]; simpl; try done.
  rewrite andb_true_iff, Z.eqb_eq, IH. split.
  - by intros [-> ->].
  - intros H. by injection H.
Qed.

Lemma count_sub_cons_ge (n : jsstring) c h :
  (count_sub n h <= count_sub n (c :: h))%nat.
Proof. simpl. lia. Qed.

Lemma count_sub_app_r (n a b : jsstring) :
  (count_sub n b <= count_sub n (a ++ b))%nat.
Proof.
  induction a as [|c a IH]; [done|].
  etrans; [exact IH|]. apply count_sub_cons_ge.
Qed.

Lemma count_sub_app_ge (n a b : jsstring) :
  (count_sub n a + count_sub n b <= count_sub n (a ++ b))%nat.
Proof.
  induction a as [|c a IH]; [simpl; lia|].
  change ((c :: a) ++ b) with (c :: (a ++ b)).
  cbn [count_sub].
  destruct (starts_with n (c :: a)) eqn:E.
  - apply (starts_with_app _ _ b) in E. simpl in E |- *. rewrite E. lia.
  - destruct (starts_with n (c :: a ++ b)); lia.
Qed.

Lemma count_sub_concat_ge (n : jsstring) (l : list jsstring) :
  (sum_list (map (count_sub n) l) <= count_sub n (concat l))%nat.
Proof.
  induction l as [|a l IH]; [done|]. simpl.
  etrans; [|apply count_sub_app_ge]. lia.
Qed.

Lemma count_sub_occ (n a b : jsstring) :
  n <> [] -> (1 <= count_sub n (a ++ n ++ b))%nat.
Proof.
  intros Hn. etrans; [|apply count_sub_app_r].
  destruct n as [|x n]; [done|].
  change ((x :: n) ++ b) with (x :: (n ++ b)). cbn [count_sub].
  change (x :: n ++ b) with ((x :: n) ++ b).
  rewrite starts_with_self. lia.
Qed.

Lemma count_sub_pos_occ (n h : jsstring) :
  (1 <= count_sub n h)%nat -> exists a b, h = a ++ n ++ b.
Proof.
  induction h as [|c h IH]; simpl; [lia|].
  destruct (starts_with n (c :: h)) eqn:E.
  - intros _. apply starts_with_spec in E as [r Hr]. exists [], r. done.
  - intros H. destruct IH as (a & b & ->); [lia|]. by exists (c :: a), b.
Qed.

(** When the count of a concatenation exceeds the counts of its parts, an
    occurrence lies across the seam. *)
Lemma count_sub_straddle (n c r : jsstring) :
  count_sub n (c ++ r) <> (count_sub n c + count_sub n r)%nat ->
  exists pre post,
    c ++ r = pre ++ n ++ post /\
    (length pre < length c < length pre + length n)%nat.
Proof.
  induction c as [|x c IH]; [done|].
  change ((x :: c) ++ r) with (x :: (c ++ r)). cbn [count_sub]. intros H.
  destruct (decide (count_sub n (c ++ r) = (count_sub n c + count_sub n r)%nat))
    as [He|Hne].
  - destruct (starts_with n (x :: c ++ r)) eqn:E1.
    + destruct (starts_with n (x :: c)) eqn:E2; [lia|].
      apply starts_with_spec in E1 as [post Hpost].
      exists [], post. split; [done|]. simpl.
      destruct (decide (length n <= length (x :: c))%nat) as [Hle|Hgt];
        [|simpl in *; lia].
      pose proof (starts_with_long n (x :: c) r [] Hle) as Hl.
      rewrite app_nil_r in Hl. simpl in Hl. rewrite E2 in Hl.
      rewrite Hpost in Hl.
      change (x :: c ++ r) with ((x :: c) ++ r) in Hpost.
      pose proof (starts_with_self n post) as Hs.
      simpl in Hpost. rewrite <- Hpost in Hs. simpl in Hs.
      rewrite <- Hpost in Hl. congruence.
    + destruct (starts_with n (x :: c)) eqn:E2; [|lia].
      apply (starts_with_app _ _ r) in E2. simpl in E2. congruence.
  - destruct (IH Hne) as (pre & post & Hp & Hl).
    exists (x :: pre), post. simpl. rewrite Hp. split; [done|lia].
Qed.

Lemma starts_with_length (n h : jsstring) :
  starts_with n h = true -> (length n <= length h)%nat.
Proof.
  intros [r ->]%starts_with_spec. rewrite length_app. lia.
Qed.

(** And an occurrence across the seam is counted in neither part. *)
Lemma count_sub_straddle_gt (n c r pre post : jsstring) :
  c ++ r = pre ++ n ++ post ->
  (length pre < length c < length pre + length n)%nat ->
  (count_sub n c + count_sub n r < count_sub n (c ++ r))%nat.
Proof.
  revert pre. induction c as [|x c IH]; intros pre Hp Hl; [simpl in Hl; lia|].
  change ((x :: c) ++ r) with (x :: (c ++ r)) in *. cbn [count_sub].
  pose proof (count_sub_app_ge n c r) as Hge.
  destruct pre as [|y pre].
  - assert (starts_with n (x :: c ++ r) = true) as ->
      by (rewrite Hp, app_nil_l; apply starts_with_self).
    destruct (starts_with n (x :: c)) eqn:E; [|lia].
    apply starts_with_length in E. simpl in *. lia.
  - assert (c ++ r = pre ++ n ++ post) as Hp' by (simpl in Hp; congruence).
    specialize (IH pre Hp'). simpl in Hl.
    destruct (starts_with n (x :: c)) eqn:E.
    + apply (starts_with_app _ _ r) in E. simpl in E. rewrite E. lia.
    + destruct (starts_with n (x :: c ++ r)); lia.
Qed.

Variables (needle snippet : jsstring).
Hypothesis needle_nonempty : needle <> [].

Local Abbreviation spliced' := (spliced needle snippet).
Local Abbreviation splice' := (splice needle snippet).

Lemma indexOf_from_spec (t : jsstring) (i : Z) :
  0 <= i ->
  let j := indexOf_from needle t i in
  (j = -1 /\ count_sub needle t = 0%nat /\ splice' t = t) \/
  (i <= j /\ (1 <= count_sub needle t)%nat /\
   take (Z.to_nat (j - i)) t ++ snippet ++ drop (Z.to_nat (j - i)) t
   = splice' t).
Proof.
  revert i. induction t as [|c t IH]; intros i Hi; simpl.
  - destruct needle; [done|]. simpl. left. done.
  - destruct (starts_with needle (c :: t)) eqn:E.
    + right. rewrite Z.sub_diag. simpl. split; [lia|].
      split; [lia|done].
    + destruct (IH (i + 1)) as [(Hj & Hc & Hs)|(Hj & Hc & Hs)]; [lia|..].
      * left. rewrite Hj, Hc, Hs. done.
      * right. split; [lia|]. split; [lia|].
        replace (Z.to_nat (indexOf_from needle t (i + 1) - i))
          with (S (Z.to_nat (indexOf_from needle t (i + 1) - (i + 1))))
          by lia.
        simpl. by rewrite Hs.
Qed.

Lemma spliced_splice (t : jsstring) : spliced' t = splice' t.
Proof.
  unfold spliced, indexOf, join3, slice, slice_from.
  destruct (indexOf_from_spec t 0) as [(Hj & _ & Hs)|(Hj & _ & Hs)]; [lia|..].
  - rewrite Hj. simpl. by rewrite Hs.
  - assert ((indexOf_from needle t 0 >? -1) = true) as -> by lia.
    rewrite Z.sub_0_r in *. rewrite drop_0. exact Hs.
Qed.

Lemma found_iff_count (t : jsstring) :
  (indexOf t needle >? -1) = true <-> (1 <= count_sub needle t)%nat.
Proof.
  unfold indexOf.
  destruct (indexOf_from_spec t 0) as [(Hj & Hc & _)|(Hj & Hc & _)]; lia.
Qed.

Lemma splice_none (t : jsstring) : count_sub needle t = 0%nat -> splice' t = t.
Proof.
  induction t as [|c t IH]; simpl.
  - destruct needle; done.
  - destruct (starts_with needle (c :: t)) eqn:E.
    + intros; lia.
    + intros H. by rewrite IH.
Qed.

(** The only occurrence lies in the right part. *)
Lemma splice_app_r (a b : jsstring) :
  (count_sub needle (a ++ b) <= 1)%nat -> (1 <= count_sub needle b)%nat ->
  splice' (a ++ b) = a ++ splice' b.
Proof.
  induction a as [|c a IH]; [done|]. intros H1 H2.
  change ((c :: a) ++ b) with (c :: (a ++ b)) in *.
  cbn [count_sub] in H1. pose proof (count_sub_app_r needle a b).
  cbn [splice]. destruct (starts_with needle (c :: a ++ b)); [lia|].
  simpl. rewrite IH; [done|lia|done].
Qed.

(** The only occurrence lies in the left part. *)
Lemma splice_app_l (a b : jsstring) :
  (count_sub needle (a ++ b) <= 1)%nat -> (1 <= count_sub needle a)%nat ->
  splice' (a ++ b) = splice' a ++ b.
Proof.
  induction a as [|c a IH]; [simpl; lia|]. intros H1 H2.
  change ((c :: a) ++ b) with (c :: (a ++ b)) in *.
  cbn [count_sub] in H1, H2. cbn [splice].
  destruct (starts_with needle (c :: a)) eqn:E.
  - apply (starts_with_app _ _ b) in E as E'. simpl in E'. simpl. rewrite E'.
    by rewrite <- app_assoc.
  - pose proof (count_sub_app_ge needle a b).
    destruct (starts_with needle (c :: a ++ b)); [lia|].
    simpl. rewrite IH; [done|lia|lia].
Qed.

Lemma splice_occ (t : jsstring) :
  (1 <= count_sub needle t)%nat ->
  exists pre post,
    t = pre ++ needle ++ post /\ splice' t = pre ++ snippet ++ needle ++ post.
Proof.
  induction t as [|c t IH]; simpl; [lia|].
  destruct (starts_with needle (c :: t)) eqn:E.
  - intros _. apply starts_with_spec in E as [r Hr]. exists [], r. simpl.
    by rewrite Hr.
  - intros H. destruct IH as (pre & post & Ht & Hs); [lia|].
    exists (c :: pre), post. simpl. by rewrite Hs, <- Ht.
Qed.

Lemma count_sub_elem (t : jsstring) (ts : list jsstring) :
  t ∈ ts -> (count_sub needle t <= count_sub needle (concat ts))%nat.
Proof.
  induction ts as [|v ts IH]; intros Hu; [by apply elem_of_nil in Hu|].
  simpl. apply elem_of_cons in Hu as [->|Hu].
  - pose proof (count_sub_app_ge needle v (concat ts)). lia.
  - etrans; [apply IH; done|]. apply count_sub_app_r.
Qed.

Lemma splice_concat_none (ts : list jsstring) :
  count_sub needle (concat ts) = 0%nat -> concat (map splice' ts) = concat ts.
Proof.
  induction ts as [|u ts IH]; [done|]. simpl. intros H0.
  pose proof (count_sub_app_ge needle u (concat ts)).
  rewrite splice_none by lia. f_equal. apply IH. lia.
Qed.

(** Splicing chunk by chunk is splicing the whole text, when the needle
    occurs at most once and then inside one chunk. *)
Lemma splice_chunks (ts : list jsstring) :
  (count_sub needle (concat ts) <= 1)%nat ->
  (count_sub needle (concat ts) = 1%nat ->
   exists t, t ∈ ts /\ (1 <= count_sub needle t)%nat) ->
  concat (map splice' ts) = splice' (concat ts).
Proof.
  induction ts as [|t ts IH]; [simpl; by destruct needle|].
  simpl. intros H1 H2.
  pose proof (count_sub_app_ge needle t (concat ts)) as Hge.
  destruct (decide (1 <= count_sub needle t)%nat) as [Ht|Ht].
  - rewrite splice_app_l by done. f_equal.
    apply splice_concat_none. lia.
  - assert (count_sub needle t = 0%nat) as Ht0 by lia.
    rewrite (splice_none t) by done.
    destruct (decide (1 <= count_sub needle (concat ts))%nat) as [Hr|Hr].
    + rewrite splice_app_r by done. f_equal. apply IH; [lia|].
      intros _. destruct H2 as (u & Hu & Hc); [lia|].
      apply elem_of_cons in Hu as [->|Hu]; [lia|]. eauto.
    + assert (count_sub needle (t ++ concat ts) = 0%nat) as H0.
      { destruct (decide (count_sub needle (t ++ concat ts) = 1%nat)) as [E|E];
          [|lia].
        destruct (H2 E) as (u & Hu & Hc).
        apply elem_of_cons in Hu as [->|Hu]; [lia|].
        apply count_sub_elem in Hu. lia. }
      rewrite (splice_none (t ++ concat ts)) by done. f_equal.
      apply splice_concat_none. lia.
Qed.

End Search.

(** ** Occurrences of an inserted text *)

Section Border.

Variable X : jsstring.
Hypothesis X_unbordered : unbordered X = true.
Hypothesis X_nonempty : X <> [].

Lemma no_border k : (0 < k < length X)%nat -> bordered_at X k = false.
Proof.
  intros Hk. unfold unbordered in X_unbordered.
  rewrite forallb_forall in X_unbordered.
  apply negb_true_iff, X_unbordered, in_seq. lia.
Qed.

Lemma no_overlap_right k r :
  (0 < k < length X)%nat -> starts_with X (drop k X ++ r) = false.
Proof.
  intros Hk. apply not_true_is_false. intros Hs.
  apply starts_with_spec in Hs as [r' Hr'].
  pose proof (no_border k Hk) as Hb. apply not_true_iff_false in Hb.
  apply Hb, eqb_eq.
  apply (f_equal (take (length X - k))) in Hr'.
  rewrite take_app_length' in Hr' by (rewrite length_drop; lia).
  rewrite take_app_le in Hr' by lia. done.
Qed.

Lemma no_overlap_left pre r :
  (0 < length pre < length X)%nat -> starts_with X (pre ++ X ++ r) = false.
Proof.
  intros Hk. apply not_true_is_false. intros Hs.
  apply starts_with_spec in Hs as [r' Hr'].
  pose proof (no_border (length pre) Hk) as Hb. apply not_true_iff_false in Hb.
  apply Hb, eqb_eq.
  assert (take (length pre) X = pre) as Hpre.
  { apply (f_equal (take (length pre))) in Hr'.
    rewrite take_app_length in Hr'. rewrite take_app_le in Hr' by lia. done. }
  apply (f_equal (drop (length pre))) in Hr'.
  rewrite drop_app_length in Hr'.
  apply (f_equal (take (length X - length pre))) in Hr'.
  rewrite take_app_le in Hr' by lia.
  rewrite drop_app_le in Hr' by lia.
  rewrite take_app_length' in Hr' by (rewrite length_drop; lia).
  done.
Qed.

Lemma count_sub_tail r n k :
  count_sub X r = 0%nat -> n = (length X - k)%nat -> (k <= length X)%nat ->
  count_sub X (drop k X ++ r) = (if decide (k = 0%nat) then 1 else 0)%nat.
Proof.
  intros Hr. revert k. induction n as [|n IH]; intros k Hn Hk.
  - rewrite drop_ge by lia. destruct (decide (k = 0%nat)) as [->|]; [|done].
    destruct X; [done|simpl in *; lia].
  - destruct (drop k X) as [|x l] eqn:Ed.
    { apply (f_equal length) in Ed. rewrite length_drop in Ed. simpl in Ed. lia. }
    assert (drop (S k) X = l) as Hl.
    { replace (S k) with (k + 1)%nat by lia.
      by rewrite <- drop_drop, Ed. }
    change ((x :: l) ++ r) with (x :: (l ++ r)). cbn [count_sub].
    change (x :: l ++ r) with ((x :: l) ++ r). rewrite <- Ed, <- Hl.
    rewrite (IH (S k)) by lia.
    destruct (decide (k = 0%nat)) as [->|Hk0].
    + rewrite drop_0, starts_with_self. done.
    + rewrite no_overlap_right by lia. done.
Qed.

Lemma count_sub_self r : count_sub X r = 0%nat -> count_sub X (X ++ r) = 1%nat.
Proof.
  intros Hr.
  pose proof (count_sub_tail r (length X) 0 Hr) as H.
  rewrite drop_0 in H. apply H; lia.
Qed.

(** Inserting [X] into a text that does not hold it yields exactly one
    occurrence. *)
Lemma count_sub_insert pre r :
  count_sub X (pre ++ r) = 0%nat -> count_sub X (pre ++ X ++ r) = 1%nat.
Proof.
  induction pre as [|c pre IH]; intros H0.
  - apply count_sub_self. done.
  - change ((c :: pre) ++ X ++ r) with (c :: (pre ++ X ++ r)).
    change ((c :: pre) ++ r) with (c :: (pre ++ r)) in H0.
    cbn [count_sub] in H0 |- *.
    rewrite IH by lia.
    assert (starts_with X (c :: pre ++ X ++ r) = false) as ->; [|done].
    destruct (decide (length (c :: pre) < length X)%nat) as [Hlt|Hge].
    + apply (no_overlap_left (c :: pre) r). simpl in *. lia.
    + change (c :: pre ++ X ++ r) with ((c :: pre) ++ X ++ r).
      rewrite (starts_with_long X (c :: pre) (X ++ r) r) by lia.
      simpl. destruct (starts_with X (c :: pre ++ r)); [lia|done].
Qed.

End Border.

(** ** The UTF-8 decoder *)

Section Bits.

Lemma lor_add (m x k : Z) :
  0 <= k -> 0 <= x < 2 ^ k -> Z.lor (m * 2 ^ k) x = m * 2 ^ k + x.
Proof.
  intros Hk Hx.
  assert (Z.land (m * 2 ^ k) x = 0) as H0.
  { apply Z.bits_inj'. intros n Hn. rewrite Z.land_spec, Z.bits_0.
    destruct (decide (n < k)) as [Hlt|Hge].
    - by rewrite Z.mul_pow2_bits_low by lia.
    - destruct (decide (x = 0)) as [->|Hx0];
        [by rewrite Z.bits_0, andb_false_r|].
      rewrite (Z.bits_above_log2 x n); [by rewrite andb_false_r|lia|].
      apply Z.log2_lt_pow2; [lia|].
      eapply Z.lt_le_trans; [apply Hx|]. apply Z.pow_le_mono_r; lia. }
  rewrite <- Z.lxor_lor by done. symmetry. by apply Z.add_nocarry_lxor.
Qed.

Lemma land_mod (b k : Z) : 0 <= k -> Z.land b (2 ^ k - 1) = b mod 2 ^ k.
Proof.
  intros. replace (2 ^ k - 1) with (Z.ones k) by (rewrite Z.ones_equiv; lia).
  by rewrite Z.land_ones.
Qed.

Lemma land31 b : 192 <= b <= 223 -> Z.land b 31 = b - 192.
Proof.
  intros. change 31 with (2 ^ 5 - 1). rewrite land_mod by lia.
  change (2 ^ 5) with 32. Z.div_mod_to_equations; lia.
Qed.

Lemma land15 b : 224 <= b <= 239 -> Z.land b 15 = b - 224.
Proof.
  intros. change 15 with (2 ^ 4 - 1). rewrite land_mod by lia.
  change (2 ^ 4) with 16. Z.div_mod_to_equations; lia.
Qed.

Lemma land7 b : 240 <= b <= 247 -> Z.land b 7 = b - 240.
Proof.
  intros. change 7 with (2 ^ 3 - 1). rewrite land_mod by lia.
  change (2 ^ 3) with 8. Z.div_mod_to_equations; lia.
Qed.

Lemma land63 b : 128 <= b <= 191 -> Z.land b 63 = b - 128.
Proof.
  intros. change 63 with (2 ^ 6 - 1). rewrite land_mod by lia.
  change (2 ^ 6) with 64. Z.div_mod_to_equations; lia.
Qed.

Lemma lor_continuation cp b :
  128 <= b <= 191 ->
  Z.lor (Z.shiftl cp 6) (Z.land b 63) = cp * 64 + (b - 128).
Proof.
  intros. rewrite land63 by done. rewrite Z.shiftl_mul_pow2 by lia.
  rewrite lor_add by lia. done.
Qed.

End Bits.

Section Decoder.

Lemma wf_new : wf utf8_decoder_new.
Proof. by left. Qed.

Lemma pending_needed d : pending d -> bytes_needed d <> 0.
Proof. unfold pending. intros H. lia. Qed.

Lemma pending_bounds d :
  pending d -> 128 <= lower_boundary d /\ upper_boundary d <= 191.
Proof.
  unfold pending. intros H.
  destruct (code_point d =? 0), (code_point d =? 13), (code_point d =? 4); lia.
Qed.

Lemma handler_new_ascii b :
  0 <= b <= 127 ->
  utf8_handler utf8_decoder_new b = CodePoint utf8_decoder_new b.
Proof.
  intros. unfold utf8_handler, in_range. simpl.
  assert ((0 <=? b) && (b <=? 127) = true) as -> by lia. done.
Qed.

Lemma handler_new_lead2 b :
  194 <= b <= 223 ->
  utf8_handler utf8_decoder_new b =
    Continue {| code_point := b - 192; bytes_seen := 0; bytes_needed := 1;
                lower_boundary := 128; upper_boundary := 191 |}.
Proof.
  intros. unfold utf8_handler, in_range. simpl.
  assert ((0 <=? b) && (b <=? 127) = false) as -> by lia.
  assert ((194 <=? b) && (b <=? 223) = true) as -> by lia.
  by rewrite land31 by lia.
Qed.

Lemma handler_new_lead3 b :
  224 <= b <= 239 ->
  utf8_handler utf8_decoder_new b =
    Continue {| code_point := b - 224; bytes_seen := 0; bytes_needed := 2;
                lower_boundary := if b =? 224 then 160 else 128;
                upper_boundary := if b =? 237 then 159 else 191 |}.
Proof.
  intros. unfold utf8_handler, in_range. simpl.
  assert ((0 <=? b) && (b <=? 127) = false) as -> by lia.
  assert ((194 <=? b) && (b <=? 223) = false) as -> by lia.
  assert ((224 <=? b) && (b <=? 239) = true) as -> by lia.
  by rewrite land15 by lia.
Qed.

Lemma handler_new_lead4 b :
  240 <= b <= 244 ->
  utf8_handler utf8_decoder_new b =
    Continue {| code_point := b - 240; bytes_seen := 0; bytes_needed := 3;
                lower_boundary := if b =? 240 then 144 else 128;
                upper_boundary := if b =? 244 then 143 else 191 |}.
Proof.
  intros. unfold utf8_handler, in_range. simpl.
  assert ((0 <=? b) && (b <=? 127) = false) as -> by lia.
  assert ((194 <=? b) && (b <=? 223) = false) as -> by lia.
  assert ((224 <=? b) && (b <=? 239) = false) as -> by lia.
  assert ((240 <=? b) && (b <=? 244) = true) as -> by lia.
  by rewrite land7 by lia.
Qed.

Lemma handler_new_error b :
  ~ (0 <= b <= 127) -> ~ (194 <= b <= 244) ->
  utf8_handler utf8_decoder_new b = DecodeError.
Proof.
  intros. unfold utf8_handler, in_range. simpl.
  assert ((0 <=? b) && (b <=? 127) = false) as -> by lia.
  assert ((194 <=? b) && (b <=? 223) = false) as -> by lia.
  assert ((224 <=? b) && (b <=? 239) = false) as -> by lia.
  assert ((240 <=? b) && (b <=? 244) = false) as -> by lia.
  done.
Qed.

Lemma handler_new_cases b :
  match utf8_handler utf8_decoder_new b with
  | CodePoint d' cp => d' = utf8_decoder_new /\ cp = b /\ 0 <= b <= 127
  | Continue d' => pending d' /\ 194 <= b <= 244
  | DecodeError => ~ (0 <= b <= 127) /\ ~ (194 <= b <= 244)
  end.
Proof.
  destruct (decide (0 <= b <= 127)) as [H1|H1].
  { by rewrite handler_new_ascii. }
  destruct (decide (194 <= b <= 223)) as [H2|H2].
  { rewrite handler_new_lead2 by done. split; [|lia].
    left. simpl. lia. }
  destruct (decide (224 <= b <= 239)) as [H3|H3].
  { rewrite handler_new_lead3 by done. split; [|lia].
    right; left. simpl.
    destruct (b =? 224) eqn:?, (b =? 237) eqn:?,
      (b - 224 =? 0) eqn:?, (b - 224 =? 13) eqn:?; lia. }
  destruct (decide (240 <= b <= 244)) as [H4|H4].
  { rewrite handler_new_lead4 by done. split; [|lia].
    do 3 right; left. simpl.
    destruct (b =? 240) eqn:?, (b =? 244) eqn:?,
      (b - 240 =? 0) eqn:?, (b - 240 =? 4) eqn:?; lia. }
  rewrite handler_new_error by lia. lia.
Qed.

(** A byte inside a sequence. *)
Lemma handler_continuation d b :
  bytes_needed d <> 0 ->
  utf8_handler d b =
    if negb (in_range (lower_boundary d) (upper_boundary d) b)
    then DecodeError
    else
      let cp := Z.lor (Z.shiftl (code_point d) 6) (Z.land b 63) in
      if bytes_seen d + 1 =? bytes_needed d
      then CodePoint utf8_decoder_new cp
      else Continue {| code_point := cp; bytes_seen := bytes_seen d + 1;
                       bytes_needed := bytes_needed d;
                       lower_boundary := 128; upper_boundary := 191 |}.
Proof.
  intros. unfold utf8_handler.
  assert ((bytes_needed d =? 0) = false) as -> by lia. done.
Qed.

Lemma scalar_intro cp :
  0 <= cp <= 1114111 -> ~ (55296 <= cp <= 57343) -> scalar cp = true.
Proof. unfold scalar, in_range. lia. Qed.

Lemma handler_pending_cases d b :
  pending d ->
  match utf8_handler d b with
  | CodePoint d' cp =>
      d' = utf8_decoder_new /\ 128 <= cp /\ scalar cp = true /\
      128 <= b <= 191
  | Continue d' => pending d' /\ 128 <= b <= 191
  | DecodeError => ~ (lower_boundary d <= b <= upper_boundary d)
  end.
Proof.
  intros Hp. pose proof (pending_needed d Hp) as Hn.
  pose proof (pending_bounds d Hp) as Hb.
  rewrite handler_continuation by done. unfold in_range.
  destruct ((lower_boundary d <=? b) && (b <=? upper_boundary d)) eqn:E;
    simpl; [|lia].
  rewrite lor_continuation by lia.
  destruct d as [cp s n lo hi]. unfold pending in *. simpl in *.
  destruct Hp as [Hp|[Hp|[Hp|[Hp|[Hp|Hp]]]]];
    destruct Hp as (-> & -> & Hp); simpl.
  - split; [done|]. split; [lia|]. split; [apply scalar_intro|]; lia.
  - split; [|lia]. right; right; left.
    destruct (cp =? 0) eqn:?, (cp =? 13) eqn:?; lia.
  - split; [done|]. split; [lia|]. split; [apply scalar_intro|]; lia.
  - split; [|lia]. do 4 right; left.
    destruct (cp =? 0) eqn:?, (cp =? 4) eqn:?; lia.
  - split; [|lia]. do 5 right. lia.
  - split; [done|]. split; [lia|]. split; [apply scalar_intro|]; lia.
Qed.

Lemma handler_wf d b :
  wf d ->
  match utf8_handler d b with
  | CodePoint d' cp => d' = utf8_decoder_new /\ scalar cp = true
  | Continue d' => pending d'
  | DecodeError => True
  end.
Proof.
  intros [->|Hp].
  - pose proof (handler_new_cases b) as H.
    destruct (utf8_handler utf8_decoder_new b); [tauto| |done].
    destruct H as (-> & -> & Hb). split; [done|].
    unfold scalar, in_range. apply orb_true_iff. left. lia.
  - pose proof (handler_pending_cases d b Hp) as H.
    destruct (utf8_handler d b); tauto.
Qed.

(** An ASCII byte is a character of its own, and an error inside a
    sequence. *)
Lemma handler_ascii d b :
  wf d -> 0 <= b <= 127 ->
  utf8_handler d b =
    if bytes_needed d =? 0 then CodePoint d b else DecodeError.
Proof.
  intros [->|Hp] Hb.
  - pose proof (handler_new_cases b) as H. simpl.
    destruct (utf8_handler utf8_decoder_new b); [lia| |lia].
    by destruct H as (-> & -> & _).
  - pose proof (handler_pending_cases d b Hp) as H.
    pose proof (pending_needed d Hp). pose proof (pending_bounds d Hp).
    destruct (bytes_needed d =? 0) eqn:E; [lia|].
    destruct (utf8_handler d b); [lia|lia|done].
Qed.

End Decoder.

Section Queue.

Lemma process_queue_app d a b :
  process_queue d (a ++ b) =
    match process_queue d a with
    | Some (d1, o1) =>
        match process_queue d1 b with
        | Some (d2, o2) => Some (d2, o1 ++ o2)
        | None => None
        end
    | None => None
    end.
Proof.
  revert d. induction a as [|x a IH]; intros d; simpl.
  - by destruct (process_queue d b) as [[??]|].
  - destruct (utf8_handler d x) as [d'|d' cp|]; [apply IH| |done].
    rewrite IH. destruct (process_queue d' a) as [[d1 o1]|]; [|done].
    by destruct (process_queue d1 b) as [[??]|].
Qed.

Lemma process_queue_wf d input d' out :
  wf d -> process_queue d input = Some (d', out) ->
  wf d' /\ Forall (fun c => scalar c = true) out.
Proof.
  revert d out. induction input as [|x input IH]; intros d out Hd; simpl.
  - intros [= -> <-]. by split.
  - pose proof (handler_wf d x Hd) as Hh.
    destruct (utf8_handler d x) as [d1|d1 cp|]; [| |done].
    + apply IH. by right.
    + destruct Hh as [-> Hs].
      destruct (process_queue utf8_decoder_new input) as [[d2 o2]|] eqn:E;
        [|done].
      intros [= -> <-]. destruct (IH _ _ wf_new E) as [? ?].
      split; [done|]. by constructor.
Qed.

(** The first scalar value that comes out of a pending sequence is not
    ASCII. *)
Lemma first_of_pending d input d' c out :
  pending d -> process_queue d input = Some (d', c :: out) -> 128 <= c.
Proof.
  revert d. induction input as [|x input IH]; intros d Hd; simpl; [done|].
  pose proof (handler_pending_cases d x Hd) as Hh.
  destruct (utf8_handler d x) as [d1|d1 cp|]; [| |done].
  - apply IH. tauto.
  - destruct (process_queue d1 input) as [[d2 o2]|]; [|done].
    intros [= _ <- _]. lia.
Qed.

(** ASCII bytes in the input are decoded to themselves, and only outside a
    pending sequence. *)
Lemma process_queue_ascii d m rest d' out :
  wf d -> Forall ascii m -> m <> [] ->
  process_queue d (m ++ rest) = Some (d', out) ->
  d = utf8_decoder_new /\
  exists out', out = m ++ out' /\
               process_queue utf8_decoder_new rest = Some (d', out').
Proof.
  intros Hd Hm. revert out. induction Hm as [|x m Hx Hm IH]; [done|].
  intros out _. simpl. rewrite handler_ascii by done.
  destruct (bytes_needed d =? 0) eqn:E; [|done].
  destruct Hd as [->|Hp]; [|apply pending_needed in Hp; lia].
  split; [done|].
  destruct (process_queue utf8_decoder_new (m ++ rest)) as [[d2 o2]|] eqn:E2;
    [|done].
  injection H as -> <-.
  destruct m as [|y m].
  - exists o2. done.
  - destruct (IH o2) as (_ & out' & -> & Hr); [done|done|]. by exists out'.
Qed.

(** Conversely, ASCII text at the head of the output was ASCII bytes at the
    head of the input. *)
Lemma starts_with_ascii_inv m input d' out :
  Forall ascii m ->
  process_queue utf8_decoder_new input = Some (d', out) ->
  starts_with m out = true -> starts_with m input = true.
Proof.
  intros Hm. revert input out. induction Hm as [|x m Hx Hm IH]; [done|].
  intros input out Hq Hs.
  destruct out as [|c out]; [done|]. simpl in Hs.
  apply andb_true_iff in Hs as [Hc Hs]. apply Z.eqb_eq in Hc as <-.
  destruct input as [|b input]; [by simplify_eq/=|].
  simpl in Hq. pose proof (handler_new_cases b) as Hh.
  destruct (utf8_handler utf8_decoder_new b) as [d1|d1 cp|]; [| |done].
  - destruct Hh as [Hp _]. apply (first_of_pending _ _ _ _ _ Hp) in Hq.
    unfold ascii in Hx. lia.
  - destruct Hh as (-> & -> & _).
    destruct (process_queue utf8_decoder_new input) as [[d2 o2]|] eqn:E;
      [|done].
    injection Hq as -> -> ->. simpl. rewrite Z.eqb_refl. simpl.
    by eapply IH.
Qed.

(** An ASCII needle found in the decoded text is in the bytes. *)
Lemma count_sub_decoded m d input d' out :
  Forall ascii m -> m <> [] -> wf d ->
  process_queue d input = Some (d', out) ->
  (1 <= count_sub m out)%nat -> (1 <= count_sub m input)%nat.
Proof.
  intros Hm Hne. revert d out.
  induction input as [|b input IH]; intros d out Hd Hq Hc.
  - by simplify_eq/=.
  - simpl in Hq. pose proof (handler_wf d b Hd) as Hw.
    destruct (utf8_handler d b) as [d1|d1 cp|] eqn:Eh; [| |done].
    + etrans; [|apply count_sub_cons_ge]. eapply IH; [|done..]. by right.
    + destruct Hw as [-> _].
      destruct (process_queue utf8_decoder_new input) as [[d2 o2]|] eqn:E;
        [|done].
      injection Hq as -> <-.
      cbn [count_sub] in Hc |- *.
      destruct (starts_with m (cp :: o2)) eqn:Es.
      * assert (starts_with m (b :: input) = true) as ->; [|lia].
        destruct m as [|x m]; [done|].
        apply Forall_cons in Hm as [Hx Hm].
        simpl in Es. apply andb_true_iff in Es as [Hc' Es].
        apply Z.eqb_eq in Hc' as <-.
        assert (d = utf8_decoder_new /\ b = x) as [-> ->].
        { destruct Hd as [->|Hp].
          - pose proof (handler_new_cases b) as Hh. rewrite Eh in Hh.
            by destruct Hh as (_ & -> & _).
          - pose proof (handler_pending_cases d b Hp) as Hh.
            rewrite Eh in Hh. unfold ascii in Hx. lia. }
        simpl. rewrite Z.eqb_refl. simpl.
        by eapply starts_with_ascii_inv.
      * assert (1 <= count_sub m input)%nat; [|lia].
        eapply IH; [apply wf_new|done|lia].
Qed.

Lemma serialize_app seen o1 o2 :
  serialize seen (o1 ++ o2) =
    let '(s1, t1) := serialize seen o1 in
    let '(s2, t2) := serialize s1 o2 in (s2, t1 ++ t2).
Proof.
  destruct seen; simpl; [done|].
  destruct o1 as [|x o1]; simpl.
  - by destruct o2.
  - by destruct (x =? 65279).
Qed.

Lemma decode_stream_app td a b :
  decode_stream td (a ++ b) =
    match decode_stream td a with
    | Some (td1, t1) =>
        match decode_stream td1 b with
        | Some (td2, t2) => Some (td2, t1 ++ t2)
        | None => None
        end
    | None => None
    end.
Proof.
  unfold decode_stream. rewrite process_queue_app.
  destruct (process_queue (decoder td) a) as [[d1 o1]|]; [|done].
  destruct (serialize (BOM_seen td) o1) as [s1 t1] eqn:E1. simpl.
  destruct (process_queue d1 b) as [[d2 o2]|]; [|done].
  rewrite serialize_app, E1.
  by destruct (serialize s1 o2).
Qed.

Lemma decode_stream_nil td : decode_stream td [] = Some (td, []).
Proof. destruct td as [d []]; done. Qed.

Lemma decode_stream_wf td value td' text :
  wf (decoder td) -> decode_stream td value = Some (td', text) ->
  wf (decoder td').
Proof.
  unfold decode_stream. intros Hd.
  destruct (process_queue (decoder td) value) as [[d1 o1]|] eqn:E; [|done].
  destruct (serialize (BOM_seen td) o1). intros [= <- _]. simpl.
  by destruct (process_queue_wf _ _ _ _ Hd E).
Qed.

(** The text is the decoder's output, less a leading byte order mark. *)
Lemma serialize_suffix seen out :
  snd (serialize seen out) = out \/
  exists x, out = x :: snd (serialize seen out) /\ x = 65279.
Proof.
  destruct seen; simpl; [by left|].
  destruct out as [|x out]; simpl; [by left|].
  destruct (x =? 65279) eqn:E; [right|by left].
  exists x. split; [done|lia].
Qed.

(** A needle of ASCII characters found in a chunk's text is in the chunk's
    bytes. *)
Lemma count_sub_text_bytes m td value td' text :
  Forall ascii m -> m <> [] -> wf (decoder td) ->
  decode_stream td value = Some (td', text) ->
  (1 <= count_sub m text)%nat -> (1 <= count_sub m value)%nat.
Proof.
  unfold decode_stream. intros Hm Hne Hd.
  destruct (process_queue (decoder td) value) as [[d1 o1]|] eqn:E; [|done].
  destruct (serialize (BOM_seen td) o1) as [s1 t1] eqn:Es.
  intros [= <- <-] Hc. eapply count_sub_decoded; [done..|].
  destruct (serialize_suffix (BOM_seen td) o1) as [H|(x & H & _)];
    rewrite Es in H; simpl in H.
  - by rewrite <- H.
  - rewrite H. etrans; [exact Hc|]. apply count_sub_cons_ge.
Qed.

(** A needle of ASCII bytes inside a chunk that decodes is in the chunk's
    text. *)
Lemma count_sub_bytes_text m td value td' text :
  Forall ascii m -> m <> [] -> wf (decoder td) ->
  decode_stream td value = Some (td', text) ->
  (1 <= count_sub m value)%nat -> (1 <= count_sub m text)%nat.
Proof.
  intros Hm Hne Hd Hdec Hc.
  apply count_sub_pos_occ in Hc as (a & b & ->).
  unfold decode_stream in Hdec. rewrite process_queue_app in Hdec.
  destruct (process_queue (decoder td) a) as [[d1 o1]|] eqn:E1; [|done].
  destruct (process_queue d1 (m ++ b)) as [[d2 o2]|] eqn:E2; [|done].
  destruct (process_queue_wf _ _ _ _ Hd E1) as [Hd1 _].
  destruct (process_queue_ascii _ _ _ _ _ Hd1 Hm Hne E2)
    as (-> & o3 & -> & _).
  destruct (serialize (BOM_seen td) (o1 ++ m ++ o3)) as [s1 t1] eqn:Es.
  injection Hdec as _ <-.
  destruct (serialize_suffix (BOM_seen td) (o1 ++ m ++ o3)) as [H|(x & H & Hx)];
    rewrite Es in H; simpl in H.
  - rewrite H. by apply count_sub_occ.
  - destruct o1 as [|y o1].
    + destruct m as [|y m]; [done|]. apply Forall_cons in Hm as [Hy _].
      unfold ascii in Hy. injection H as <- _. lia.
    + injection H as _ <-. by apply count_sub_occ.
Qed.

End Queue.

(** ** Encoding and decoding again *)

Section Roundtrip.

Lemma lor128 x : 0 <= x < 64 -> Z.lor 128 x = 128 + x.
Proof. intros. change 128 with (2 * 2 ^ 6). by rewrite lor_add by lia. Qed.

Lemma lor192 x : 0 <= x < 64 -> Z.lor 192 x = 192 + x.
Proof. intros. change 192 with (3 * 2 ^ 6). by rewrite lor_add by lia. Qed.

Lemma lor224 x : 0 <= x < 32 -> Z.lor 224 x = 224 + x.
Proof. intros. change 224 with (7 * 2 ^ 5). by rewrite lor_add by lia. Qed.

Lemma lor240 x : 0 <= x < 16 -> Z.lor 240 x = 240 + x.
Proof. intros. change 240 with (15 * 2 ^ 4). by rewrite lor_add by lia. Qed.

Lemma land63_mod x : Z.land x 63 = x mod 64.
Proof. change 63 with (2 ^ 6 - 1). by rewrite land_mod by lia. Qed.

Lemma tail128 x : Z.lor 128 (Z.land x 63) = 128 + x mod 64.
Proof.
  rewrite land63_mod. apply lor128. Z.div_mod_to_equations; lia.
Qed.

(** The bytes of one scalar value, in arithmetic. *)
Lemma utf8_encode_cp_eq cp :
  0 <= cp <= 1114111 ->
  utf8_encode_cp cp =
    if cp <=? 127 then [cp]
    else if cp <=? 2047 then [192 + cp / 64; 128 + cp mod 64]
    else if cp <=? 65535 then
      [224 + cp / 4096; 128 + (cp / 64) mod 64; 128 + cp mod 64]
    else [240 + cp / 262144; 128 + (cp / 4096) mod 64;
          128 + (cp / 64) mod 64; 128 + cp mod 64].
Proof.
  intros H. unfold utf8_encode_cp. rewrite !tail128.
  rewrite !Z.shiftr_div_pow2 by lia.
  change (2 ^ 6) with 64. change (2 ^ 12) with 4096.
  change (2 ^ 18) with 262144.
  destruct (cp <=? 127) eqn:E1; [done|].
  destruct (cp <=? 2047) eqn:E2.
  { rewrite lor192; [done|]. Z.div_mod_to_equations; lia. }
  destruct (cp <=? 65535) eqn:E3.
  { rewrite lor224; [done|]. Z.div_mod_to_equations; lia. }
  rewrite lor240; [done|]. Z.div_mod_to_equations; lia.
Qed.

Lemma handler_continuation_eq cp s n lo hi b :
  n <> 0 -> lo <= b <= hi -> 128 <= b <= 191 ->
  utf8_handler {| code_point := cp; bytes_seen := s; bytes_needed := n;
                  lower_boundary := lo; upper_boundary := hi |} b =
    if s + 1 =? n then CodePoint utf8_decoder_new (cp * 64 + (b - 128))
    else Continue {| code_point := cp * 64 + (b - 128); bytes_seen := s + 1;
                     bytes_needed := n;
                     lower_boundary := 128; upper_boundary := 191 |}.
Proof.
  intros Hn Hr Hb. rewrite handler_continuation by done.
  cbn [lower_boundary upper_boundary code_point bytes_seen bytes_needed].
  unfold in_range.
  assert ((lo <=? b) && (b <=? hi) = true) as -> by lia.
  cbn [negb]. cbv zeta. by rewrite lor_continuation by done.
Qed.

Lemma process_queue_continuation cp s n lo hi b rest :
  n <> 0 -> lo <= b <= hi -> 128 <= b <= 191 ->
  process_queue {| code_point := cp; bytes_seen := s; bytes_needed := n;
                   lower_boundary := lo; upper_boundary := hi |} (b :: rest) =
    if s + 1 =? n then
      match process_queue utf8_decoder_new rest with
      | Some (d, out) => Some (d, cp * 64 + (b - 128) :: out)
      | None => None
      end
    else
      process_queue {| code_point := cp * 64 + (b - 128); bytes_seen := s + 1;
                       bytes_needed := n;
                       lower_boundary := 128; upper_boundary := 191 |} rest.
Proof.
  intros. cbn [process_queue]. rewrite handler_continuation_eq by done.
  by destruct (s + 1 =? n).
Qed.

Lemma process_queue_cons d b rest :
  process_queue d (b :: rest) =
    match utf8_handler d b with
    | DecodeError => None
    | Continue d' => process_queue d' rest
    | CodePoint d' cp =>
        match process_queue d' rest with
        | Some (d'', out) => Some (d'', cp :: out)
        | None => None
        end
    end.
Proof. done. Qed.

Ltac zdiv := Z.div_mod_to_equations; lia.

Lemma process_queue_encode_cp cp rest :
  scalar cp = true ->
  process_queue utf8_decoder_new (utf8_encode_cp cp ++ rest) =
    match process_queue utf8_decoder_new rest with
    | Some (d, out) => Some (d, cp :: out)
    | None => None
    end.
Proof.
  unfold scalar, in_range. intros Hs.
  assert (0 <= cp <= 1114111 /\ ~ (55296 <= cp <= 57343)) as [Hr Hsur] by lia.
  rewrite utf8_encode_cp_eq by done.
  destruct (cp <=? 127) eqn:E1.
  { cbn [app process_queue]. by rewrite handler_new_ascii by lia. }
  destruct (cp <=? 2047) eqn:E2.
  { cbn [app]. rewrite process_queue_cons, handler_new_lead2 by zdiv.
    rewrite process_queue_continuation by zdiv.
    change (0 + 1 =? 1) with true. cbv iota.
    by replace ((192 + cp / 64 - 192) * 64 + (128 + cp mod 64 - 128))
      with cp by zdiv. }
  destruct (cp <=? 65535) eqn:E3.
  { cbn [app]. rewrite process_queue_cons, handler_new_lead3 by zdiv.
    assert (224 + cp / 4096 <= 239) by zdiv.
    destruct (224 + cp / 4096 =? 224) eqn:Ea, (224 + cp / 4096 =? 237) eqn:Eb;
      rewrite process_queue_continuation by zdiv;
      change (0 + 1 =? 2) with false; cbv iota; change (0 + 1) with 1;
      rewrite process_queue_continuation by zdiv;
      change (1 + 1 =? 2) with true; cbv iota;
      match goal with
      | |- context [Some (_, ?x :: _)] => replace x with cp by zdiv
      end; done. }
  cbn [app]. rewrite process_queue_cons, handler_new_lead4 by zdiv.
  destruct (240 + cp / 262144 =? 240) eqn:Ea, (240 + cp / 262144 =? 244) eqn:Eb;
    rewrite process_queue_continuation by zdiv;
    change (0 + 1 =? 3) with false; cbv iota; change (0 + 1) with 1;
    rewrite process_queue_continuation by zdiv;
    change (1 + 1 =? 3) with false; cbv iota; change (1 + 1) with 2;
    rewrite process_queue_continuation by zdiv;
    change (2 + 1 =? 3) with true; cbv iota;
    match goal with
    | |- context [Some (_, ?x :: _)] => replace x with cp by zdiv
    end; done.
Qed.

(** Decoding what was encoded gives the text back. *)
Lemma process_queue_encode text :
  Forall (fun c => scalar c = true) text ->
  process_queue utf8_decoder_new (encode text) = Some (utf8_decoder_new, text).
Proof.
  induction 1 as [|cp text Hcp _ IH]; [done|].
  change (encode (cp :: text)) with (utf8_encode_cp cp ++ encode text).
  by rewrite process_queue_encode_cp, IH.
Qed.

End Roundtrip.

(** ** The loop when nothing around the worker fails *)

Arguments chunkContainsInvalidCharset : simpl never.
Arguments decode_stream : simpl never.
Arguments encode : simpl never.
Arguments indexOf : simpl never.
Arguments TAG_MANAGER : simpl never.
Arguments HEAD_END : simpl never.

(** Unfold the field updates of a [Stream]. *)
Ltac stream_fields :=
  unfold set_content, log, count_injection, set_firstChunk, set_td,
    set_unsupportedCharset;
  cbn [td firstChunk unsupportedCharset content sink injections].

Section Ideal.

Lemma loop_body_ideal i value s :
  loop_body ideal i value s = loop_body ideal 0 value s.
Proof. reflexivity. Qed.

Lemma length_zero_nil (l : jsstring) : (length l =? 0)%nat = true -> l = [].
Proof. destruct l; [done|]. simpl. lia. Qed.

Lemma search_splice_ideal i chunk s :
  search_splice ideal i chunk s =
    Normal {| td := td s; firstChunk := firstChunk s;
              unsupportedCharset := unsupportedCharset s;
              content := inject chunk; sink := sink s;
              injections :=
                (injections s + (if has_marker chunk then 1 else 0))%nat |}.
Proof.
  unfold search_splice, inject, spliced, has_marker.
  cbn [scan_fault ideal set_content content].
  destruct (indexOf chunk HEAD_END >? -1); stream_fields; f_equal; f_equal; lia.
Qed.

Lemma flush_content_ideal s :
  flush_content ideal s =
    Normal {| td := td s; firstChunk := firstChunk s;
              unsupportedCharset := unsupportedCharset s;
              content := []; sink := sink s ++ map Write (emitted (content s));
              injections := injections s |}.
Proof.
  unfold flush_content, emitted.
  destruct (negb (length (content s) =? 0)%nat) eqn:El; cbn.
  - done.
  - apply negb_false_iff, length_zero_nil in El.
    rewrite app_nil_r, <- El. by destruct s.
Qed.

Lemma step_cases s value :
  step s value =
    if unsupportedCharset s then log (Write value) s
    else
      match decode_stream (td s) value with
      | None => log (Write value) (set_unsupportedCharset true s)
      | Some (td', chunk) =>
          if firstChunk s && chunkContainsInvalidCharset chunk then
            log (Write value)
              (set_unsupportedCharset true
                 (set_firstChunk false (set_td td' s)))
          else
            {| td := td'; firstChunk := false; unsupportedCharset := false;
               content := [];
               sink := sink s ++ map Write (emitted (inject chunk));
               injections :=
                 (injections s + (if has_marker chunk then 1 else 0))%nat |}
      end.
Proof.
  unfold step, loop_body.
  destruct (unsupportedCharset s) eqn:Eu; [done|].
  destruct (decode_stream (td s) value) as [[td' chunk]|]; [|done].
  unfold scan_try, sniff. cbn [firstChunk set_td scan_fault ideal].
  destruct (firstChunk s) eqn:Ef; cbn [andb].
  - destruct (chunkContainsInvalidCharset chunk); [done|].
    rewrite search_splice_ideal, flush_content_ideal. stream_fields.
    by rewrite Eu.
  - rewrite search_splice_ideal, flush_content_ideal. stream_fields.
    by rewrite Eu, Ef.
Qed.

Lemma loop_body_ideal_step i value s :
  loop_body ideal i value s = Normal (step s value) \/
  loop_body ideal i value s = ContinueLoop (step s value).
Proof.
  unfold step. rewrite (loop_body_ideal i).
  assert (forall c, (exists s', c = Throw s') \/
                    c = Normal (state_of c) \/ c = ContinueLoop (state_of c))
    as Hc by (intros [s'|s'|s']; eauto).
  destruct (Hc (loop_body ideal 0 value s)) as [[s' Ht]|H]; [|done].
  exfalso. revert Ht. unfold loop_body.
  destruct (unsupportedCharset s); [done|].
  destruct (decode_stream (td s) value) as [[td' chunk]|]; [|done].
  unfold scan_try, sniff. cbn [scan_fault ideal].
  destruct (firstChunk (set_td td' s)).
  - destruct (chunkContainsInvalidCharset chunk); [done|].
    by rewrite search_splice_ideal, flush_content_ideal.
  - by rewrite search_splice_ideal, flush_content_ideal.
Qed.

Lemma read_loop_ideal i chunks s :
  read_loop ideal i (map ReadChunk chunks) s = Normal (foldl step s chunks).
Proof.
  revert i s. induction chunks as [|c chunks IH]; intros i s; [done|].
  simpl. destruct (loop_body_ideal_step i c s) as [->| ->]; apply IH.
Qed.

Lemma run_eq chunks : run chunks = log Close (foldl step Stream_new chunks).
Proof.
  unfold run, modifyHtmlStream. by rewrite read_loop_ideal.
Qed.

Lemma written_app l1 l2 : written (l1 ++ l2) = written l1 ++ written l2.
Proof.
  induction l1 as [|e l1 IH]; [done|]. destruct e; simpl; by rewrite ?IH.
Qed.

Lemma written_Write l : written (map Write l) = l.
Proof. induction l as [|v l IH]; [done|]. simpl. by rewrite IH. Qed.

Lemma output_eq chunks :
  output chunks = written (sink (foldl step Stream_new chunks)).
Proof.
  unfold output. rewrite run_eq. cbn [log sink].
  by rewrite written_app, app_nil_r.
Qed.

(** In passthrough mode every chunk is written as it came. *)
Lemma steps_passthrough s chunks :
  unsupportedCharset s = true ->
  foldl step s chunks =
    {| td := td s; firstChunk := firstChunk s; unsupportedCharset := true;
       content := content s; sink := sink s ++ map Write chunks;
       injections := injections s |}.
Proof.
  revert s. induction chunks as [|c chunks IH]; intros s Hu.
  - simpl. rewrite app_nil_r, <- Hu. by destruct s.
  - simpl. rewrite step_cases, Hu. rewrite IH by done. stream_fields.
    by rewrite <- app_assoc.
Qed.

(** The decoder stays in a reachable state. *)
Lemma step_wf s value :
  wf (decoder (td s)) -> wf (decoder (td (step s value))).
Proof.
  intros Hw. rewrite step_cases.
  destruct (unsupportedCharset s); [done|].
  destruct (decode_stream (td s) value) as [[td' chunk]|] eqn:E; [|done].
  apply decode_stream_wf in E; [|done].
  by destruct (firstChunk s && chunkContainsInvalidCharset chunk).
Qed.

Lemma steps_wf s chunks :
  wf (decoder (td s)) -> wf (decoder (td (foldl step s chunks))).
Proof.
  revert s. induction chunks as [|c chunks IH]; intros s Hw; [done|].
  simpl. by apply IH, step_wf.
Qed.

Lemma HEAD_END_ascii : Forall ascii HEAD_END.
Proof. repeat constructor; unfold ascii; simpl; lia. Qed.

Lemma HEAD_END_nonempty : HEAD_END <> [].
Proof. done. Qed.

Lemma encode_HEAD_END : encode HEAD_END = HEAD_END.
Proof. reflexivity. Qed.

Lemma has_marker_count chunk :
  has_marker chunk = true <-> (1 <= count_sub HEAD_END chunk)%nat.
Proof. apply (found_iff_count HEAD_END TAG_MANAGER HEAD_END_nonempty). Qed.

(** One turn of the loop splices at most once, and only into a chunk that
    holds the marker. *)
Lemma step_injections s value :
  wf (decoder (td s)) ->
  (injections s <= injections (step s value)
   <= injections s + (if holds_marker value then 1 else 0))%nat.
Proof.
  intros Hw. rewrite step_cases.
  destruct (unsupportedCharset s); [simpl; lia|].
  destruct (decode_stream (td s) value) as [[td' chunk]|] eqn:E;
    [|simpl; lia].
  destruct (firstChunk s && chunkContainsInvalidCharset chunk); [simpl; lia|].
  cbn [injections]. destruct (has_marker chunk) eqn:Em; [|lia].
  apply has_marker_count in Em.
  apply (count_sub_text_bytes _ _ _ _ _ HEAD_END_ascii HEAD_END_nonempty Hw E)
    in Em.
  unfold holds_marker. rewrite encode_HEAD_END.
  destruct (Nat.ltb_spec 0 (count_sub HEAD_END value)); lia.
Qed.

Lemma steps_injections s chunks :
  wf (decoder (td s)) ->
  (injections (foldl step s chunks)
   <= injections s + length (filter (fun c => holds_marker c = true) chunks))%nat.
Proof.
  revert s. induction chunks as [|c chunks IH]; intros s Hw; [simpl; lia|].
  simpl. etrans; [apply IH, step_wf, Hw|].
  pose proof (step_injections s c Hw).
  destruct (holds_marker c) eqn:Eh.
  - rewrite filter_cons_True by done. simpl. lia.
  - rewrite filter_cons_False by (by rewrite Eh). lia.
Qed.

Lemma chunk_texts_concat d chunks d' text :
  decode_stream d (concat chunks) = Some (d', text) ->
  exists ts, chunk_texts d chunks = Some (d', ts) /\ concat ts = text.
Proof.
  revert d text. induction chunks as [|c chunks IH]; intros d text; simpl.
  - rewrite decode_stream_nil. intros [= <- <-]. by exists [].
  - rewrite decode_stream_app.
    destruct (decode_stream d c) as [[d1 t1]|]; [|done].
    destruct (decode_stream d1 (concat chunks)) as [[d2 t2]|] eqn:E; [|done].
    intros [= <- <-]. destruct (IH _ _ E) as (ts & -> & <-).
    by exists (t1 :: ts).
Qed.

Lemma chunk_texts_marker d chunks d' ts c :
  wf (decoder d) -> chunk_texts d chunks = Some (d', ts) ->
  c ∈ chunks -> (1 <= count_sub HEAD_END c)%nat ->
  exists t, t ∈ ts /\ (1 <= count_sub HEAD_END t)%nat.
Proof.
  revert d ts. induction chunks as [|x chunks IH]; intros d ts Hw Ht Hc Hm.
  - by apply elem_of_nil in Hc.
  - simpl in Ht. destruct (decode_stream d x) as [[d1 t1]|] eqn:E; [|done].
    destruct (chunk_texts d1 chunks) as [[d2 ts']|] eqn:E'; [|done].
    injection Ht as <- <-.
    apply elem_of_cons in Hc as [->|Hc].
    + exists t1. split; [by left|].
      by eapply (count_sub_bytes_text _ _ _ _ _ HEAD_END_ascii).
    + destruct (IH d1 ts') as (t & Ht & Hct); [|done..|].
      * by eapply decode_stream_wf.
      * exists t. split; [by right|done].
Qed.

Lemma steps_scanning s chunks d' ts :
  unsupportedCharset s = false -> firstChunk s = false -> content s = [] ->
  chunk_texts (td s) chunks = Some (d', ts) ->
  foldl step s chunks =
    {| td := d'; firstChunk := false; unsupportedCharset := false;
       content := [];
       sink := sink s ++ map Write (flat_map (fun t => emitted (inject t)) ts);
       injections :=
         (injections s + length (filter (fun t => has_marker t = true) ts))%nat
    |}.
Proof.
  revert s ts. induction chunks as [|c chunks IH]; intros s ts Hu Hf Hc; simpl.
  - intros [= <- <-]. destruct s; simpl in *; subst.
    by rewrite app_nil_r, Nat.add_0_r.
  - destruct (decode_stream (td s) c) as [[d1 t1]|] eqn:E; [|done].
    destruct (chunk_texts d1 chunks) as [[d2 ts']|] eqn:E'; [|done].
    intros [= <- <-]. rewrite step_cases, Hu, E, Hf. cbn [andb].
    erewrite IH; [|done..]. cbn [sink injections flat_map].
    rewrite map_app, <- app_assoc. f_equal.
    destruct (has_marker t1) eqn:Em.
    + rewrite filter_cons_True by done. simpl. lia.
    + rewrite filter_cons_False by (by rewrite Em). lia.
Qed.

Lemma run_scanning chunks d' ts :
  gate_ok chunks = true ->
  chunk_texts TextDecoder_new chunks = Some (d', ts) ->
  written (sink (foldl step Stream_new chunks))
    = flat_map (fun t => emitted (inject t)) ts /\
  injections (foldl step Stream_new chunks)
    = length (filter (fun t => has_marker t = true) ts) /\
  unsupportedCharset (foldl step Stream_new chunks) = false.
Proof.
  destruct chunks as [|c chunks]; simpl.
  - intros _ [= <- <-]. done.
  - destruct (decode_stream TextDecoder_new c) as [[d1 t1]|] eqn:E; [|done].
    destruct (chunk_texts d1 chunks) as [[d2 ts']|] eqn:E'; [|done].
    intros Hg [= <- <-]. apply negb_true_iff in Hg.
    rewrite step_cases. cbn [unsupportedCharset Stream_new td firstChunk].
    rewrite E, Hg. cbn [andb].
    erewrite steps_scanning; [|done..]. cbn [sink injections unsupportedCharset].
    change (sink Stream_new) with (@nil event).
    change (injections Stream_new) with 0%nat.
    rewrite app_nil_l, written_app, !written_Write.
    split; [done|]. split; [|done].
    destruct (has_marker t1) eqn:Em.
    + rewrite filter_cons_True by done. simpl. lia.
    + rewrite filter_cons_False by (by rewrite Em). lia.
Qed.

Lemma encode_app a b : encode (a ++ b) = encode a ++ encode b.
Proof. unfold encode. apply flat_map_app. Qed.

Lemma concat_emitted ts :
  concat (flat_map (fun t => emitted (inject t)) ts)
  = encode (concat (map inject ts)).
Proof.
  induction ts as [|t ts IH]; [done|]. simpl.
  rewrite concat_app, IH, encode_app. f_equal.
  unfold emitted. destruct (negb (length (inject t) =? 0)%nat) eqn:El; simpl.
  - by rewrite app_nil_r.
  - apply negb_false_iff, length_zero_nil in El. by rewrite El.
Qed.

Lemma sum_list_pos (f : bytes -> nat) (l : list bytes) :
  (1 <= sum_list (map f l))%nat -> exists c, c ∈ l /\ (1 <= f c)%nat.
Proof.
  induction l as [|x l IH]; simpl; [lia|]. intros H.
  destruct (decide (1 <= f x)%nat) as [Hx|Hx].
  - exists x. split; [by left|done].
  - destruct IH as (c & Hc & Hf); [lia|]. exists c. split; [by right|done].
Qed.

Lemma within_one_chunk_tail c chunks :
  within_one_chunk (c :: chunks) -> within_one_chunk chunks.
Proof.
  intros H pre post Hc.
  destruct (H (c ++ pre) post) as (cs1 & a & b & cs2 & Hs & Hp).
  { simpl. by rewrite Hc, <- app_assoc. }
  destruct cs1 as [|c1 cs1]; cbn [app concat] in Hs, Hp.
  - assert (c = a ++ encode HEAD_END ++ b) as -> by congruence.
    apply (f_equal length) in Hp.
    rewrite !length_app, encode_HEAD_END in Hp. simpl in Hp. lia.
  - assert (c1 = c) as -> by congruence.
    assert (chunks = cs1 ++ (a ++ encode HEAD_END ++ b) :: cs2) as ->
      by congruence.
    rewrite <- app_assoc in Hp.
    apply app_inv_head in Hp. by exists cs1, a, b, cs2.
Qed.

(** A delivery in which every occurrence of the marker lies inside one
    chunk is unsplit. *)
Lemma marker_unsplit_intro chunks :
  within_one_chunk chunks -> marker_unsplit chunks = true.
Proof.
  unfold marker_unsplit. intros H. apply Nat.eqb_eq.
  induction chunks as [|c chunks IH]; [done|].
  simpl. rewrite <- IH by by eapply within_one_chunk_tail.
  destruct (decide (count_sub (encode HEAD_END) (c ++ concat chunks)
                    = (count_sub (encode HEAD_END) c
                       + count_sub (encode HEAD_END) (concat chunks))%nat))
    as [He|Hne]; [done|].
  exfalso. apply count_sub_straddle in Hne as (pre & post & Hp & Hl).
  destruct (H pre post Hp) as (cs1 & a & b & cs2 & Hs & Hq).
  destruct cs1 as [|c1 cs1]; cbn [app concat] in Hs, Hq.
  - assert (c = a ++ encode HEAD_END ++ b) as -> by congruence.
    subst pre. rewrite !length_app in Hl. lia.
  - assert (c1 = c) as -> by congruence.
    subst pre. rewrite !length_app in Hl. lia.
Qed.

Lemma marker_unsplit_elim chunks :
  marker_unsplit chunks = true -> within_one_chunk chunks.
Proof.
  unfold marker_unsplit. rewrite Nat.eqb_eq, encode_HEAD_END.
  unfold within_one_chunk. rewrite encode_HEAD_END.
  induction chunks as [|c chunks IH]; intros He pre post Hp.
  { apply (f_equal length) in Hp. rewrite !length_app in Hp.
    simpl in Hp. lia. }
  cbn [concat] in He, Hp.
  change (sum_list (map (count_sub HEAD_END) (c :: chunks)))
    with (count_sub HEAD_END c + sum_list (map (count_sub HEAD_END) chunks))%nat
    in He.
  pose proof (count_sub_concat_ge HEAD_END chunks) as H1.
  pose proof (count_sub_app_ge HEAD_END c (concat chunks)) as H2.
  assert (forall pre', concat chunks = pre' ++ HEAD_END ++ post ->
            exists cs1 a b cs2,
              c :: chunks = cs1 ++ (a ++ HEAD_END ++ b) :: cs2 /\
              c ++ pre' = concat cs1 ++ a) as Hrest.
  { intros pre' Hp'.
    destruct (IH ltac:(lia) pre' post Hp')
      as (cs1 & a & b & cs2 & -> & ->).
    exists (c :: cs1), a, b, cs2. split; [done|].
    cbn [concat]. by rewrite app_assoc. }
  rewrite (app_assoc pre) in Hp.
  apply app_eq_inv in Hp as [(k & Hc & _)|(k & Hk & Hr)].
  { exists [], pre, k, chunks. split; [|done].
    cbn [app]. by rewrite Hc, <- !app_assoc. }
  apply app_eq_inv in Hk as [(k' & -> & ->)|(k' & -> & Hm)].
  { apply Hrest. by rewrite Hr, <- app_assoc. }
  destruct k as [|z k].
  { exists [], pre, [], chunks. split; [|done].
    cbn [app]. rewrite app_nil_r in Hm. by rewrite Hm, app_nil_r. }
  destruct k' as [|z' k'].
  { cbn [app] in Hm. rewrite app_nil_r in *.
    destruct (Hrest []) as (cs1 & a & b & cs2 & H3 & H4);
      [by rewrite Hr, Hm|].
    rewrite app_nil_r in H4. by exists cs1, a, b, cs2. }
  exfalso.
  assert ((pre ++ z' :: k') ++ concat chunks = pre ++ HEAD_END ++ post) as P1
    by by rewrite Hr, Hm, <- !app_assoc.
  assert (length pre < length (pre ++ z' :: k')
          < length pre + length HEAD_END)%nat as P2.
  { apply (f_equal length) in Hm. rewrite length_app in Hm |- *.
    simpl in Hm |- *. lia. }
  pose proof (count_sub_straddle_gt HEAD_END (pre ++ z' :: k') (concat chunks)
                pre post P1 P2) as Hgt.
  lia.
Qed.

Lemma filter_marker_le ts :
  (length (filter (fun t => has_marker t = true) ts)
   <= sum_list (map (count_sub HEAD_END) ts))%nat.
Proof.
  induction ts as [|t ts IH]; [done|]. simpl.
  destruct (has_marker t) eqn:Em.
  - rewrite filter_cons_True by done. apply has_marker_count in Em. simpl. lia.
  - rewrite filter_cons_False by (by rewrite Em). lia.
Qed.

Lemma filter_marker_ge ts t :
  t ∈ ts -> (1 <= count_sub HEAD_END t)%nat ->
  (1 <= length (filter (fun t => has_marker t = true) ts))%nat.
Proof.
  intros Ht Hc. apply has_marker_count in Hc.
  assert (t ∈ filter (fun t => has_marker t = true) ts) as Hin
    by by apply list_elem_of_filter.
  destruct (filter _ ts); [by apply elem_of_nil in Hin|simpl; lia].
Qed.

Lemma wf_TextDecoder_new : wf (decoder TextDecoder_new).
Proof. apply wf_new. Qed.

(** The whole stream, when every chunk decodes, the gate lets the first
    chunk through, and the marker occurs at most once and unsplit. *)
Lemma scan_whole chunks d' text :
  decode_stream TextDecoder_new (concat chunks) = Some (d', text) ->
  gate_ok chunks = true ->
  (count_sub HEAD_END text <= 1)%nat ->
  marker_unsplit chunks = true ->
  concat (output chunks) = encode (inject text) /\
  injections (run chunks) = count_sub HEAD_END text /\
  unsupportedCharset (run chunks) = false.
Proof.
  intros Hdec Hg Hc Hu.
  destruct (chunk_texts_concat _ _ _ _ Hdec) as (ts & Hts & <-).
  destruct (run_scanning _ _ _ Hg Hts) as (Hw & Hi & Hp).
  assert (count_sub HEAD_END (concat ts) = 1%nat ->
          exists t, t ∈ ts /\ (1 <= count_sub HEAD_END t)%nat) as Hocc.
  { intros H1.
    assert (1 <= count_sub HEAD_END (concat chunks))%nat as Hb.
    { eapply (count_sub_text_bytes _ _ _ _ _ HEAD_END_ascii);
        [done|apply wf_TextDecoder_new|exact Hdec|lia]. }
    unfold marker_unsplit in Hu. rewrite encode_HEAD_END in Hu.
    apply Nat.eqb_eq in Hu. rewrite Hu in Hb.
    apply sum_list_pos in Hb as (c & Hcin & Hcm).
    eapply chunk_texts_marker; [apply wf_TextDecoder_new|done..]. }
  rewrite output_eq, run_eq, Hw, concat_emitted. cbn [log injections unsupportedCharset].
  split; [|split; [|done]].
  - f_equal. unfold inject.
    rewrite (spliced_splice HEAD_END TAG_MANAGER HEAD_END_nonempty).
    rewrite <- (splice_chunks HEAD_END TAG_MANAGER HEAD_END_nonempty) by done.
    f_equal. apply map_ext. intros t.
    apply (spliced_splice HEAD_END TAG_MANAGER HEAD_END_nonempty).
  - rewrite Hi. pose proof (filter_marker_le ts).
    pose proof (count_sub_concat_ge HEAD_END ts).
    destruct (decide (count_sub HEAD_END (concat ts) = 1%nat)) as [H1|H1]; [|lia].
    destruct (Hocc H1) as (t & Ht & Hm).
    pose proof (filter_marker_ge ts t Ht Hm). lia.
Qed.

Lemma run_td chunks : td (run chunks) = td (foldl step Stream_new chunks).
Proof. by rewrite run_eq. Qed.

Lemma run_unsupportedCharset chunks :
  unsupportedCharset (run chunks)
  = unsupportedCharset (foldl step Stream_new chunks).
Proof. by rewrite run_eq. Qed.

Lemma run_injections chunks :
  injections (run chunks) = injections (foldl step Stream_new chunks).
Proof. by rewrite run_eq. Qed.

Lemma run_wf chunks : wf (decoder (td (run chunks))).
Proof. rewrite run_td. apply steps_wf, wf_TextDecoder_new. Qed.

(** Once in passthrough mode, the rest of the stream is written as it
    came. *)
Lemma passthrough_rest s c chunks :
  unsupportedCharset (step s c) = true ->
  sink (step s c) = sink s ++ [Write c] ->
  written (sink (foldl step s (c :: chunks)))
  = written (sink s) ++ c :: chunks /\
  injections (foldl step s (c :: chunks)) = injections (step s c).
Proof.
  intros Hu Hs. simpl. rewrite steps_passthrough by done.
  cbn [sink injections]. rewrite Hs, !written_app, written_Write. simpl.
  by rewrite <- app_assoc.
Qed.

(** A chunk whose decode fails, and all that follows it. *)
Lemma decode_failure_rest (cs1 : list bytes) (c : bytes) (cs2 : list bytes) :
  decode_stream (td (run cs1)) c = None ->
  output (cs1 ++ c :: cs2) = output cs1 ++ c :: cs2 /\
  unsupportedCharset (run (cs1 ++ c :: cs2)) = true /\
  injections (run (cs1 ++ c :: cs2)) = injections (run cs1).
Proof.
  rewrite run_td, !output_eq, run_unsupportedCharset, !run_injections.
  rewrite foldl_app. set (s := foldl step Stream_new cs1). intros Hd.
  assert (unsupportedCharset (step s c) = true /\
          sink (step s c) = sink s ++ [Write c] /\
          injections (step s c) = injections s) as (Hu & Hs & Hi).
  { rewrite step_cases. destruct (unsupportedCharset s) eqn:E; [done|].
    by rewrite Hd. }
  destruct (passthrough_rest s c cs2 Hu Hs) as [-> ->].
  split; [done|]. split; [|done].
  simpl. by rewrite steps_passthrough.
Qed.

(** The text a decoder hands out is made of scalar values. *)
Lemma decode_stream_scalar d value d' text :
  wf (decoder d) -> decode_stream d value = Some (d', text) ->
  Forall (fun c => scalar c = true) text.
Proof.
  unfold decode_stream. intros Hw.
  destruct (process_queue (decoder d) value) as [[d1 o1]|] eqn:E; [|done].
  destruct (process_queue_wf _ _ _ _ Hw E) as [_ Hs].
  destruct (serialize (BOM_seen d) o1) as [s1 t1] eqn:Es. intros [= _ <-].
  destruct (serialize_suffix (BOM_seen d) o1) as [H|(x & H & _)];
    rewrite Es in H; simpl in H.
  - by rewrite H.
  - rewrite H in Hs. by apply Forall_cons in Hs as [_ ?].
Qed.

Lemma scalar_forallb text :
  forallb scalar text = true -> Forall (fun c => scalar c = true) text.
Proof. rewrite forallb_forall, Forall_forall. intros H x Hx. apply H. by apply list_elem_of_In. Qed.

Lemma TAG_MANAGER_scalar : Forall (fun c => scalar c = true) TAG_MANAGER.
Proof. apply scalar_forallb. vm_compute. reflexivity. Qed.

Lemma TAG_MANAGER_unbordered : unbordered TAG_MANAGER = true.
Proof. vm_compute. reflexivity. Qed.

(** A pending sequence at the end of a chunk adds nothing to its text. *)
Lemma decode_stream_partial d c p dp :
  wf (decoder d) ->
  process_queue utf8_decoder_new p = Some (dp, []) -> bytes_needed dp <> 0 ->
  decode_stream d (c ++ p) =
    match decode_stream d c with
    | Some (d1, t) =>
        if bytes_needed (decoder d1) =? 0
        then Some ({| decoder := dp; BOM_seen := BOM_seen d1 |}, t)
        else None
    | None => None
    end.
Proof.
  intros Hw Hp Hn. rewrite decode_stream_app.
  destruct (decode_stream d c) as [[d1 t1]|] eqn:E; [|done].
  pose proof (decode_stream_wf _ _ _ _ Hw E) as Hw1.
  unfold decode_stream at 1.
  destruct Hw1 as [Hnew|Hpend].
  - rewrite Hnew, Hp. simpl.
    destruct (BOM_seen d1); simpl; by rewrite app_nil_r.
  - pose proof (pending_needed _ Hpend).
    destruct (bytes_needed (decoder d1) =? 0) eqn:E0; [lia|].
    destruct p as [|b p]; [by simplify_eq/=|].
    rewrite process_queue_cons in Hp |- *.
    pose proof (handler_new_cases b) as Hb.
    pose proof (handler_pending_cases (decoder d1) b Hpend) as Hb'.
    destruct (utf8_handler utf8_decoder_new b) as [d2|d2 cp|]; [| |done].
    + destruct (utf8_handler (decoder d1) b); [lia|lia|done].
    + by destruct (process_queue d2 p) as [[??]|].
Qed.

(** A byte of 128 or more between two ASCII bytes cannot be decoded. *)
Lemma process_queue_isolated d a l h l' b :
  wf d -> ascii l -> 128 <= h -> ascii l' ->
  process_queue d (a ++ [l; h; l'] ++ b) = None.
Proof.
  intros Hw Hl Hh Hl'. rewrite process_queue_app.
  destruct (process_queue d a) as [[d1 o1]|] eqn:E; [|done].
  destruct (process_queue_wf _ _ _ _ Hw E) as [Hw1 _].
  assert (process_queue d1 ([l; h; l'] ++ b) = None) as ->; [|done].
  cbn [app]. rewrite process_queue_cons, handler_ascii by done.
  destruct Hw1 as [->|Hp]; [|apply pending_needed in Hp;
    by destruct (bytes_needed d1 =? 0) eqn:?; [lia|]].
  cbn [bytes_needed utf8_decoder_new Z.eqb].
  assert (process_queue utf8_decoder_new (h :: l' :: b) = None) as ->; [|done].
  rewrite process_queue_cons.
  pose proof (handler_new_cases h) as Hc.
  destruct (utf8_handler utf8_decoder_new h) as [d2|d2 cp|]; [|lia|done].
  destruct Hc as [Hp _]. rewrite process_queue_cons.
  rewrite handler_ascii by (by right || done).
  apply pending_needed in Hp. by destruct (bytes_needed d2 =? 0) eqn:?; [lia|].
Qed.

Lemma decode_stream_isolated d a l h l' b :
  wf (decoder d) -> ascii l -> 128 <= h -> ascii l' ->
  decode_stream d (a ++ [l; h; l'] ++ b) = None.
Proof.
  intros. unfold decode_stream. by rewrite process_queue_isolated.
Qed.

End Ideal.

(** ** The loop in any surroundings *)

Section Faults.










End Faults.

(** ** Decoding and encoding again *)

Ltac zdivmod := Z.div_mod_to_equations; lia.

Section Reencode.

(** A pending sequence does not end without a scalar value coming out. *)
Lemma pending_quiet d input d' :
  pending d -> process_queue d input = Some (d', []) -> pending d'.
Proof.
  revert d. induction input as [|b input IH]; intros d Hp; simpl.
  - by intros [= <-].
  - pose proof (handler_pending_cases d b Hp) as Hh.
    destruct (utf8_handler d b) as [d1|d1 cp|]; [| |done].
    + apply IH. tauto.
    + by destruct (process_queue d1 input) as [[??]|].
Qed.

Lemma process_queue_quiet_new input :
  process_queue utf8_decoder_new input = Some (utf8_decoder_new, []) ->
  input = [].
Proof.
  destruct input as [|b input]; [done|]. rewrite process_queue_cons.
  pose proof (handler_new_cases b) as Hh.
  destruct (utf8_handler utf8_decoder_new b) as [d1|d1 cp|]; [| |done].
  - intros Hq. destruct Hh as [Hp _].
    apply (pending_quiet _ _ _ Hp), pending_needed in Hq. done.
  - by destruct (process_queue d1 input) as [[??]|].
Qed.

(** One continuation byte, when the decode goes on. *)
Lemma process_queue_step cp s n lo hi input d' out :
  n <> 0 -> 128 <= lo -> hi <= 191 ->
  process_queue {| code_point := cp; bytes_seen := s; bytes_needed := n;
                   lower_boundary := lo; upper_boundary := hi |} input
    = Some (d', out) ->
  out <> [] ->
  exists b rest,
    input = b :: rest /\ lo <= b <= hi /\
    (if s + 1 =? n then
       match process_queue utf8_decoder_new rest with
       | Some (d, o) => Some (d, cp * 64 + (b - 128) :: o)
       | None => None
       end
     else
       process_queue {| code_point := cp * 64 + (b - 128);
                        bytes_seen := s + 1; bytes_needed := n;
                        lower_boundary := 128; upper_boundary := 191 |} rest)
    = Some (d', out).
Proof.
  intros Hn Hlo Hhi Hq Hout.
  destruct input as [|b rest]; [by simplify_eq/=|].
  exists b, rest. split; [done|].
  destruct (decide (lo <= b <= hi)) as [Hb|Hb].
  - split; [done|]. by rewrite process_queue_continuation in Hq by lia.
  - exfalso. rewrite process_queue_cons, handler_continuation in Hq by done.
    cbn [lower_boundary upper_boundary] in Hq. unfold in_range in Hq.
    assert ((lo <=? b) && (b <=? hi) = false) as Hf by lia.
    by rewrite Hf in Hq.
Qed.

(** The bytes that produced the first scalar value are its encoding. *)
Lemma process_queue_first input d' c out :
  process_queue utf8_decoder_new input = Some (d', c :: out) ->
  exists rest,
    input = utf8_encode_cp c ++ rest /\
    process_queue utf8_decoder_new rest = Some (d', out).
Proof.
  destruct input as [|b input]; [done|]. rewrite process_queue_cons.
  destruct (decide (0 <= b <= 127)) as [H1|H1].
  { rewrite handler_new_ascii by done.
    destruct (process_queue utf8_decoder_new input) as [[d o]|] eqn:E; [|done].
    intros [= -> <- ->]. exists input. split; [|done].
    rewrite utf8_encode_cp_eq by lia.
    by assert ((b <=? 127) = true) as -> by lia. }
  destruct (decide (194 <= b <= 223)) as [H2|H2].
  { rewrite handler_new_lead2 by done. intros Hq.
    apply process_queue_step in Hq as (b2 & r2 & -> & Hb2 & Hq);
      [|done|lia|lia|done].
    change (0 + 1 =? 1) with true in Hq. cbv iota in Hq.
    destruct (process_queue utf8_decoder_new r2) as [[d o]|] eqn:E; [|done].
    injection Hq as -> <- ->. exists r2. split; [|done].
    rewrite utf8_encode_cp_eq by lia.
    assert (((b - 192) * 64 + (b2 - 128) <=? 127) = false) as -> by lia.
    assert (((b - 192) * 64 + (b2 - 128) <=? 2047) = true) as -> by lia.
    cbn [app]. f_equal; [zdivmod|]. f_equal. zdivmod. }
  destruct (decide (224 <= b <= 239)) as [H3|H3].
  { rewrite handler_new_lead3 by done. intros Hq.
    apply process_queue_step in Hq as (b2 & r2 & -> & Hb2 & Hq);
      [|done|by destruct (b =? 224)|by destruct (b =? 237)|done].
    change (0 + 1 =? 2) with false in Hq. cbv iota in Hq.
    change (0 + 1) with 1 in Hq.
    assert (128 <= b2 <= 191) as Hb2'
      by (destruct (b =? 224), (b =? 237); lia).
    apply process_queue_step in Hq as (b3 & r3 & -> & Hb3 & Hq);
      [|done|lia|lia|done].
    change (1 + 1 =? 2) with true in Hq. cbv iota in Hq.
    destruct (process_queue utf8_decoder_new r3) as [[d o]|] eqn:E; [|done].
    injection Hq as -> <- ->. exists r3. split; [|done].
    set (cp := ((b - 224) * 64 + (b2 - 128)) * 64 + (b3 - 128)).
    assert (2048 <= cp <= 65535) as Hcp
      by (subst cp; destruct (b =? 224) eqn:?; lia).
    rewrite utf8_encode_cp_eq by lia.
    assert ((cp <=? 127) = false) as -> by lia.
    assert ((cp <=? 2047) = false) as -> by lia.
    assert ((cp <=? 65535) = true) as -> by lia.
    subst cp. cbn [app]. f_equal; [zdivmod|]. f_equal; [zdivmod|]. f_equal. zdivmod. }
  destruct (decide (240 <= b <= 244)) as [H4|H4].
  { rewrite handler_new_lead4 by done. intros Hq.
    apply process_queue_step in Hq as (b2 & r2 & -> & Hb2 & Hq);
      [|done|by destruct (b =? 240)|by destruct (b =? 244)|done].
    change (0 + 1 =? 3) with false in Hq. cbv iota in Hq.
    change (0 + 1) with 1 in Hq.
    assert (128 <= b2 <= 191) as Hb2'
      by (destruct (b =? 240), (b =? 244); lia).
    apply process_queue_step in Hq as (b3 & r3 & -> & Hb3 & Hq);
      [|done|lia|lia|done].
    change (1 + 1 =? 3) with false in Hq. cbv iota in Hq.
    change (1 + 1) with 2 in Hq.
    apply process_queue_step in Hq as (b4 & r4 & -> & Hb4 & Hq);
      [|done|lia|lia|done].
    change (2 + 1 =? 3) with true in Hq. cbv iota in Hq.
    destruct (process_queue utf8_decoder_new r4) as [[d o]|] eqn:E; [|done].
    injection Hq as -> <- ->. exists r4. split; [|done].
    set (cp := (((b - 240) * 64 + (b2 - 128)) * 64 + (b3 - 128)) * 64
               + (b4 - 128)).
    assert (65536 <= cp <= 1114111) as Hcp
      by (subst cp; destruct (b =? 240) eqn:?, (b =? 244) eqn:?; lia).
    rewrite utf8_encode_cp_eq by lia.
    assert ((cp <=? 127) = false) as -> by lia.
    assert ((cp <=? 2047) = false) as -> by lia.
    assert ((cp <=? 65535) = false) as -> by lia.
    subst cp. cbn [app].
    f_equal; [zdivmod|]. f_equal; [zdivmod|]. f_equal; [zdivmod|]. f_equal. zdivmod. }
  by rewrite handler_new_error by lia.
Qed.

(** What was decoded is, encoded again, the input up to the bytes of an
    unfinished last sequence. *)
Lemma process_queue_reencode input d out :
  process_queue utf8_decoder_new input = Some (d, out) ->
  exists p,
    input = encode out ++ p /\
    process_queue utf8_decoder_new p = Some (d, []).
Proof.
  revert input. induction out as [|c out IH]; intros input Hq.
  - by exists input.
  - apply process_queue_first in Hq as (rest & -> & Hq).
    destruct (IH _ Hq) as (p & -> & Hp). exists p. split; [|done].
    change (encode (c :: out)) with (utf8_encode_cp c ++ encode out).
    by rewrite <- app_assoc.
Qed.

End Reencode.

(** ** The bytes of a decoded stream *)

Section Bytes.

Lemma starts_with_BOM input d out :
  starts_with BOM input = true ->
  process_queue utf8_decoder_new input = Some (d, out) ->
  exists out', out = 65279 :: out'.
Proof.
  intros Hs Hq. apply starts_with_spec in Hs as [rest ->].
  rewrite process_queue_app in Hq.
  change (process_queue utf8_decoder_new BOM)
    with (Some (utf8_decoder_new, [65279])) in Hq. cbv iota beta in Hq.
  destruct (process_queue utf8_decoder_new rest) as [[d2 o2]|]; [|done].
  injection Hq as _ <-. by exists o2.
Qed.

(** The input of a stream, less a leading byte order mark, is the encoding
    of its text followed by the bytes of an unfinished last sequence. *)
Lemma decode_stream_bytes input d text :
  decode_stream TextDecoder_new input = Some (d, text) ->
  exists p,
    strip_bom input = encode text ++ p /\
    process_queue utf8_decoder_new p = Some (decoder d, []).
Proof.
  unfold decode_stream. cbn [decoder BOM_seen TextDecoder_new].
  destruct (process_queue utf8_decoder_new input) as [[d1 out]|] eqn:Hq;
    [|done].
  destruct (process_queue_reencode _ _ _ Hq) as (p & Hin & Hp).
  intros H. exists p. unfold strip_bom.
  destruct out as [|c out]; cbn [serialize] in H.
  - injection H as <- <-. cbn [decoder]. split; [|done].
    destruct (starts_with BOM input) eqn:Hs; [|done].
    by destruct (starts_with_BOM _ _ _ Hs Hq).
  - injection H as <- <-. cbn [decoder]. split; [|done].
    destruct (c =? 65279) eqn:Hc.
    + apply Z.eqb_eq in Hc as ->. by rewrite Hin.
    + destruct (starts_with BOM input) eqn:Hs; [|done].
      destruct (starts_with_BOM _ _ _ Hs Hq) as [? [= -> _]]. done.
Qed.

(** A whole input, one that [decode] accepts, is the encoding of its
    text. *)
Lemma decode_bytes input text :
  decode input = Some text -> strip_bom input = encode text.
Proof.
  unfold decode.
  destruct (decode_stream TextDecoder_new input) as [[d t]|] eqn:Hd; [|done].
  destruct (bytes_needed (decoder d) =? 0) eqn:Hn; [|done].
  intros [= ->]. destruct (decode_stream_bytes _ _ _ Hd) as (p & -> & Hp).
  assert (decoder d = utf8_decoder_new) as Hnew.
  { destruct (decode_stream_wf _ _ _ _ wf_TextDecoder_new Hd) as [|Hpe];
      [done|]. apply pending_needed in Hpe. lia. }
  rewrite Hnew in Hp. apply process_queue_quiet_new in Hp as ->.
  by rewrite app_nil_r.
Qed.

Lemma inject_none text : count_sub HEAD_END text = 0%nat -> inject text = text.
Proof.
  intros Hc. unfold inject.
  rewrite (spliced_splice HEAD_END TAG_MANAGER HEAD_END_nonempty).
  by apply splice_none.
Qed.

End Bytes.

(** ** One occurrence, and the first of several *)

Section Occurrences.

Variable needle : jsstring.
Hypothesis needle_nonempty : needle <> [].

Lemma count_sub_cons (c : Z) (h : jsstring) :
  count_sub needle (c :: h)
  = ((if starts_with needle (c :: h) then 1 else 0) + count_sub needle h)%nat.
Proof. done. Qed.

(** A needle that occurs once occurs at one place. *)
Lemma occ_unique (a b a' b' : jsstring) :
  (count_sub needle (a ++ needle ++ b) <= 1)%nat ->
  a ++ needle ++ b = a' ++ needle ++ b' -> a = a' /\ b = b'.
Proof.
  revert a'. induction a as [|x a IH]; intros [|y a'] Hc He.
  - split; [done|]. cbn [app] in He. by apply app_inv_head in He.
  - exfalso. cbn [app] in He, Hc. rewrite He in Hc.
    assert (starts_with needle ((y :: a') ++ needle ++ b') = true) as Hs
      by (cbn [app]; rewrite <- He; apply starts_with_self).
    cbn [app] in Hs. rewrite count_sub_cons, Hs in Hc.
    pose proof (count_sub_occ needle a' b' needle_nonempty). lia.
  - exfalso. cbn [app] in He, Hc.
    assert (starts_with needle (x :: a ++ needle ++ b) = true) as Hs
      by (rewrite He; apply starts_with_self).
    rewrite count_sub_cons, Hs in Hc.
    pose proof (count_sub_occ needle a b needle_nonempty). lia.
  - cbn [app] in He, Hc. injection He as -> He.
    rewrite count_sub_cons in Hc.
    destruct (IH a') as [-> ->]; [lia|done|done].
Qed.


End Occurrences.

Section Insertion.

Lemma encode_ascii m : Forall ascii m -> encode m = m.
Proof.
  induction 1 as [|c m Hc _ IH]; [done|].
  change (encode (c :: m)) with (utf8_encode_cp c ++ encode m).
  rewrite IH. unfold utf8_encode_cp. unfold ascii in Hc.
  by assert ((c <=? 127) = true) as -> by lia.
Qed.

(** An ASCII needle occurs in the encoding at least as often as in the
    text. *)
Lemma count_sub_encode_ge m text :
  Forall ascii m -> m <> [] ->
  (count_sub m text <= count_sub m (encode text))%nat.
Proof.
  intros Hm Hne. induction text as [|c text IH]; [done|].
  change (encode (c :: text)) with (utf8_encode_cp c ++ encode text).
  rewrite count_sub_cons.
  destruct (starts_with m (c :: text)) eqn:Hs.
  - apply starts_with_spec in Hs as [rest Hs].
    destruct m as [|x m]; [done|]. injection Hs as -> ->.
    apply Forall_cons in Hm as [Hx Hm].
    assert (utf8_encode_cp x = [x]) as ->.
    { unfold utf8_encode_cp. unfold ascii in Hx.
      by assert ((x <=? 127) = true) as -> by lia. }
    cbn [app]. rewrite count_sub_cons.
    assert (starts_with (x :: m) (x :: encode (m ++ rest)) = true) as ->.
    { rewrite encode_app, (encode_ascii m Hm).
      apply (starts_with_self (x :: m)). }
    lia.
  - pose proof (count_sub_app_r m (utf8_encode_cp c) (encode text)). lia.
Qed.

Lemma strip_bom_suffix input : exists b, input = b ++ strip_bom input.
Proof.
  unfold strip_bom. destruct (starts_with BOM input); [|by exists []].
  exists (take 3 input). by rewrite take_drop.
Qed.

(** The byte order mark ends before the marker begins. *)
Lemma strip_bom_marker pre post :
  strip_bom (pre ++ HEAD_END ++ post) = strip_bom pre ++ HEAD_END ++ post.
Proof.
  unfold strip_bom. destruct (starts_with BOM pre) eqn:Hs.
  - rewrite starts_with_app by done.
    apply starts_with_spec in Hs as [r ->]. by rewrite <- app_assoc.
  - assert (starts_with BOM (pre ++ HEAD_END ++ post) = false) as ->; [|done].
    destruct (decide (3 <= length pre)%nat) as [Hl|Hl].
    + rewrite (starts_with_long BOM pre _ []) by done.
      by rewrite app_nil_r.
    + change HEAD_END with (60 :: tail HEAD_END).
      destruct pre as [|a [|b [|c pre]]]; cbn [length] in Hl; [| | |lia];
        cbn [app starts_with BOM]; by rewrite ?andb_false_r.
Qed.

(** The text of a document whose bytes hold the marker once, around its
    marker. *)
Lemma marker_once_text input text pre post :
  decode input = Some text ->
  input = pre ++ encode HEAD_END ++ post ->
  count_sub (encode HEAD_END) input = 1%nat ->
  exists t1 t2,
    text = t1 ++ HEAD_END ++ t2 /\ count_sub HEAD_END text = 1%nat /\
    strip_bom pre = encode t1 /\ post = encode t2.
Proof.
  intros Hd -> Hc. pose proof (decode_bytes _ _ Hd) as Hb.
  rewrite encode_HEAD_END in Hd, Hc, Hb. rewrite strip_bom_marker in Hb.
  assert (count_sub HEAD_END (encode text) = 1%nat) as Hce.
  { rewrite <- Hb.
    destruct (strip_bom_suffix pre) as [b Hsuf].
    pose proof (count_sub_app_r HEAD_END b
                  (strip_bom pre ++ HEAD_END ++ post)) as Hle.
    rewrite (app_assoc b), <- Hsuf in Hle.
    pose proof (count_sub_occ HEAD_END (strip_bom pre) post HEAD_END_nonempty).
    lia. }
  assert (count_sub HEAD_END text = 1%nat) as Hct.
  { pose proof (count_sub_encode_ge HEAD_END text HEAD_END_ascii
                  HEAD_END_nonempty).
    revert Hd. unfold decode.
    destruct (decode_stream TextDecoder_new (pre ++ HEAD_END ++ post))
      as [[d t]|] eqn:Hs; [|done].
    destruct (bytes_needed (decoder d) =? 0); [|done]. intros [= ->].
    assert (1 <= count_sub HEAD_END text)%nat; [|lia].
    eapply (count_sub_bytes_text _ _ _ _ _ HEAD_END_ascii HEAD_END_nonempty
              wf_TextDecoder_new Hs). lia. }
  destruct (count_sub_pos_occ HEAD_END text) as (t1 & t2 & Ht); [lia|].
  exists t1, t2. split; [done|]. split; [done|].
  rewrite Ht, !encode_app, encode_HEAD_END in Hb.
  apply (occ_unique HEAD_END HEAD_END_nonempty) in Hb; [done|].
  rewrite Ht, !encode_app, encode_HEAD_END in Hce. rewrite Hb. lia.
Qed.

End Insertion.

(** ** The scanning mode *)

Section Scanning.

Lemma inject_cases t :
  (has_marker t = false /\ inject t = t) \/
  (has_marker t = true /\
   exists pre post,
     t = pre ++ HEAD_END ++ post /\
     inject t = pre ++ TAG_MANAGER ++ HEAD_END ++ post).
Proof.
  unfold inject. rewrite (spliced_splice HEAD_END TAG_MANAGER HEAD_END_nonempty).
  destruct (has_marker t) eqn:Hm.
  - right. split; [done|]. apply has_marker_count in Hm.
    destruct (splice_occ HEAD_END TAG_MANAGER t Hm) as (pre & post & ? & ?).
    by exists pre, post.
  - left. split; [done|]. apply splice_none; [apply HEAD_END_nonempty|].
    destruct (decide (1 <= count_sub HEAD_END t)%nat) as [H1|H1]; [|lia].
    apply has_marker_count in H1. congruence.
Qed.

Lemma inject_scalar t :
  Forall (fun c => scalar c = true) t ->
  Forall (fun c => scalar c = true) (inject t).
Proof.
  intros Ht. destruct (inject_cases t) as [[_ ->]|(_ & pre & post & -> & ->)];
    [done|].
  apply Forall_app in Ht as [Hpre Hrest].
  apply Forall_app. split; [done|].
  apply Forall_app. split; [apply TAG_MANAGER_scalar|done].
Qed.

Lemma chunk_texts_scalar d chunks d' ts :
  wf (decoder d) -> chunk_texts d chunks = Some (d', ts) ->
  Forall (Forall (fun c => scalar c = true)) ts.
Proof.
  revert d ts. induction chunks as [|c chunks IH]; intros d ts Hw; simpl.
  - intros [= _ <-]. constructor.
  - destruct (decode_stream d c) as [[d1 t1]|] eqn:E; [|done].
    destruct (chunk_texts d1 chunks) as [[d2 ts']|] eqn:E'; [|done].
    intros [= <- <-]. apply Forall_cons. split.
    + by eapply decode_stream_scalar.
    + apply (IH d1); [by eapply decode_stream_wf|done].
Qed.

Lemma injected_scalar ts :
  Forall (Forall (fun c => scalar c = true)) ts ->
  Forall (fun c => scalar c = true) (concat (map inject ts)).
Proof.
  induction 1 as [|t ts Ht _ IH]; [done|]. simpl.
  apply Forall_app. split; [by apply inject_scalar|done].
Qed.

(** The bytes a splice adds. *)
Lemma inject_length t :
  length (encode (inject t))
  = (length (encode t)
     + (if has_marker t then length (encode TAG_MANAGER) else 0))%nat.
Proof.
  destruct (inject_cases t) as [[-> ->]|(-> & pre & post & -> & ->)]; [lia|].
  rewrite !encode_app, !length_app. lia.
Qed.

Lemma injected_length ts :
  length (encode (concat (map inject ts)))
  = (length (encode (concat ts))
     + length (filter (fun t => has_marker t = true) ts)
       * length (encode TAG_MANAGER))%nat.
Proof.
  induction ts as [|t ts IH]; [done|]. cbn [map concat].
  rewrite !encode_app, !length_app, IH, inject_length.
  set (n := length (encode TAG_MANAGER)).
  destruct (has_marker t) eqn:Hm.
  - rewrite filter_cons_True by done. cbn [length]. lia.
  - rewrite filter_cons_False by (by rewrite Hm). lia.
Qed.

(** A stream that is being scanned at its end was scanned throughout. *)
Lemma steps_scanned s chunks :
  unsupportedCharset (foldl step s chunks) = false ->
  firstChunk s = false ->
  exists d ts, chunk_texts (td s) chunks = Some (d, ts).
Proof.
  revert s. induction chunks as [|c chunks IH]; intros s Hu Hf.
  - by exists (td s), [].
  - cbn [foldl] in Hu. rewrite step_cases in Hu. cbn [chunk_texts].
    destruct (unsupportedCharset s) eqn:Eu.
    { rewrite steps_passthrough in Hu by (cbn; by rewrite Eu). done. }
    destruct (decode_stream (td s) c) as [[d1 t1]|] eqn:E.
    + rewrite Hf in Hu. cbn [andb] in Hu.
      destruct (IH _ Hu) as (d & ts & Hts); [done|]. cbn [td] in Hts.
      rewrite Hts. by exists d, (t1 :: ts).
    + rewrite steps_passthrough in Hu by done. done.
Qed.

Lemma run_scanned chunks :
  unsupportedCharset (run chunks) = false ->
  gate_ok chunks = true /\
  exists d ts, chunk_texts TextDecoder_new chunks = Some (d, ts).
Proof.
  rewrite run_unsupportedCharset. destruct chunks as [|c chunks].
  - intros _. split; [done|]. by exists TextDecoder_new, [].
  - cbn [foldl gate_ok chunk_texts]. rewrite step_cases.
    cbn [unsupportedCharset Stream_new td firstChunk].
    destruct (decode_stream TextDecoder_new c) as [[d1 t1]|] eqn:E.
    + cbn [andb]. destruct (chunkContainsInvalidCharset t1).
      * intros Hu. rewrite steps_passthrough in Hu by done. done.
      * intros Hu. split; [done|].
        apply steps_scanned in Hu as (d & ts & Hts); [|done].
        cbn [td] in Hts. rewrite Hts. by exists d, (t1 :: ts).
    + intros Hu. rewrite steps_passthrough in Hu by done. done.
Qed.

(** Chunks that do not hold the marker's bytes have texts without the
    marker. *)
Lemma unmarked_texts d chunks d' ts :
  wf (decoder d) -> chunk_texts d chunks = Some (d', ts) ->
  forallb (fun c => negb (holds_marker c)) chunks = true ->
  map inject ts = ts /\ filter (fun t => has_marker t = true) ts = [].
Proof.
  revert d ts. induction chunks as [|c chunks IH]; intros d ts Hw; simpl.
  - by intros [= _ <-].
  - destruct (decode_stream d c) as [[d1 t1]|] eqn:E; [|done].
    destruct (chunk_texts d1 chunks) as [[d2 ts']|] eqn:E'; [|done].
    intros [= <- <-] [Hc Hcs]%andb_true_iff.
    destruct (IH d1 ts') as [Hm Hf]; [by eapply decode_stream_wf|done..|].
    assert (count_sub HEAD_END t1 = 0%nat) as H0.
    { destruct (decide (1 <= count_sub HEAD_END t1)%nat) as [H1|H1]; [|lia].
      pose proof (count_sub_text_bytes _ _ _ _ _ HEAD_END_ascii
                    HEAD_END_nonempty Hw E H1) as Hb.
      apply negb_true_iff in Hc. unfold holds_marker in Hc.
      rewrite encode_HEAD_END in Hc. apply Nat.ltb_ge in Hc. lia. }
    cbn [map]. rewrite Hm, inject_none by done. split; [done|].
    rewrite filter_cons_False; [done|].
    intros Hh%has_marker_count. lia.
Qed.

(** From a state in which the check has been made, the chunks are scanned
    up to the first that does not decode, and written as they come from
    there on. *)
Lemma steps_split s chunks :
  unsupportedCharset s = false -> firstChunk s = false ->
  exists k d ts,
    (k <= length chunks)%nat /\
    chunk_texts (td s) (take k chunks) = Some (d, ts) /\
    sink (foldl step s chunks)
    = sink s ++ map Write (flat_map (fun t => emitted (inject t)) ts
                           ++ drop k chunks) /\
    (unsupportedCharset (foldl step s chunks) = false <-> k = length chunks) /\
    ((k < length chunks)%nat ->
     exists c, chunks !! k = Some c /\ decode_stream d c = None).
Proof.
  revert s. induction chunks as [|c chunks IH]; intros s Hu Hf.
  - exists 0%nat, (td s), []. cbn. rewrite app_nil_r.
    repeat split; try done. lia.
  - cbn [foldl]. rewrite step_cases, Hu, Hf. cbn [andb].
    destruct (decode_stream (td s) c) as [[d1 t1]|] eqn:E.
    + match goal with
      | |- context [foldl step ?s' chunks] =>
          destruct (IH s') as (k & d & ts & Hk & Hts & Hs & Hm & Hn);
            [done..|]
      end.
      exists (S k), d, (t1 :: ts). cbn [td] in Hts.
      cbn [take chunk_texts length drop]. rewrite E, Hts.
      split; [lia|]. split; [done|]. rewrite Hs. cbn [sink flat_map].
      split; [by rewrite <- ?app_assoc, !map_app, <- ?app_assoc|].
      split; [rewrite Hm; lia|]. intros Hlt. apply Hn. lia.
    + exists 0%nat, (td s), []. rewrite steps_passthrough by done.
      cbn [take chunk_texts flat_map drop app length sink log
           set_unsupportedCharset unsupportedCharset map].
      split; [lia|]. split; [done|]. split; [by rewrite <- app_assoc|].
      split; [split; [done|lia]|]. intros _. by exists c.
Qed.

End Scanning.

(** ** The patterns *)

Section Patterns.

Lemma lit_match_canon (s kw x : jsstring) :
  map canon kw = map canon s -> lit_match s (kw ++ x) = Some x.
Proof.
  revert kw. induction s as [|c s IH]; intros [|y kw] He; try done.
  injection He as Hc He. cbn [app lit_match].
  rewrite Hc, Z.eqb_refl. by apply IH.
Qed.

Lemma lit_match_head (c : Z) (s : jsstring) (y : Z) (input : jsstring) :
  canon c <> canon y -> lit_match (c :: s) (y :: input) = None.
Proof.
  intros Hc. cbn [lit_match].
  by assert ((canon c =? canon y) = false) as -> by lia.
Qed.

(** A greedy loop takes all it can when the rest of the pattern then
    matches. *)
Lemma star_loop_greedy {A} (p : Z -> bool) (k : jsstring -> option A)
    (w rest : jsstring) (r : A) :
  forallb p w = true -> stops p rest = true -> k rest = Some r ->
  star_loop p k (w ++ rest) = Some r.
Proof.
  intros Hw Hs Hk. induction w as [|c w IH].
  - destruct rest as [|c rest]; [done|]. cbn [app star_loop].
    cbn [stops] in Hs. apply negb_true_iff in Hs. by rewrite Hs.
  - cbn [forallb] in Hw. apply andb_true_iff in Hw as [Hc Hw].
    cbn [app star_loop]. by rewrite Hc, IH.
Qed.

(** It gives back what it took as long as the rest of the pattern does not
    match. *)
Lemma star_loop_back {A} (p : Z -> bool) (k : jsstring -> option A)
    (w rest : jsstring) :
  forallb p w = true -> stops p rest = true ->
  (forall i, (i < length w)%nat -> k (drop (S i) w ++ rest) = None) ->
  star_loop p k (w ++ rest) = k (w ++ rest).
Proof.
  intros Hw Hs. induction w as [|c w IH]; intros Hk.
  - destruct rest as [|c rest]; [done|]. cbn [app star_loop].
    cbn [stops] in Hs. apply negb_true_iff in Hs. by rewrite Hs.
  - cbn [forallb] in Hw. apply andb_true_iff in Hw as [Hc Hw].
    cbn [app star_loop]. rewrite Hc, IH; [|done|].
    + specialize (Hk 0%nat). cbn [length drop] in Hk. rewrite drop_0 in Hk.
      rewrite Hk; [done|lia].
    + intros i Hi. apply (Hk (S i)). cbn [length]. lia.
Qed.

Lemma exec_skip (r : regex) (pre input : jsstring) :
  Forall (fun c => forall x, match_here r (c :: x) = None) pre ->
  exec r (pre ++ input) = exec r input.
Proof.
  induction 1 as [|c pre Hc _ IH]; [done|]. cbn [app exec]. by rewrite Hc.
Qed.

Lemma exec_here (r : regex) (input : jsstring) (m : match_result) :
  match_here r input = Some m -> exec r input = Some m.
Proof. intros H. destruct input; cbn [exec]; by rewrite H. Qed.

Lemma take_matched (a whole rest : jsstring) :
  whole = a ++ rest -> take (length whole - length rest) whole = a.
Proof.
  intros ->. rewrite length_app, Nat.add_sub. apply take_app_length.
Qed.

(** The header's pattern where the parameter begins. *)
Lemma header_match_here (kw w1 w2 v rest : jsstring) :
  map canon kw = map canon (str "charset") ->
  forallb ws w1 = true -> forallb ws w2 = true ->
  v <> [] -> forallb (neg (either ws (chr 59))) v = true ->
  stops (neg (either ws (chr 59))) rest = true ->
  match_here headerCharsetRegex (kw ++ w1 ++ [61] ++ w2 ++ v ++ rest)
  = Some {| m0 := kw ++ w1 ++ [61] ++ w2 ++ v; m1 := v |}.
Proof.
  intros Hkw Hw1 Hw2 Hv Hpv Hr. unfold match_here, headerCharsetRegex.
  cbn [rmatch]. rewrite lit_match_canon by done.
  apply star_loop_greedy; [done|done|].
  change (lit_match (str "=") ([61] ++ w2 ++ v ++ rest))
    with (Some (w2 ++ v ++ rest)). cbv iota.
  destruct v as [|c v]; [done|].
  cbn [forallb] in Hpv. apply andb_true_iff in Hpv as [Hc Hpv].
  apply star_loop_greedy; [done| |].
  { cbn [app stops]. revert Hc. unfold neg, either.
    destruct (ws c); [done|]. done. }
  cbn [app]. rewrite Hc.
  apply star_loop_greedy; [done|done|]. cbn [default from_option].
  f_equal. f_equal; apply take_matched; by simplify_list_eq.
Qed.

(** The header's pattern does not match where no letter c stands. *)
Lemma header_no_match (c : Z) (input : jsstring) :
  canon c <> 67 -> match_here headerCharsetRegex (c :: input) = None.
Proof.
  intros Hc. unfold match_here, headerCharsetRegex. cbn [rmatch].
  change (str "charset") with (99 :: str "harset").
  rewrite lit_match_head; [done|]. by change (canon 99) with 67.
Qed.

Lemma header_exec (pre kw w1 w2 v rest : jsstring) :
  forallb (fun c => negb (canon c =? 67)) pre = true ->
  map canon kw = map canon (str "charset") ->
  forallb ws w1 = true -> forallb ws w2 = true ->
  v <> [] -> forallb (neg (either ws (chr 59))) v = true ->
  stops (neg (either ws (chr 59))) rest = true ->
  exec headerCharsetRegex (pre ++ kw ++ w1 ++ [61] ++ w2 ++ v ++ rest)
  = Some {| m0 := kw ++ w1 ++ [61] ++ w2 ++ v; m1 := v |}.
Proof.
  intros Hpre Hkw Hw1 Hw2 Hv Hpv Hr. rewrite exec_skip.
  - by apply exec_here, header_match_here.
  - apply Forall_forall. intros c Hin x. apply header_no_match.
    rewrite forallb_forall in Hpre.
    apply list_elem_of_In, Hpre, negb_true_iff in Hin. lia.
Qed.

End Patterns.

(** ** A sink that rejects writes *)

Section Sink.

Variable env : Env.

Lemma written_rejected l v : written (l ++ [WriteRejected v]) = written l.
Proof. by rewrite written_app, app_nil_r. Qed.

Lemma writer_write_accept v s :
  write_ok env (length (sink s)) = true ->
  writer_write env v s = Normal (log (Write v) s).
Proof. intros H. unfold writer_write. by rewrite H. Qed.

Lemma writer_write_reject v s :
  write_ok env (length (sink s)) = false ->
  writer_write env v s = Throw (log (WriteRejected v) s).
Proof. intros H. unfold writer_write. by rewrite H. Qed.

Lemma search_splice_no_fault i chunk s :
  scan_fault env i = NoFault ->
  search_splice env i chunk s = search_splice ideal 0 chunk s.
Proof. intros H. unfold search_splice. by rewrite H. Qed.

(** As long as the sink accepts the write the turn is that of [step]. *)
Lemma loop_body_accept i v s :
  scan_fault env i = NoFault ->
  write_ok env (length (sink s)) = true ->
  loop_body env i v s = loop_body ideal 0 v s.
Proof.
  intros Hf Hw. unfold loop_body.
  destruct (unsupportedCharset s).
  { unfold write_continue. by rewrite writer_write_accept. }
  destruct (decode_stream (td s) v) as [[d chunk]|].
  2:{ unfold write_continue. by rewrite writer_write_accept. }
  unfold scan_try, sniff. rewrite Hf. cbn [scan_fault ideal].
  destruct (firstChunk (set_td d s));
    [destruct (chunkContainsInvalidCharset chunk);
       [unfold write_continue; by rewrite writer_write_accept|]|];
    rewrite search_splice_no_fault, search_splice_ideal by done;
    unfold flush_content; cbn [content sink];
    (destruct (negb (length (inject chunk) =? 0)%nat); [|done]);
    by rewrite writer_write_accept.
Qed.

(** When it rejects the write, nothing is added to what it accepted: the
    loop is left, or the turn made no write, or the write was the one of a
    first chunk that failed the charset check, whose rejection is caught
    inside the loop. *)
Lemma loop_body_reject i v s :
  scan_fault env i = NoFault ->
  write_ok env (length (sink s)) = false ->
  content s = [] ->
  written (sink (state_of (loop_body env i v s))) = written (sink s) /\
  ((exists s', loop_body env i v s = Throw s') \/
   loop_body env i v s = loop_body ideal 0 v s \/
   (exists s',
      loop_body env i v s = Normal s' /\ unsupportedCharset s' = true /\
      sink s' = sink s ++ [WriteRejected v])).
Proof.
  intros Hf Hw Hc. unfold loop_body.
  destruct (unsupportedCharset s).
  { unfold write_continue. rewrite writer_write_reject by done.
    cbn [state_of log sink]. rewrite written_rejected. eauto. }
  destruct (decode_stream (td s) v) as [[d chunk]|].
  2:{ unfold write_continue. rewrite writer_write_reject by done.
      cbn [state_of log sink set_unsupportedCharset].
      rewrite written_rejected. eauto. }
  unfold scan_try, sniff. rewrite Hf. cbn [scan_fault ideal].
  destruct (firstChunk (set_td d s));
    [destruct (chunkContainsInvalidCharset chunk)|].
  - unfold write_continue. rewrite writer_write_reject by done.
    unfold flush_content. stream_fields. rewrite Hc.
    cbn [length Nat.eqb negb state_of sink]. rewrite written_rejected.
    split; [done|]. right. right. eauto.
  - rewrite search_splice_no_fault, search_splice_ideal by done.
    unfold flush_content. cbn [content sink].
    destruct (negb (length (inject chunk) =? 0)%nat).
    + rewrite writer_write_reject by done.
      cbn [state_of log sink]. rewrite written_rejected. eauto.
    + cbn [state_of sink]. eauto.
  - rewrite search_splice_no_fault, search_splice_ideal by done.
    unfold flush_content. cbn [content sink].
    destruct (negb (length (inject chunk) =? 0)%nat).
    + rewrite writer_write_reject by done.
      cbn [state_of log sink]. rewrite written_rejected. eauto.
    + cbn [state_of sink]. eauto.
Qed.

(** In passthrough mode a rejected write ends the loop. *)
Lemma read_loop_dead i chunks s :
  unsupportedCharset s = true ->
  write_ok env (length (sink s)) = false ->
  written (sink (state_of (read_loop env i (map ReadChunk chunks) s)))
  = written (sink s).
Proof.
  intros Hu Hw. destruct chunks as [|c chunks]; [done|].
  cbn [map read_loop]. unfold loop_body, write_continue.
  rewrite Hu, writer_write_reject by done.
  cbn [state_of log sink]. apply written_rejected.
Qed.


Lemma step_content s v : content s = [] -> content (step s v) = [].
Proof.
  intros Hc. rewrite step_cases.
  destruct (unsupportedCharset s); [done|].
  destruct (decode_stream (td s) v) as [[d chunk]|]; [|done].
  by destruct (firstChunk s && chunkContainsInvalidCharset chunk).
Qed.

(** What is written is never taken back. *)
Lemma steps_sink s chunks :
  exists l, sink (foldl step s chunks) = sink s ++ l.
Proof.
  revert s. induction chunks as [|c chunks IH]; intros s.
  - exists []. by rewrite app_nil_r.
  - cbn [foldl]. destruct (IH (step s c)) as [l ->].
    assert (exists l', sink (step s c) = sink s ++ l') as [l' ->].
    { rewrite step_cases.
      destruct (unsupportedCharset s); [by eexists|].
      destruct (decode_stream (td s) c) as [[d chunk]|]; [|by eexists].
      destruct (firstChunk s && chunkContainsInvalidCharset chunk);
        by eexists. }
    exists (l' ++ l). by rewrite app_assoc.
Qed.

Lemma steps_written_prefix s chunks :
  written (sink s) `prefix_of` written (sink (foldl step s chunks)).
Proof.
  destruct (steps_sink s chunks) as [l ->]. rewrite written_app.
  by apply prefix_app_r.
Qed.

Hypothesis no_fault : forall i, scan_fault env i = NoFault.
Hypothesis stays_closed :
  forall n, write_ok env n = false -> write_ok env (S n) = false.

Lemma read_loop_prefix i chunks s :
  content s = [] ->
  written (sink (state_of (read_loop env i (map ReadChunk chunks) s)))
    `prefix_of` written (sink (foldl step s chunks)).
Proof.
  revert i s. induction chunks as [|c chunks IH]; intros i s Hc; [done|].
  cbn [map read_loop foldl].
  assert (loop_body env i c s = loop_body ideal 0 c s ->
          written (sink (state_of
            match loop_body env i c s with
            | Throw s' => Throw s'
            | Normal s' | ContinueLoop s' =>
                read_loop env (S i) (map ReadChunk chunks) s'
            end)) `prefix_of` written (sink (foldl step (step s c) chunks)))
    as Hsame.
  { intros ->.
    destruct (loop_body_ideal_step 0 c s) as [-> | ->];
      apply IH; by apply step_content. }
  destruct (write_ok env (length (sink s))) eqn:Hw.
  { apply Hsame. by apply loop_body_accept. }
  destruct (loop_body_reject i c s (no_fault i) Hw Hc)
    as [Hwr [[s' Ht]|[He|(s' & Hn & Hu & Hs)]]].
  - rewrite Ht in Hwr |- *. cbn [state_of] in Hwr |- *. rewrite Hwr.
    apply (steps_written_prefix s (c :: chunks)).
  - by apply Hsame.
  - rewrite Hn in Hwr |- *. cbn [state_of] in Hwr.
    rewrite read_loop_dead, Hwr.
    + apply (steps_written_prefix s (c :: chunks)).
    + done.
    + rewrite Hs, length_app. cbn [length].
      rewrite Nat.add_1_r. by apply stays_closed.
Qed.

End Sink.

(** ** What a match must hold *)

Section Requires.

Variable P : Z -> Prop.

Lemma lit_match_inv (s input rest : jsstring) :
  lit_match s input = Some rest ->
  exists pre, input = pre ++ rest /\ map canon pre = map canon s.
Proof.
  revert input. induction s as [|x s IH]; intros input.
  - intros [= ->]. by exists [].
  - destruct input as [|y input]; [done|]. cbn [lit_match].
    destruct (canon x =? canon y) eqn:E; [|done]. intros H.
    destruct (IH _ H) as (pre & -> & Hpre). exists (y :: pre).
    split; [done|]. cbn [map]. f_equal; [lia|done].
Qed.

Lemma lit_requires (s pre : jsstring) :
  map canon pre = map canon s ->
  Exists (fun x => forall y, canon x = canon y -> P y) s -> Exists P pre.
Proof.
  revert pre. induction s as [|x s IH]; intros [|y pre] He Hs; try done.
  - by apply Exists_nil in Hs.
  - injection He as Hc He. apply Exists_cons in Hs as [Hx|Hs].
    + apply Exists_cons_hd. by apply Hx.
    + apply Exists_cons_tl. by apply IH.
Qed.

Lemma star_loop_inv {A} (p : Z -> bool) (k : jsstring -> option A)
    (input : jsstring) (a : A) :
  star_loop p k input = Some a ->
  exists pre rest, input = pre ++ rest /\ k rest = Some a.
Proof.
  induction input as [|c input IH]; cbn [star_loop].
  - intros H. by exists [], [].
  - destruct (p c); [|intros H; by exists [], (c :: input)].
    destruct (star_loop p k input) as [r|] eqn:E.
    + intros [= ->]. destruct (IH eq_refl) as (pre & rest & -> & Hk).
      by exists (c :: pre), rest.
    + intros H. by exists [], (c :: input).
Qed.

(** A match takes a beginning of the input and hands the rest on; the
    beginning holds what the pattern requires. *)
Lemma rmatch_inv {A} (r : regex) (input : jsstring) (cap : option jsstring)
    (k : jsstring -> option jsstring -> option A) (a : A) :
  rmatch r input cap k = Some a ->
  exists pre rest cap',
    input = pre ++ rest /\ k rest cap' = Some a /\
    (requires P r -> Exists P pre).
Proof.
  revert input cap k.
  induction r as [s|q|q|q|r1 IH1 r2 IH2|r' IH]; intros input cap k;
    cbn [rmatch requires].
  - destruct (lit_match s input) as [rest|] eqn:E; [|done]. intros Hk.
    destruct (lit_match_inv _ _ _ E) as (pre & -> & Hpre).
    exists pre, rest, cap. split; [done|]. split; [done|].
    by apply lit_requires.
  - destruct input as [|c rest]; [done|].
    destruct (q c) eqn:E; [|done]. intros Hk.
    exists [c], rest, cap. split; [done|]. split; [done|].
    intros Hq. apply Exists_cons_hd. by apply Hq.
  - intros H. apply star_loop_inv in H as (pre & rest & -> & Hk).
    by exists pre, rest, cap.
  - destruct input as [|c input]; [done|].
    destruct (q c) eqn:E; [|done]. intros H.
    apply star_loop_inv in H as (pre & rest & -> & Hk).
    exists (c :: pre), rest, cap. split; [done|]. split; [done|].
    intros Hq. apply Exists_cons_hd. by apply Hq.
  - intros H. apply IH1 in H as (pre1 & rest1 & cap1 & -> & H & H1).
    apply IH2 in H as (pre2 & rest2 & cap2 & -> & H & H2).
    exists (pre1 ++ pre2), rest2, cap2. split; [by rewrite app_assoc|].
    split; [done|]. intros [Hr|Hr]; apply Exists_app; auto.
  - intros H. apply IH in H as (pre & rest & cap' & -> & H & H').
    by exists pre, rest,
      (Some (take (length (pre ++ rest) - length rest) (pre ++ rest))).
Qed.

Lemma exec_requires (r : regex) (input : jsstring) (m : match_result) :
  requires P r -> exec r input = Some m -> Exists P input.
Proof.
  intros Hr. induction input as [|c input IH]; cbn [exec].
  - destruct (match_here r []) eqn:E; [|done]. intros _.
    apply rmatch_inv in E as (pre & rest & cap' & Hin & _ & H).
    specialize (H Hr). symmetry in Hin.
    apply app_eq_nil in Hin as [-> _]. by apply Exists_nil in H.
  - destruct (match_here r (c :: input)) eqn:E.
    + intros _. apply rmatch_inv in E as (pre & rest & cap' & -> & _ & H).
      apply Exists_app. left. by apply H.
    + intros H. apply Exists_cons_tl. by apply IH.
Qed.

Lemma exec_none (r : regex) (input : jsstring) :
  requires P r -> Forall (fun c => ~ P c) input -> exec r input = None.
Proof.
  intros Hr Hf. destruct (exec r input) as [m|] eqn:E; [|done].
  apply (exec_requires _ _ _ Hr) in E.
  apply Exists_exists in E as (c & Hc & HP).
  rewrite Forall_forall in Hf. by destruct (Hf c Hc).
Qed.

End Requires.

Lemma canon_fixed (x y : Z) :
  (x < 65 \/ 90 < x) -> ~ (97 <= x <= 122) -> canon x = canon y -> y = x.
Proof.
  unfold canon. intros Hx Hx'.
  destruct ((97 <=? x) && (x <=? 122)) eqn:Ex; [lia|].
  destruct ((97 <=? y) && (y <=? 122)) eqn:Ey; lia.
Qed.

Lemma charsetRegex_requires (P : Z -> Prop) :
  (forall c, quote c = true -> P c) \/ P 60 \/ P 62 ->
  requires P charsetRegex.
Proof.
  unfold charsetRegex. change (str "<") with [60]. change (str ">") with [62].
  cbn [requires]. intros [H|[H|H]].
  - do 8 right. by left.
  - left. apply Exists_cons_hd. intros y Hy.
    apply canon_fixed in Hy as ->; [done|lia..].
  - do 12 right. apply Exists_cons_hd. intros y Hy.
    apply canon_fixed in Hy as ->; [done|lia..].
Qed.

Lemma contentTypeRegex_requires (P : Z -> Prop) :
  (forall c, quote c = true -> P c) \/ P 60 \/ P 62 ->
  requires P contentTypeRegex.
Proof.
  unfold contentTypeRegex. change (str "<") with [60]. change (str ">") with [62].
  cbn [requires]. intros [H|[H|H]].
  - do 8 right. by left.
  - left. apply Exists_cons_hd. intros y Hy.
    apply canon_fixed in Hy as ->; [done|lia..].
  - do 12 right. apply Exists_cons_hd. intros y Hy.
    apply canon_fixed in Hy as ->; [done|lia..].
Qed.

(** ** The meta tag's pattern *)

Section MetaTag.

Lemma forallb_Forall (p : Z -> bool) (l : jsstring) :
  forallb p l = true <-> Forall (fun c => p c = true) l.
Proof.
  induction l as [|c l IH]; cbn [forallb].
  - split; [constructor|done].
  - rewrite andb_true_iff, Forall_cons. by rewrite IH.
Qed.

(** The characters of a word equal, under flag i, to a word of ASCII
    letters are ASCII letters. *)
Lemma canon_letter (x y : Z) :
  65 <= canon x <= 90 -> canon y = canon x ->
  (65 <= y <= 90 \/ 97 <= y <= 122).
Proof.
  unfold canon.
  destruct ((97 <=? x) && (x <=? 122)) eqn:Ex;
    destruct ((97 <=? y) && (y <=? 122)) eqn:Ey; lia.
Qed.

Lemma canon_word (kw s : jsstring) :
  map canon kw = map canon s ->
  forallb (fun c => (65 <=? canon c) && (canon c <=? 90)) s = true ->
  Forall (fun c => 65 <= c <= 90 \/ 97 <= c <= 122) kw.
Proof.
  revert kw. induction s as [|x s IH]; intros [|y kw] He Hs; try done.
  injection He as Hc He. cbn [forallb] in Hs.
  apply andb_true_iff in Hs as [Hx Hs].
  constructor; [|by apply IH]. apply (canon_letter x); [lia|done].
Qed.

Lemma letter_plain (c : Z) :
  65 <= c <= 90 \/ 97 <= c <= 122 ->
  ws c = false /\ quote c = false /\ neg (chr 62) c = true.
Proof.
  intros Hc. unfold ws, quote, neg, chr. change SQUOTE with 39.
  change DQUOTE with 34. lia.
Qed.

Lemma ws_plain (c : Z) :
  ws c = true -> canon c <> 67 /\ neg (chr 62) c = true /\ quote c = false.
Proof.
  unfold ws, canon, neg, chr, quote. change SQUOTE with 39.
  change DQUOTE with 34. intros H.
  destruct ((97 <=? c) && (c <=? 122)) eqn:E; lia.
Qed.

Lemma ws_not_letter (c : Z) :
  ws c = true -> canon c < 65 \/ 90 < canon c.
Proof.
  unfold ws, canon. intros H.
  destruct ((97 <=? c) && (c <=? 122)) eqn:E; lia.
Qed.

Lemma quote_plain (c : Z) :
  quote c = true -> canon c <> 67 /\ neg (chr 62) c = true /\ ws c = false.
Proof.
  unfold quote. change SQUOTE with 39. change DQUOTE with 34. intros H.
  assert (c = 39 \/ c = 34) as [-> | ->] by lia; done.
Qed.

(** A word matched in front of a closing bracket is matched whatever comes
    after the bracket. *)
Lemma lit_match_closed (kw Y rest : jsstring) :
  forallb (fun c => negb (canon c =? 62)) kw = true ->
  lit_match kw (Y ++ [62]) = None ->
  lit_match kw (Y ++ [62] ++ rest) = None.
Proof.
  revert Y. induction kw as [|x kw IH]; intros Y Hkw; [done|].
  cbn [forallb] in Hkw. apply andb_true_iff in Hkw as [Hx Hkw].
  destruct Y as [|y Y]; cbn [app lit_match].
  - change (canon 62) with 62.
    by assert ((canon x =? 62) = false) as -> by lia.
  - destruct (canon x =? canon y); [|done]. by apply IH.
Qed.

Lemma keyword_free_tails (kw X rest : jsstring) (i : nat) :
  forallb (fun c => negb (canon c =? 62)) kw = true ->
  keyword_free kw (X ++ [62]) = true ->
  (i <= length X)%nat ->
  lit_match kw (drop i X ++ [62] ++ rest) = None.
Proof.
  intros Hkw. revert i. induction X as [|c X IH]; intros i.
  - cbn [app keyword_free]. intros H _. rewrite drop_nil. cbn [app].
    apply (lit_match_closed kw [] rest Hkw). cbn [app].
    by destruct (lit_match kw [62]).
  - cbn [app keyword_free].
    destruct (lit_match kw (c :: X ++ [62])) eqn:E; [done|]. intros H Hi.
    destruct i as [|i].
    + rewrite drop_0. by apply (lit_match_closed kw (c :: X) rest Hkw).
    + cbn [drop]. apply IH; [done|]. cbn [length] in Hi. lia.
Qed.

Lemma keyword_free_head (c : Z) (kw a Y : jsstring) :
  forallb (fun y => negb (canon y =? canon c)) a = true ->
  keyword_free (c :: kw) Y = true -> keyword_free (c :: kw) (a ++ Y) = true.
Proof.
  intros Ha HY. induction a as [|y a IH]; [done|].
  cbn [forallb] in Ha. apply andb_true_iff in Ha as [Hy Ha].
  cbn [app keyword_free]. rewrite lit_match_head by lia. by apply IH.
Qed.

(** A greedy loop that must give back: it stops giving back at the first
    place, from the right, where the rest of the pattern matches. *)
Lemma star_loop_last {A} (p : Z -> bool) (k : jsstring -> option A)
    (a b rest : jsstring) (r : A) :
  forallb p a = true -> forallb p b = true -> stops p rest = true ->
  (forall i, (i < length b)%nat -> k (drop (S i) b ++ rest) = None) ->
  k (b ++ rest) = Some r ->
  star_loop p k (a ++ b ++ rest) = Some r.
Proof.
  intros Ha Hb Hr Hk Hs. induction a as [|c a IH].
  - cbn [app]. by rewrite star_loop_back.
  - cbn [forallb] in Ha. apply andb_true_iff in Ha as [Hc Ha].
    cbn [app star_loop]. by rewrite Hc, IH.
Qed.

Lemma forallb_impl (p q : Z -> bool) (l : jsstring) :
  (forall c, p c = true -> q c = true) ->
  forallb p l = true -> forallb q l = true.
Proof.
  intros H. rewrite !forallb_Forall. intros Hl.
  by apply (Forall_impl _ _ _ Hl).
Qed.

Lemma forallb_canon (f : Z -> bool) (l : jsstring) :
  forallb (fun c => f (canon c)) l = forallb f (map canon l).
Proof. induction l as [|c l IH]; [done|]. cbn [map forallb]. by rewrite IH. Qed.

Lemma meta_match_here (w0 kwm g kwc w1 w2 : jsstring) (q1 : Z)
    (v : jsstring) (q2 : Z) (t rest : jsstring) :
  forallb ws w0 = true ->
  map canon kwm = map canon (str "meta") ->
  g <> [] -> forallb (neg (chr 62)) g = true ->
  map canon kwc = map canon (str "charset") ->
  forallb ws w1 = true -> forallb ws w2 = true ->
  quote q1 = true ->
  forallb (neg (either quote (chr 62))) v = true ->
  quote q2 = true ->
  forallb (neg (chr 62)) t = true ->
  keyword_free (str "charset") (v ++ [q2] ++ t ++ [62]) = true ->
  exists m,
    match_here charsetRegex
      ([60] ++ w0 ++ kwm ++ g ++ kwc ++ w1 ++ [61] ++ w2 ++ [q1] ++ v
         ++ [q2] ++ t ++ [62] ++ rest) = Some m /\
    m1 m = v.
Proof.
  intros Hw0 Hkwm Hg Hpg Hkwc Hw1 Hw2 Hq1 Hv Hq2 Ht Hfree.
  pose proof (canon_word kwm (str "meta") Hkwm eq_refl) as Lm.
  pose proof (canon_word kwc (str "charset") Hkwc eq_refl) as Lc.
  destruct (quote_plain q1 Hq1) as (Cq1 & Bq1 & Wq1).
  destruct (quote_plain q2 Hq2) as (Cq2 & Bq2 & Wq2).
  destruct g as [|c g]; [done|].
  cbn [forallb] in Hpg. apply andb_true_iff in Hpg as [Hc Hpg].
  assert (forallb (neg (chr 62)) w1 = true) as Bw1
    by (revert Hw1; apply forallb_impl; intros x Hx; by apply ws_plain).
  assert (forallb (neg (chr 62)) w2 = true) as Bw2
    by (revert Hw2; apply forallb_impl; intros x Hx; by apply ws_plain).
  assert (forallb (fun y => negb (canon y =? canon 99)) w1 = true) as Cw1.
  { revert Hw1. apply forallb_impl. intros x Hx.
    destruct (ws_plain x Hx) as (? & _). change (canon 99) with 67. lia. }
  assert (forallb (fun y => negb (canon y =? canon 99)) w2 = true) as Cw2.
  { revert Hw2. apply forallb_impl. intros x Hx.
    destruct (ws_plain x Hx) as (? & _). change (canon 99) with 67. lia. }
  assert (forallb (neg (chr 62)) kwc = true) as Bkwc.
  { apply forallb_Forall, (Forall_impl _ _ _ Lc). intros x Hx.
    by apply letter_plain. }
  assert (forallb (neg (chr 62)) v = true) as Bv.
  { revert Hv. apply forallb_impl. intros x. unfold neg, either.
    destruct (quote x); [done|]. done. }
  assert (forallb (neg quote) v = true) as Qv.
  { revert Hv. apply forallb_impl. intros x. unfold neg, either.
    by destruct (quote x). }
  set (b := kwc ++ w1 ++ [61] ++ w2 ++ [q1] ++ v ++ [q2] ++ t).
  eexists. split.
  - unfold match_here, charsetRegex. cbn [rmatch].
    rewrite (lit_match_canon (str "<") [60]) by done.
    apply star_loop_greedy; [done| |].
    { destruct kwm as [|x kwm]; [by apply (f_equal length) in Hkwm|].
      apply Forall_cons in Lm as [Lx _].
      cbn [app stops]. by destruct (letter_plain x Lx) as (-> & _). }
    rewrite lit_match_canon by done. rewrite <- app_comm_cons, Hc.
    replace (g ++ kwc ++ w1 ++ [61] ++ w2 ++ [q1] ++ v ++ [q2] ++ t ++ [62]
               ++ rest)
      with (g ++ b ++ [62] ++ rest) by (subst b; by simplify_list_eq).
    apply (star_loop_last _ _ g b ([62] ++ rest)); [done| |reflexivity| |].
    + subst b. rewrite !forallb_app, Bkwc, Bw1, Bw2, Bv, Ht.
      cbn [forallb]. by rewrite Bq1, Bq2.
    + intros i Hi.
      assert (lit_match (str "charset") (drop (S i) b ++ [62] ++ rest) = None)
        as ->; [|done].
      destruct kwc as [|x kwc]; [by apply (f_equal length) in Hkwc|].
      replace (S i) with (1 + i)%nat by lia. rewrite <- drop_drop.
      apply keyword_free_tails; [done| |].
      * subst b. rewrite <- app_comm_cons. cbn [drop]. rewrite drop_0.
        replace ((kwc ++ w1 ++ [61] ++ w2 ++ [q1] ++ v ++ [q2] ++ t) ++ [62])
          with ((kwc ++ w1 ++ [61] ++ w2 ++ [q1]) ++ v ++ [q2] ++ t ++ [62])
          by (by simplify_list_eq).
        change (str "charset") with (99 :: str "harset").
        apply keyword_free_head; [|done].
        rewrite !forallb_app, Cw1, Cw2.
        injection Hkwc as _ Hkwc.
        rewrite (forallb_canon (fun z => negb (z =? canon 99))), Hkwc.
        cbn [forallb]. change (canon 99) with 67.
        assert ((canon q1 =? 67) = false) as -> by lia. done.
      * rewrite length_drop. lia.
    + subst b. rewrite <- !app_assoc.
      rewrite lit_match_canon by done.
      apply star_loop_greedy; [done|done|].
      change (lit_match (str "=")
                ([61] ++ w2 ++ [q1] ++ v ++ [q2] ++ t ++ [62] ++ rest))
        with (Some (w2 ++ [q1] ++ v ++ [q2] ++ t ++ [62] ++ rest)).
      cbv iota.
      apply star_loop_greedy; [done|cbn [app stops]; by rewrite Wq1|].
      cbn [app]. rewrite Hq1.
      apply star_loop_greedy; [done|cbn [stops]; unfold neg; by rewrite Hq2|].
      rewrite Hq2.
      apply star_loop_greedy; [done|reflexivity|].
      change (lit_match (str ">") (62 :: rest)) with (Some rest).
      cbv iota. reflexivity.
  - cbn [m1 default from_option id]. apply take_matched. done.
Qed.

Lemma skip_ws_app (a X : jsstring) :
  match skip_ws (a ++ 60 :: X) with
  | x :: _ => canon x =? 77
  | [] => false
  end
  = match skip_ws a with
    | x :: _ => canon x =? 77
    | [] => false
    end.
Proof.
  induction a as [|c a IH]; [done|]. cbn [app skip_ws].
  by destruct (ws c).
Qed.

(** Where no name in m follows, the pattern fails after its bracket. *)
Lemma star_loop_skip {A} (k : jsstring -> option A) (input : jsstring) :
  k [] = None ->
  (forall c r, canon c <> 77 -> k (c :: r) = None) ->
  match skip_ws input with
  | x :: _ => canon x =? 77
  | [] => false
  end = false ->
  star_loop ws k input = None.
Proof.
  intros Hnil Hk. induction input as [|c input IH]; [done|].
  cbn [skip_ws star_loop]. destruct (ws c) eqn:Ec.
  - intros H. rewrite IH by done. apply Hk.
    pose proof (ws_not_letter c Ec). lia.
  - intros H. apply Hk. lia.
Qed.

Lemma charset_no_match (pre X : jsstring) :
  no_m_tag pre = true ->
  Forall (fun i => match_here charsetRegex (drop i pre ++ 60 :: X) = None)
    (seq 0 (length pre)).
Proof.
  induction pre as [|c pre IH]; [constructor|].
  cbn [no_m_tag]. intros [Ho Hp]%andb_true_iff. apply negb_true_iff in Ho.
  cbn [length seq]. constructor.
  - cbn [drop app]. unfold match_here, charsetRegex. cbn [rmatch].
    change (str "<") with [60]. cbn [lit_match]. change (canon 60) with 60.
    destruct (60 =? canon c) eqn:Ec; [|done].
    assert (c = 60) as ->
      by (apply (canon_fixed 60); [lia|lia|change (canon 60) with 60; lia]).
    cbn [opens_m] in Ho. rewrite Z.eqb_refl in Ho. cbn [andb] in Ho.
    apply star_loop_skip.
    + done.
    + intros x r Hx. change (str "meta") with (109 :: str "eta").
      rewrite lit_match_head; [done|]. by change (canon 109) with 77.
    + by rewrite skip_ws_app.
  - rewrite <- seq_shift, Forall_map. by apply IH.
Qed.

Lemma exec_skip_at (r : regex) (pre input : jsstring) :
  Forall (fun i => match_here r (drop i pre ++ input) = None)
    (seq 0 (length pre)) ->
  exec r (pre ++ input) = exec r input.
Proof.
  induction pre as [|c pre IH]; [done|]. cbn [length seq].
  intros [H0 H]%Forall_cons. cbn [drop app] in H0. cbn [app exec].
  rewrite H0. apply IH. by rewrite <- seq_shift, Forall_map in H.
Qed.

Lemma eqb_true (a b : jsstring) : JS.eqb a b = true -> a = b.
Proof. apply eqb_eq. Qed.

Lemma meta_exec (pre : jsstring) (m : MetaTag) (rest : jsstring) :
  no_m_tag pre = true -> tag_shape m = true ->
  exists r,
    exec charsetRegex (pre ++ tag_text m ++ rest) = Some r /\
    m1 r = tag_value m.
Proof.
  intros Hpre Hm. unfold tag_shape in Hm.
  repeat (apply andb_true_iff in Hm as [Hm ?]).
  destruct m as [w0 kwm g kwc w1 w2 q1 v q2 t]; cbn in *|-.
  destruct (meta_match_here w0 kwm g kwc w1 w2 q1 v q2 t rest)
    as (r & Hr & Hv); try done.
  - by apply eqb_true.
  - destruct g; [done|done].
  - by apply eqb_true.
  - exists r. split; [|done]. unfold tag_text.
    cbn [before_name tag_name before_keyword tag_keyword before_equals
         after_equals open_quote tag_value close_quote after_value].
    replace (([60] ++ w0 ++ kwm ++ g ++ kwc ++ w1 ++ [61] ++ w2 ++ [q1] ++ v
                ++ [q2] ++ t ++ [62]) ++ rest)
      with ([60] ++ w0 ++ kwm ++ g ++ kwc ++ w1 ++ [61] ++ w2 ++ [q1] ++ v
              ++ [q2] ++ t ++ [62] ++ rest) by (by simplify_list_eq).
    rewrite exec_skip_at; [by apply exec_here|].
    by apply (charset_no_match pre).
Qed.

End MetaTag.

(** ** The http-equiv tag's patterns *)

Section EquivTag.

Lemma closes_inv (l : jsstring) :
  closes l = true ->
  exists body, l = body ++ [62] /\ forallb (neg (chr 62)) body = true.
Proof.
  unfold closes. destruct (reverse l) as [|c r] eqn:E; [done|].
  intros [Hc Hr]%andb_true_iff. exists (reverse r).
  apply (f_equal reverse) in E. rewrite reverse_involutive in E.
  rewrite reverse_cons in E. assert (c = 62) as -> by lia.
  split; [done|]. apply forallb_Forall. apply Forall_reverse.
  by apply forallb_Forall.
Qed.

Lemma lit_match_long (s h x : jsstring) :
  (length s <= length h)%nat -> lit_match s h = None ->
  lit_match s (h ++ x) = None.
Proof.
  revert h. induction s as [|c s IH]; intros h; [done|].
  destruct h as [|y h]; cbn [length app lit_match]; [lia|].
  intros Hl. destruct (canon c =? canon y); [|done]. apply IH. lia.
Qed.

Lemma keyword_free_at (kw X : jsstring) (i : nat) :
  keyword_free kw X = true -> lit_match kw (drop i X) = None.
Proof.
  revert i. induction X as [|c X IH]; intros i; cbn [keyword_free].
  - rewrite drop_nil. by destruct (lit_match kw []).
  - destruct (lit_match kw (c :: X)) eqn:E; [done|]. intros H.
    destruct i as [|i]; [by rewrite drop_0|]. cbn [drop]. by apply IH.
Qed.

(** The word does not begin in [P] when it occurs neither in [P] nor across
    the end of [P]. *)
Lemma keyword_free_before (kw P Y Z : jsstring) (i : nat) :
  keyword_free kw (P ++ removelast Y) = true ->
  length Y = length kw -> (i < length P)%nat ->
  lit_match kw (drop i P ++ Y ++ Z) = None.
Proof.
  intros Hf Hl Hi.
  destruct Y as [|y Y _] using rev_ind.
  { destruct kw; [|done]. cbn [removelast] in Hf. rewrite app_nil_r in Hf.
    apply (keyword_free_at [] P 0) in Hf. by rewrite drop_0 in Hf. }
  rewrite removelast_last in Hf.
  apply (keyword_free_at kw _ i) in Hf.
  rewrite drop_app_le in Hf by lia.
  rewrite <- (app_assoc Y), (app_assoc (drop i P)).
  apply lit_match_long; [|done].
  rewrite length_app, length_drop. rewrite length_app in Hl.
  cbn [length] in Hl. lia.
Qed.

Lemma ws_canon_not (x : Z) (w : jsstring) :
  65 <= x <= 90 -> forallb ws w = true ->
  forallb (fun y => negb (canon y =? x)) w = true.
Proof.
  intros Hx. apply forallb_impl. intros c Hc.
  pose proof (ws_not_letter c Hc). lia.
Qed.

Lemma ws_no_bracket (w : jsstring) :
  forallb ws w = true -> forallb (neg (chr 62)) w = true.
Proof. apply forallb_impl. intros c Hc. by apply ws_plain. Qed.

Lemma word_no_bracket (kw s : jsstring) :
  map canon kw = map canon s ->
  forallb (fun c => (65 <=? canon c) && (canon c <=? 90)) s = true ->
  forallb (neg (chr 62)) kw = true.
Proof.
  intros He Hs. apply forallb_Forall.
  apply (Forall_impl _ _ _ (canon_word kw s He Hs)).
  intros x Hx. by apply letter_plain.
Qed.

(** A word of letters and hyphens, as http-equiv and content-type. *)
Lemma hyphen_word_no_bracket (kw s : jsstring) :
  map canon kw = map canon s ->
  forallb (fun c => negb (c =? 62)) (map canon s) = true ->
  forallb (neg (chr 62)) kw = true.
Proof.
  intros He Hs. rewrite <- He in Hs.
  rewrite <- (forallb_canon (fun c => negb (c =? 62))) in Hs.
  revert Hs. apply forallb_impl. intros c Hc. unfold neg, chr.
  destruct (c =? 62) eqn:E; [|done].
  assert (c = 62) as -> by lia. done.
Qed.

Lemma word_head (kw s : jsstring) (x : Z) (X : jsstring) :
  map canon kw = map canon (x :: s) ->
  65 <= canon x <= 90 -> stops ws (kw ++ X) = true.
Proof.
  intros He Hx. destruct kw as [|y kw]; [done|]. injection He as Hy _.
  cbn [app stops]. destruct (canon_letter x y Hx Hy) as [H|H];
    by destruct (letter_plain y) as (-> & _); [auto|].
Qed.

Lemma contentType_no_match (pre X : jsstring) :
  no_m_tag pre = true ->
  Forall (fun i => match_here contentTypeRegex (drop i pre ++ 60 :: X) = None)
    (seq 0 (length pre)).
Proof.
  induction pre as [|c pre IH]; [constructor|].
  cbn [no_m_tag]. intros [Ho Hp]%andb_true_iff. apply negb_true_iff in Ho.
  cbn [length seq]. constructor.
  - cbn [drop app]. unfold match_here, contentTypeRegex. cbn [rmatch].
    change (str "<") with [60]. cbn [lit_match]. change (canon 60) with 60.
    destruct (60 =? canon c) eqn:Ec; [|done].
    assert (c = 60) as ->
      by (apply (canon_fixed 60); [lia|lia|change (canon 60) with 60; lia]).
    cbn [opens_m] in Ho. rewrite Z.eqb_refl in Ho. cbn [andb] in Ho.
    apply star_loop_skip.
    + done.
    + intros x r Hx. change (str "meta") with (109 :: str "eta").
      rewrite lit_match_head; [done|]. by change (canon 109) with 77.
    + by rewrite skip_ws_app.
  - rewrite <- seq_shift, Forall_map. by apply IH.
Qed.

Lemma equiv_match_here (w0 kwm g kwh w1 w2 : jsstring) (q1 : Z)
    (w3 kwct a tl rest : jsstring) :
  forallb ws w0 = true ->
  map canon kwm = map canon (str "meta") ->
  g <> [] -> forallb (neg (chr 62)) g = true ->
  map canon kwh = map canon (str "http-equiv") ->
  forallb ws w1 = true -> forallb ws w2 = true ->
  quote q1 = true ->
  forallb ws w3 = true ->
  map canon kwct = map canon (str "content-type") ->
  forallb (neg (chr 62)) (a ++ tl) = true ->
  keyword_free (str "http-equiv") (a ++ tl ++ [62]) = true ->
  match_here contentTypeRegex
    ([60] ++ w0 ++ kwm ++ g ++ kwh ++ w1 ++ [61] ++ w2 ++ [q1] ++ w3
       ++ kwct ++ a ++ tl ++ [62] ++ rest)
  = Some {| m0 := [60] ++ w0 ++ kwm ++ g ++ kwh ++ w1 ++ [61] ++ w2 ++ [q1]
                  ++ w3 ++ kwct ++ a ++ tl ++ [62];
            m1 := [] |}.
Proof.
  intros Hw0 Hkwm Hg Hpg Hkwh Hw1 Hw2 Hq1 Hw3 Hkwct Hat Hfree.
  destruct (quote_plain q1 Hq1) as (Cq1 & Bq1 & Wq1).
  destruct g as [|c g]; [done|].
  cbn [forallb] in Hpg. apply andb_true_iff in Hpg as [Hc Hpg].
  set (b := kwh ++ w1 ++ [61] ++ w2 ++ [q1] ++ w3 ++ kwct ++ a ++ tl).
  unfold match_here, contentTypeRegex. cbn [rmatch].
  rewrite (lit_match_canon (str "<") [60]) by done.
  apply star_loop_greedy; [done|by apply (word_head kwm (str "eta") 109)|].
  rewrite lit_match_canon by done. rewrite <- app_comm_cons, Hc.
  replace (g ++ kwh ++ w1 ++ [61] ++ w2 ++ [q1] ++ w3 ++ kwct ++ a ++ tl
             ++ [62] ++ rest)
    with (g ++ b ++ [62] ++ rest) by (subst b; by simplify_list_eq).
  apply (star_loop_last _ _ g b ([62] ++ rest)); [done| |reflexivity| |].
  - subst b. rewrite forallb_app in Hat. rewrite !forallb_app.
    rewrite (hyphen_word_no_bracket kwh (str "http-equiv")) by done.
    rewrite (hyphen_word_no_bracket kwct (str "content-type")) by done.
    rewrite (ws_no_bracket w1), (ws_no_bracket w2), (ws_no_bracket w3)
      by done.
    cbn [forallb]. by rewrite Bq1, Hat.
  - intros i Hi.
    assert (lit_match (str "http-equiv") (drop (S i) b ++ [62] ++ rest) = None)
      as ->; [|done].
    destruct kwh as [|x kwh]; [by apply (f_equal length) in Hkwh|].
    replace (S i) with (1 + i)%nat by lia. rewrite <- drop_drop.
    apply keyword_free_tails; [done| |rewrite length_drop; lia].
    subst b. rewrite <- app_comm_cons. cbn [drop]. rewrite drop_0.
    replace ((kwh ++ w1 ++ [61] ++ w2 ++ [q1] ++ w3 ++ kwct ++ a ++ tl)
               ++ [62])
      with ((kwh ++ w1 ++ [61] ++ w2 ++ [q1] ++ w3 ++ kwct)
              ++ a ++ tl ++ [62]) by (by simplify_list_eq).
    change (str "http-equiv") with (104 :: str "ttp-equiv").
    apply keyword_free_head; [|done]. change (canon 104) with 72.
    rewrite !forallb_app.
    rewrite (ws_canon_not 72 w1), (ws_canon_not 72 w2), (ws_canon_not 72 w3)
      by (done || lia).
    injection Hkwh as _ Hkwh.
    rewrite (forallb_canon (fun z => negb (z =? 72))), Hkwh.
    rewrite (forallb_canon (fun z => negb (z =? 72)) kwct), Hkwct.
    cbn [forallb].
    assert ((canon q1 =? 72) = false) as ->; [|done].
    unfold quote in Hq1. change SQUOTE with 39 in Hq1.
    change DQUOTE with 34 in Hq1.
    assert (q1 = 39 \/ q1 = 34) as [-> | ->] by lia; done.
  - subst b. rewrite <- !app_assoc.
    rewrite lit_match_canon by done.
    apply star_loop_greedy; [done|done|].
    change (lit_match (str "=")
              ([61] ++ w2 ++ [q1] ++ w3 ++ kwct ++ a ++ tl ++ [62] ++ rest))
      with (Some (w2 ++ [q1] ++ w3 ++ kwct ++ a ++ tl ++ [62] ++ rest)).
    cbv iota.
    apply star_loop_greedy; [done|cbn [app stops]; by rewrite Wq1|].
    cbn [app]. rewrite Hq1.
    apply star_loop_greedy;
      [done|by apply (word_head kwct (str "ontent-type") 99)|].
    rewrite lit_match_canon by done.
    rewrite (app_assoc a).
    apply star_loop_greedy; [done|reflexivity|].
    change (lit_match (str ">") ([62] ++ rest)) with (Some rest).
    cbv iota. f_equal. f_equal. apply take_matched. by simplify_list_eq.
Qed.

Lemma metaRegex_match_here (kwc w4 w5 v e : jsstring) :
  map canon kwc = map canon (str "charset") ->
  forallb ws w4 = true -> forallb ws w5 = true ->
  v <> [] -> forallb (neg (either ws (chr DQUOTE))) v = true ->
  stops (neg (either ws (chr DQUOTE))) e = true ->
  match_here metaRegex (kwc ++ w4 ++ [61] ++ w5 ++ v ++ e)
  = Some {| m0 := kwc ++ w4 ++ [61] ++ w5 ++ v; m1 := v |}.
Proof.
  intros Hkwc Hw4 Hw5 Hv Hpv He. unfold match_here, metaRegex.
  cbn [rmatch]. rewrite lit_match_canon by done.
  apply star_loop_greedy; [done|done|].
  change (lit_match (str "=") ([61] ++ w5 ++ v ++ e))
    with (Some (w5 ++ v ++ e)). cbv iota.
  apply star_loop_greedy; [done| |].
  { destruct v as [|c v]; [done|]. cbn [forallb] in Hpv.
    apply andb_true_iff in Hpv as [Hc _]. cbn [app stops].
    revert Hc. unfold neg, either. by destruct (ws c). }
  apply star_loop_greedy; [done|done|]. cbn [default from_option].
  f_equal. f_equal; apply take_matched; by simplify_list_eq.
Qed.

Lemma equiv_exec (pre : jsstring) (m : EquivTag) (rest : jsstring) :
  no_m_tag pre = true -> equiv_shape m = true ->
  exec contentTypeRegex (pre ++ equiv_text m ++ rest)
  = Some {| m0 := equiv_text m; m1 := [] |} /\
  exists r, exec metaRegex (equiv_text m) = Some r /\ m1 r = eq_value m.
Proof.
  intros Hpre Hm. unfold equiv_shape in Hm.
  repeat (apply andb_true_iff in Hm as [Hm ?]).
  unfold equiv_text, equiv_head, equiv_tail in *.
  destruct m as [w0 kwm g kwh w1 w2 q1 w3 kwct a kwc w4 w5 v e].
  cbn [eq_before_name eq_name eq_before_equiv eq_equiv eq_before_equals
       eq_after_equals eq_quote eq_after_quote eq_content_type
       eq_before_keyword eq_keyword eq_keyword_equals eq_before_value
       eq_value eq_rest] in *.
  repeat match goal with
         | H : JS.eqb _ _ = true |- _ => apply eqb_true in H
         end.
  assert (v <> []) by (by destruct v).
  assert (g <> []) by (by destruct g).
  split.
  - destruct (closes_inv (v ++ e)) as (body & Hb & Hbody); [done|].
    set (tl := kwc ++ w4 ++ [61] ++ w5 ++ body).
    assert (kwc ++ w4 ++ [61] ++ w5 ++ v ++ e = tl ++ [62]) as Htl
      by (subst tl; rewrite Hb; by simplify_list_eq).
    replace (([60] ++ w0 ++ kwm ++ g ++ kwh ++ w1 ++ [61] ++ w2 ++ [q1] ++ w3
                ++ kwct ++ a)
               ++ kwc ++ w4 ++ [61] ++ w5 ++ v ++ e)
      with ([60] ++ w0 ++ kwm ++ g ++ kwh ++ w1 ++ [61] ++ w2 ++ [q1] ++ w3
              ++ kwct ++ a ++ tl ++ [62])
      by (rewrite <- Htl; by simplify_list_eq).
    replace (([60] ++ w0 ++ kwm ++ g ++ kwh ++ w1 ++ [61] ++ w2 ++ [q1] ++ w3
                ++ kwct ++ a ++ tl ++ [62]) ++ rest)
      with ([60] ++ w0 ++ kwm ++ g ++ kwh ++ w1 ++ [61] ++ w2 ++ [q1] ++ w3
              ++ kwct ++ a ++ tl ++ [62] ++ rest) by (by simplify_list_eq).
    rewrite exec_skip_at by (by apply (contentType_no_match pre)).
    apply exec_here, equiv_match_here; try done.
    + subst tl. rewrite !forallb_app.
      rewrite (word_no_bracket kwc (str "charset")) by done.
      rewrite (ws_no_bracket w4), (ws_no_bracket w5) by done.
      cbn [forallb]. rewrite Hbody.
      by match goal with H : forallb (neg (chr 62)) a = true |- _ =>
           rewrite H end.
    + by rewrite <- Htl.
  - eexists. split.
    + rewrite exec_skip_at.
      * apply exec_here. by apply metaRegex_match_here.
      * apply Forall_forall. intros i Hi%elem_of_seq.
        unfold match_here, metaRegex. cbn [rmatch].
        rewrite keyword_free_before; [done|done| |lia].
        match goal with H : map canon kwc = _ |- _ =>
          apply (f_equal length) in H; by rewrite !length_map in H end.
    + done.
Qed.

End EquivTag.

(** ** A pattern's word must occur *)

Section Words.



(** What [headerCharsetRegex] matches holds the word charset. *)
Lemma header_needs_charset (input : jsstring) (r : match_result) :
  exec headerCharsetRegex input = Some r ->
  keyword_free (str "charset") input = false.
Proof.
  induction input as [|c input IH]; cbn [exec].
  - by destruct (match_here headerCharsetRegex []) eqn:E.
  - destruct (match_here headerCharsetRegex (c :: input)) as [m|] eqn:E.
    + intros _. cbn [keyword_free]. revert E.
      unfold match_here, headerCharsetRegex. cbn [rmatch].
      by destruct (lit_match (str "charset") (c :: input)).
    + intros H. cbn [keyword_free]. rewrite (IH H).
      by destruct (lit_match (str "charset") (c :: input)).
Qed.

End Words.

(** ** What is written around a failure *)

Section Failure.

Lemma chunk_texts_decode d chunks d' ts :
  chunk_texts d chunks = Some (d', ts) ->
  decode_stream d (concat chunks) = Some (d', concat ts).
Proof.
  revert d ts. induction chunks as [|c chunks IH]; intros d ts; simpl.
  - intros [= <- <-]. apply decode_stream_nil.
  - destruct (decode_stream d c) as [[d1 t1]|] eqn:E; [|done].
    destruct (chunk_texts d1 chunks) as [[d2 ts']|] eqn:E'; [|done].
    intros [= <- <-]. rewrite decode_stream_app, E.
    by rewrite (IH _ _ E').
Qed.

(** A stream scanned to its end leaves the decoder as the chunks' decodes
    left it. *)
Lemma run_scanned_td chunks :
  unsupportedCharset (run chunks) = false ->
  gate_ok chunks = true /\
  exists ts, chunk_texts TextDecoder_new chunks = Some (td (run chunks), ts).
Proof.
  intros Hu. destruct (run_scanned chunks Hu) as (Hg & d & ts & Hts).
  split; [done|]. exists ts. rewrite Hts. f_equal. f_equal.
  rewrite run_td. destruct chunks as [|c chunks].
  - by injection Hts as <- _.
  - cbn [chunk_texts gate_ok] in Hts, Hg.
    destruct (decode_stream TextDecoder_new c) as [[d1 t1]|] eqn:E; [|done].
    destruct (chunk_texts d1 chunks) as [[d2 ts']|] eqn:E'; [|done].
    injection Hts as <- <-. apply negb_true_iff in Hg.
    cbn [foldl]. rewrite step_cases.
    cbn [unsupportedCharset Stream_new td firstChunk]. rewrite E, Hg.
    cbn [andb]. by erewrite steps_scanning.
Qed.

(** The bytes of a scanned stream, against what was written for it: the
    input, less a leading byte order mark, is the encoding of the chunks'
    texts followed by the bytes the decoder still holds; the output is the
    encoding of the texts with the snippet spliced in. *)
Lemma scanned_bytes chunks :
  unsupportedCharset (run chunks) = false ->
  exists ts p,
    chunk_texts TextDecoder_new chunks = Some (td (run chunks), ts) /\
    strip_bom (concat chunks) = encode (concat ts) ++ p /\
    process_queue utf8_decoder_new p = Some (decoder (td (run chunks)), []) /\
    (p = [] <-> bytes_needed (decoder (td (run chunks))) = 0) /\
    concat (output chunks) = encode (concat (map inject ts)).
Proof.
  intros Hu. destruct (run_scanned_td chunks Hu) as (Hg & ts & Hts).
  destruct (decode_stream_bytes _ _ _ (chunk_texts_decode _ _ _ _ Hts))
    as (p & Hb & Hp).
  exists ts, p. split; [done|]. split; [done|]. split; [done|]. split.
  - split.
    + intros ->. cbn [process_queue] in Hp.
      assert (decoder (td (run chunks)) = utf8_decoder_new) as ->
        by congruence.
      done.
    + intros Hn. pose proof (run_wf chunks) as Hw.
      remember (decoder (td (run chunks))) as D eqn:HD.
      destruct Hw as [Hnew|Hpe].
      * rewrite Hnew in Hp. by apply process_queue_quiet_new.
      * by apply pending_needed in Hpe.
  - rewrite output_eq.
    destruct (run_scanning chunks _ ts Hg Hts) as (-> & _ & _).
    apply concat_emitted.
Qed.


End Failure.

(** ** Exceptions inside the inner [try] *)

Section Exceptions.

Context (env : Env) (i : nat) (value : bytes) (s : Stream)
  (d : TextDecoder) (chunk : jsstring).
Hypothesis scanning : unsupportedCharset s = false.
Hypothesis decoded : decode_stream (td s) value = Some (d, chunk).




End Exceptions.

(** ** Responses the checks flag *)

(** When the header check flags the content type, or finds no charset in it
    while the check of the first chunk flags its text, the response that
    comes back is the origin's, body included.  In the header case it is
    returned before any stream is set up. *)
Lemma flagged_response_returned (r : Response) (ct : jsstring) :
  headers r !! "content-type" = Some ct ->
  headerCharsetUnsupported ct = true \/
  (exec headerCharsetRegex ct = None /\
   exists c rest d chunk,
     body r = c :: rest /\
     decode_stream TextDecoder_new c = Some (d, chunk) /\
     chunkContainsInvalidCharset chunk = true) ->
  processRequest (Some r) = Some r /\
  (headerCharsetUnsupported ct = true -> processHtmlResponse r = r).
Proof.
  intros Hct H.
  assert (processHtmlResponse r = r) as Hr.
  { unfold processHtmlResponse. cbv zeta. rewrite Hct.
    cbn [default from_option id].
    destruct H as [->|(Hn & c & rest & d & chunk & Hb & Hd & Hs)]; [done|].
    unfold headerCharsetUnsupported. rewrite Hn.
    assert (output (body r) = body r) as ->.
    { rewrite Hb, output_eq.
      assert (step Stream_new c =
              log (Write c)
                (set_unsupportedCharset true
                   (set_firstChunk false (set_td d Stream_new)))) as Hstep.
      { rewrite step_cases. cbn [unsupportedCharset Stream_new td firstChunk].
        by rewrite Hd, Hs. }
      destruct (passthrough_rest Stream_new c rest) as [-> _];
        [by rewrite Hstep|by rewrite Hstep|done]. }
    by destruct r. }
  split; [|done]. unfold processRequest.
  destruct (status r =? 200); [|done]. rewrite Hct.
  destruct (negb (length ct =? 0)%nat
            && negb (indexOf ct (str "text/html") =? -1));
    [by rewrite Hr|done].
Qed.

(** Two responses that are flagged: by a header that declares shift_jis,
    and by a first chunk with a quoted meta tag for windows-1251. *)
Example flagged_samples_returned :
  processRequest (Some shift_jis_response) = Some shift_jis_response /\
  processRequest (Some windows_1251_response) = Some windows_1251_response.
Proof.
  split.
  - apply (flagged_response_returned shift_jis_response
             (str "text/html; charset=shift_jis")); [reflexivity|].
    left. vm_compute. reflexivity.
  - apply (flagged_response_returned windows_1251_response
             (str "text/html")); [reflexivity|].
    right. split; [vm_compute; reflexivity|].
    eexists _, _, _, _. split; [reflexivity|].
    split; vm_compute; reflexivity.
Qed.

(** * The claims *)

Section Claims.

(** C1, as the code has it.  The snippet is spliced at most once per chunk,
    not per response: after any part of the stream, the splices still to
    come are none once the stream is in passthrough mode, and otherwise at
    most one for each later chunk that holds the marker's bytes. *)
Theorem C1_one_injection_per_marked_chunk (cs1 cs2 : list bytes) :
  (injections (run cs1) <= injections (run (cs1 ++ cs2))
   <= injections (run cs1)
      + (if unsupportedCharset (run cs1) then 0
         else length (filter (fun c => holds_marker c = true) cs2)))%nat.
Proof.
  rewrite !run_injections, run_unsupportedCharset, foldl_app.
  set (s := foldl step Stream_new cs1).
  assert (wf (decoder (td s))) as Hw by apply steps_wf, wf_TextDecoder_new.
  destruct (unsupportedCharset s) eqn:Eu.
  - rewrite steps_passthrough by done. simpl. lia.
  - split; [|by apply steps_injections].
    clearbody s. revert s Hw Eu. clear.
    induction cs2 as [|c cs2 IH]; intros s Hw _; [done|].
    simpl. pose proof (step_injections s c Hw) as [H _].
    destruct (unsupportedCharset (step s c)) eqn:E.
    + rewrite steps_passthrough by done. simpl. lia.
    + etrans; [exact H|]. apply IH; [by apply step_wf|done].
Qed.

(** C1, counterexample: two chunks that each hold the marker get the
    snippet each. *)
Lemma C1_two_marked_chunks :
  ~ (injections (run [html [HEAD_END]; html [HEAD_END]]) <= 1)%nat.
Proof.
  assert (injections (run [html [HEAD_END]; html [HEAD_END]]) = 2%nat) as ->
    by (vm_compute; reflexivity).
  lia.
Qed.

(** C2, as the code has it.  For a document that decodes, passes the
    charset check, holds the marker exactly once and is delivered with the
    marker inside one chunk, the output is the encoding of the input text
    with the snippet put immediately before the marker; it decodes to that
    text; the splice was executed once; and the snippet occurs exactly once
    in the output text provided the input text did not hold it already. *)
Theorem C2_single_injection (chunks : list bytes) (text : jsstring) :
  decode (concat chunks) = Some text ->
  gate_ok chunks = true ->
  count_sub HEAD_END text = 1%nat ->
  within_one_chunk chunks ->
  exists pre post,
    text = pre ++ HEAD_END ++ post /\
    concat (output chunks) = encode (pre ++ TAG_MANAGER ++ HEAD_END ++ post) /\
    process_queue utf8_decoder_new (concat (output chunks))
      = Some (utf8_decoder_new, pre ++ TAG_MANAGER ++ HEAD_END ++ post) /\
    injections (run chunks) = 1%nat /\
    (count_sub TAG_MANAGER text = 0%nat ->
     count_sub TAG_MANAGER (pre ++ TAG_MANAGER ++ HEAD_END ++ post) = 1%nat).
Proof.
  unfold decode. intros Hd Hg Hc Hu%marker_unsplit_intro.
  destruct (decode_stream TextDecoder_new (concat chunks)) as [[d t]|] eqn:E;
    [|done].
  destruct (bytes_needed (decoder d) =? 0); [|done]. injection Hd as ->.
  destruct (scan_whole chunks d text E Hg) as (Ho & Hi & _); [lia|done|].
  destruct (splice_occ HEAD_END TAG_MANAGER text) as (pre & post & Ht & Hs);
    [lia|].
  exists pre, post. split; [done|].
  unfold inject in Ho.
  rewrite (spliced_splice HEAD_END TAG_MANAGER HEAD_END_nonempty), Hs in Ho.
  split; [done|]. rewrite Ho. split; [|split; [lia|]].
  - apply process_queue_encode.
    pose proof (decode_stream_scalar _ _ _ _ wf_TextDecoder_new E) as Hsc.
    rewrite Ht in Hsc. apply Forall_app in Hsc as [Hpre Hrest].
    apply Forall_app. split; [done|].
    apply Forall_app. split; [apply TAG_MANAGER_scalar|done].
  - intros H0. apply count_sub_insert; [apply TAG_MANAGER_unbordered|done|].
    by rewrite <- Ht.
Qed.

Lemma C2_single_injection_witness :
  exists pre post,
    sample_page = pre ++ HEAD_END ++ post /\
    concat (output [html [str "<html><head><title>x</title>"];
                    html [str "</head><body>hi</body></html>"]])
    = encode (pre ++ TAG_MANAGER ++ HEAD_END ++ post).
Proof.
  destruct (C2_single_injection
              [html [str "<html><head><title>x</title>"];
               html [str "</head><body>hi</body></html>"]]
              sample_page)
    as (pre & post & Ht & Ho & _);
    [vm_compute; reflexivity..|apply marker_unsplit_elim; vm_compute; reflexivity|].
  by exists pre, post.
Defined.

(** C2, counterexample: a document that already holds the snippet, with one
    marker, in one chunk.  Its output text holds the snippet twice. *)
Lemma C2_snippet_already_present :
  let chunks := [html [TAG_MANAGER; HEAD_END]] in
  decode (concat chunks) = Some (TAG_MANAGER ++ HEAD_END) /\
  gate_ok chunks = true /\
  count_sub HEAD_END (TAG_MANAGER ++ HEAD_END) = 1%nat /\
  within_one_chunk chunks /\
  concat (output chunks) = encode (TAG_MANAGER ++ TAG_MANAGER ++ HEAD_END) /\
  count_sub TAG_MANAGER (TAG_MANAGER ++ TAG_MANAGER ++ HEAD_END) = 2%nat.
Proof.
  cbv zeta. split; [vm_compute; reflexivity|].
  split; [vm_compute; reflexivity|]. split; [vm_compute; reflexivity|].
  split; [apply marker_unsplit_elim; vm_compute; reflexivity|].
  split; vm_compute; reflexivity.
Qed.

(** C3, as the code has it.  Two ways of cutting the same bytes into chunks
    give the same output when the bytes decode, the text holds the marker at
    most once, and in both deliveries the marker is not split and the first
    chunk passes the charset check. *)
Theorem C3_chunking_invariance (cs1 cs2 : list bytes) (d : TextDecoder)
    (text : jsstring) :
  concat cs1 = concat cs2 ->
  decode_stream TextDecoder_new (concat cs1) = Some (d, text) ->
  (count_sub HEAD_END text <= 1)%nat ->
  gate_ok cs1 = true -> gate_ok cs2 = true ->
  within_one_chunk cs1 -> within_one_chunk cs2 ->
  concat (output cs1) = concat (output cs2).
Proof.
  intros Hcat Hd Hc Hg1 Hg2 Hu1%marker_unsplit_intro Hu2%marker_unsplit_intro.
  destruct (scan_whole cs1 d text Hd Hg1 Hc Hu1) as [-> _].
  rewrite Hcat in Hd.
  by destruct (scan_whole cs2 d text Hd Hg2 Hc Hu2) as [-> _].
Qed.

Lemma C3_chunking_invariance_witness :
  concat (output [html [str "<html><head><title>x</title>"];
                  html [str "</head><body>hi</body></html>"]])
  = concat (output [html [sample_page]]).
Proof.
  apply (C3_chunking_invariance
           [html [str "<html><head><title>x</title>"];
            html [str "</head><body>hi</body></html>"]]
           [html [sample_page]]
           {| decoder := utf8_decoder_new; BOM_seen := true |}
           sample_page);
    try (apply marker_unsplit_elim); vm_compute; reflexivity.
Defined.

(** C3, counterexample: the marker twice, delivered in one chunk or in two;
    it is not split in either delivery, and the outputs differ. *)
Lemma C3_two_markers_two_deliveries :
  let one := [html [HEAD_END; HEAD_END]] in
  let two := [html [HEAD_END]; html [HEAD_END]] in
  concat one = concat two /\
  within_one_chunk one /\ within_one_chunk two /\
  concat (output one) <> concat (output two).
Proof.
  cbv zeta. split; [vm_compute; reflexivity|].
  split; [apply marker_unsplit_elim; vm_compute; reflexivity|].
  split; [apply marker_unsplit_elim; vm_compute; reflexivity|].
  vm_compute. intros H. discriminate H.
Qed.

(** C4, as the code has it.  When the decode of a chunk fails, that chunk
    is written as it came, and so is every later chunk: from there on the
    output is the input, and nothing more is spliced.  Of the chunks
    before, scanned until then, the input less a leading byte order mark is
    the encoding of their texts followed by the bytes of an unfinished
    sequence that the decoder holds; the output is the encoding of the
    texts with the snippet spliced in.  The bytes the decoder holds are not
    written: no byte but the byte order mark is lost exactly when it holds
    none. *)
Theorem C4_decode_failure_passthrough (cs1 : list bytes) (c : bytes)
    (cs2 : list bytes) :
  decode_stream (td (run cs1)) c = None ->
  output (cs1 ++ c :: cs2) = output cs1 ++ c :: cs2 /\
  unsupportedCharset (run (cs1 ++ c :: cs2)) = true /\
  injections (run (cs1 ++ c :: cs2)) = injections (run cs1) /\
  (unsupportedCharset (run cs1) = false ->
   exists ts p,
     chunk_texts TextDecoder_new cs1 = Some (td (run cs1), ts) /\
     strip_bom (concat cs1) = encode (concat ts) ++ p /\
     process_queue utf8_decoder_new p = Some (decoder (td (run cs1)), []) /\
     (p = [] <-> bytes_needed (decoder (td (run cs1))) = 0) /\
     concat (output (cs1 ++ c :: cs2))
     = encode (concat (map inject ts)) ++ c ++ concat cs2).
Proof.
  intros Hd. destruct (decode_failure_rest cs1 c cs2 Hd) as (Ho & Hu & Hi).
  split; [done|]. split; [done|]. split; [done|]. intros Hs.
  destruct (scanned_bytes cs1 Hs) as (ts & p & Hts & Hb & Hp & Hn & Hc).
  exists ts, p. rewrite Ho, concat_app, Hc. done.
Qed.

Lemma C4_decode_failure_passthrough_witness :
  decode_stream (td (run [html [str "<head></head>"]])) [233; 32] = None /\
  output ([html [str "<head></head>"]] ++ [233; 32] :: [[60; 233]])
  = output [html [str "<head></head>"]] ++ [233; 32] :: [[60; 233]].
Proof.
  assert (decode_stream (td (run [html [str "<head></head>"]])) [233; 32]
          = None) as H by (vm_compute; reflexivity).
  split; [exact H|].
  apply (C4_decode_failure_passthrough [html [str "<head></head>"]]
           [233; 32] [[60; 233]] H).
Defined.

(** C4, counterexample: the first chunk ends with the first byte of a
    sequence of three, the second does not continue it.  The decode of the
    second chunk fails; it and the third are written as they came, and the
    byte the decoder was holding is in the input and not in the output. *)
Lemma C4_pending_byte_lost :
  let chunks := [[97; 226]; [255]; [66]] in
  decode_stream (td (run [[97; 226]])) [255] = None /\
  226 ∈ concat chunks /\
  concat (output chunks) = [97; 255; 66] /\
  226 ∉ concat (output chunks).
Proof.
  cbv zeta.
  assert (concat (output [[97; 226]; [255]; [66]]) = [97; 255; 66]) as Ho
    by (vm_compute; reflexivity).
  split; [vm_compute; reflexivity|]. split; [|split; [exact Ho|]].
  - cbn [concat app]. apply elem_of_cons. right. apply elem_of_cons. by left.
  - rewrite Ho. intros H.
    repeat (apply elem_of_cons in H as [H|H]; [discriminate H|]).
    by apply elem_of_nil in H.
Qed.

(** C5, what the code does on three first chunks that declare an encoding
    outside [VALID_CHARSETS]: the value not in quotes, the keyword a second
    time in the tag, the tag after one that declares utf-8.  None is found
    by [chunkContainsInvalidCharset], and the body that comes back is not
    the origin's: it has the snippet. *)
Lemma C5_meta_declaration_missed :
  Forall
    (fun text =>
       exec headerCharsetRegex (str "text/html") = None /\
       decode (encode text) = Some text /\
       chunkContainsInvalidCharset text = false /\
       processRequest (Some (html_page text))
       = Some (html_page (with_snippet text)) /\
       body (html_page (with_snippet text)) <> body (html_page text))
    [unquoted_page; shadowed_page; second_tag_page].
Proof.
  repeat constructor; try (vm_compute; reflexivity);
    vm_compute; intros H; discriminate H.
Qed.

(** C6.  A response whose status is not 200, or whose content type does not
    contain [text/html] (or is absent), is returned as it was fetched: the
    rewriting path is not entered and the body is the origin's. *)
Theorem C6_other_responses_unmodified (r : Response) :
  status r <> 200 \/
  (forall ct, headers r !! "content-type" = Some ct ->
              indexOf ct (str "text/html") = -1) ->
  processRequest (Some r) = Some r.
Proof.
  intros H. unfold processRequest.
  destruct (status r =? 200) eqn:Es; [|done].
  destruct (headers r !! "content-type") as [ct|] eqn:Ec; [|done].
  destruct H as [H|H]; [lia|].
  rewrite (H ct eq_refl). by rewrite andb_false_r.
Qed.

Lemma C6_other_responses_unmodified_witness :
  status not_found_response <> 200 /\
  processRequest (Some not_found_response) = Some not_found_response.
Proof.
  assert (status not_found_response <> 200) as H by (simpl; lia).
  split; [exact H|].
  apply (C6_other_responses_unmodified not_found_response). by left.
Defined.





(** C9, as the code has it.  The decoder is the strict UTF-8 one whatever
    charset of the list the content type declares, iso-8859-1 included.  A
    chunk in which a byte of 128 or more stands between two ASCII bytes
    fails to decode: it and the later chunks are written as they came and
    nothing is spliced from there on. *)
Theorem C9_latin1_isolated_high_byte (r : Response) (ct : jsstring)
    (cs1 cs2 : list bytes) (a b : bytes) (l h l' : Z) :
  status r = 200 ->
  headers r !! "content-type" = Some ct ->
  indexOf ct (str "text/html") <> -1 ->
  headerCharsetUnsupported ct = false ->
  body r = cs1 ++ (a ++ [l; h; l'] ++ b) :: cs2 ->
  0 <= l <= 127 -> 128 <= h -> 0 <= l' <= 127 ->
  processRequest (Some r)
    = Some (Response_new (output cs1 ++ (a ++ [l; h; l'] ++ b) :: cs2) r) /\
  unsupportedCharset (run (body r)) = true /\
  injections (run (body r)) = injections (run cs1).
Proof.
  intros Hs Hct Hhtml Hgate Hb Hl Hh Hl'.
  destruct (decode_failure_rest cs1 (a ++ [l; h; l'] ++ b) cs2)
    as (Ho & Hu & Hi).
  { apply decode_stream_isolated; [apply run_wf|done..]. }
  rewrite Hb. split; [|done].
  unfold processRequest. rewrite Hs, Hct. cbn [Z.eqb Pos.eqb].
  assert (negb (length ct =? 0)%nat
          && negb (indexOf ct (str "text/html") =? -1) = true) as ->.
  { apply andb_true_iff. split; [|lia].
    destruct ct; [by exfalso; apply Hhtml|done]. }
  unfold processHtmlResponse. cbv zeta. rewrite Hct.
  cbn [default from_option id]. by rewrite Hgate, Hb, Ho.
Qed.

Lemma C9_latin1_isolated_high_byte_witness :
  processRequest
    (Some (latin1_response [html [str "<head></head>caf"] ++ [233; 32]]))
  = Some (latin1_response [html [str "<head></head>caf"] ++ [233; 32]]).
Proof.
  refine (proj1 (C9_latin1_isolated_high_byte
                   (latin1_response [html [str "<head></head>caf"] ++ [233; 32]])
                   latin1
                   [] [] (html [str "<head></head>ca"]) [] 102 233 32
                   _ _ _ _ _ _ _ _)); try reflexivity; try lia.
  vm_compute. intros H. discriminate H.
Defined.

(** C9, counterexample: a response declared as iso-8859-1 whose bytes of
    128 or more happen to form UTF-8.  The chunk decodes, the stream stays
    in scanning mode, and the snippet is spliced in. *)
Lemma C9_latin1_valid_utf8_injected :
  let chunk := [195; 169] ++ html [HEAD_END] in
  Exists (fun byte => 128 <= byte) chunk /\
  decode_stream TextDecoder_new chunk <> None /\
  unsupportedCharset (run [chunk]) = false /\
  injections (run [chunk]) = 1%nat /\
  processRequest (Some (latin1_response [chunk]))
  = Some (latin1_response [html [[233]; TAG_MANAGER; HEAD_END]]).
Proof.
  split; [left; lia|].
  vm_compute. repeat split; try reflexivity. intros H. discriminate H.
Qed.

(** C10.  When the last chunk ends in the first bytes of an unfinished
    sequence and the stream is still being scanned at its end, the output
    is that of the stream without those bytes: they stay in the decoder and
    are never written. *)
Theorem C10_pending_bytes_dropped (cs : list bytes) (c p : bytes)
    (dp : utf8_decoder) :
  process_queue utf8_decoder_new p = Some (dp, []) ->
  bytes_needed dp <> 0 ->
  unsupportedCharset (run (cs ++ [c ++ p])) = false ->
  output (cs ++ [c ++ p]) = output (cs ++ [c]) /\
  decoder (td (run (cs ++ [c ++ p]))) = dp.
Proof.
  intros Hp Hn. rewrite run_unsupportedCharset, !output_eq, run_td.
  rewrite !foldl_app. set (s := foldl step Stream_new cs).
  assert (wf (decoder (td s))) as Hw by apply steps_wf, wf_TextDecoder_new.
  cbn [foldl]. rewrite !step_cases.
  destruct (unsupportedCharset s) eqn:Eu.
  { cbn [log unsupportedCharset]. by rewrite Eu. }
  rewrite (decode_stream_partial _ _ _ _ Hw Hp Hn).
  destruct (decode_stream (td s) c) as [[d1 t]|]; [|done].
  destruct (bytes_needed (decoder d1) =? 0); [|done].
  by destruct (firstChunk s && chunkContainsInvalidCharset t).
Qed.

Lemma C10_pending_bytes_dropped_witness :
  output ([html [str "<head>"]] ++ [html [str "</head>caf"] ++ [195]])
  = output ([html [str "<head>"]] ++ [html [str "</head>caf"]]).
Proof.
  refine (proj1 (C10_pending_bytes_dropped [html [str "<head>"]]
                   (html [str "</head>caf"]) [195]
                   {| code_point := 3; bytes_seen := 0; bytes_needed := 1;
                      lower_boundary := 128; upper_boundary := 191 |}
                   _ _ _)).
  - vm_compute. reflexivity.
  - simpl. lia.
  - vm_compute. reflexivity.
Defined.

End Claims.

(** * Further properties of the worker *)

Section Further.

(** X1.  A document that [decode] accepts, that passes the charset check
    and none of whose chunks holds the marker's bytes comes out byte for
    byte, less a leading byte order mark, however it is cut into chunks (a
    cut in the middle of a character included), and nothing is spliced.
    This is so when the document has no marker, and also when each of its
    markers is cut by a chunk boundary. *)
Theorem X1_unmarked_chunks_same_bytes (chunks : list bytes)
    (text : jsstring) :
  decode (concat chunks) = Some text ->
  gate_ok chunks = true ->
  forallb (fun c => negb (holds_marker c)) chunks = true ->
  concat (output chunks) = strip_bom (concat chunks) /\
  injections (run chunks) = 0%nat.
Proof.
  intros Hd Hg Hc. rewrite (decode_bytes _ _ Hd). revert Hd. unfold decode.
  destruct (decode_stream TextDecoder_new (concat chunks)) as [[d t]|] eqn:Hs;
    [|done].
  destruct (bytes_needed (decoder d) =? 0); [|done]. intros [= ->].
  destruct (chunk_texts_concat _ _ _ _ Hs) as (ts & Hts & <-).
  destruct (unmarked_texts _ _ _ _ wf_TextDecoder_new Hts Hc) as [Hm Hf].
  rewrite run_injections, output_eq.
  destruct (run_scanning chunks d ts Hg Hts) as (-> & -> & _).
  by rewrite concat_emitted, Hm, Hf.
Qed.

Lemma X1_unmarked_chunks_same_bytes_witness :
  let chunks := [BOM ++ html [str "<p>"] ++ [195];
                 [169] ++ html [str "</p></he"]; html [str "ad>"]] in
  concat (output chunks) = html [str "<p>"; [233]; str "</p></head>"] /\
  injections (run chunks) = 0%nat.
Proof.
  apply (X1_unmarked_chunks_same_bytes
           [BOM ++ html [str "<p>"] ++ [195];
            [169] ++ html [str "</p></he"]; html [str "ad>"]]
           (str "<p>" ++ [233] ++ str "</p></head>"));
    vm_compute; reflexivity.
Defined.

(** X2.  A document that [decode] accepts, that passes the charset check
    and whose bytes hold the marker exactly once, inside one chunk, comes
    out as the same bytes (less a leading byte order mark) with the bytes
    of the snippet put immediately before the marker; one splice is
    executed. *)
Theorem X2_snippet_bytes_inserted (chunks : list bytes) (text : jsstring)
    (pre post : bytes) :
  decode (concat chunks) = Some text ->
  gate_ok chunks = true ->
  concat chunks = pre ++ encode HEAD_END ++ post ->
  count_sub (encode HEAD_END) (concat chunks) = 1%nat ->
  marker_unsplit chunks = true ->
  concat (output chunks)
  = strip_bom pre ++ encode TAG_MANAGER ++ encode HEAD_END ++ post /\
  injections (run chunks) = 1%nat.
Proof.
  intros Hd Hg Hin Hc Hu.
  destruct (marker_once_text _ _ _ _ Hd Hin Hc)
    as (t1 & t2 & Ht & Hct & -> & ->).
  revert Hd. unfold decode.
  destruct (decode_stream TextDecoder_new (concat chunks)) as [[d t]|] eqn:Hs;
    [|done].
  destruct (bytes_needed (decoder d) =? 0); [|done]. intros [= ->].
  destruct (scan_whole chunks d text Hs Hg) as (Ho & Hi & _); [lia|done|].
  rewrite Ho, Hi. split; [|done]. unfold inject.
  rewrite (spliced_splice HEAD_END TAG_MANAGER HEAD_END_nonempty).
  destruct (splice_occ HEAD_END TAG_MANAGER text)
    as (p1 & p2 & Hp & ->); [lia|].
  rewrite Hp in Ht.
  apply (occ_unique HEAD_END HEAD_END_nonempty) in Ht as [-> ->];
    [|rewrite <- Hp; lia].
  by rewrite !encode_app.
Qed.

Lemma X2_snippet_bytes_inserted_witness :
  let chunks := [BOM ++ html [str "<head>"; [233]; HEAD_END; str "<p"];
                 html [str "></p>"]] in
  concat (output chunks)
  = html [str "<head>"; [233]; TAG_MANAGER; HEAD_END; str "<p></p>"].
Proof.
  destruct (X2_snippet_bytes_inserted
              [BOM ++ html [str "<head>"; [233]; HEAD_END; str "<p"];
                 html [str "></p>"]]
              (str "<head>" ++ [233] ++ HEAD_END ++ str "<p></p>")
              (BOM ++ html [str "<head>"; [233]])
              (html [str "<p></p>"])) as [Ho _];
    [vm_compute; reflexivity..|].
  cbv zeta. rewrite Ho. vm_compute. reflexivity.
Defined.

(** X3.  The stream is still being scanned at its end exactly when the text
    of its first chunk passes the charset check and every chunk decodes,
    each from the state the decoder was left in by the one before.  The
    check is made on the first chunk only. *)
Theorem X3_scanning_mode (chunks : list bytes) :
  unsupportedCharset (run chunks) = false <->
  gate_ok chunks = true /\
  exists d ts, chunk_texts TextDecoder_new chunks = Some (d, ts).
Proof.
  split; [apply run_scanned|]. intros (Hg & d & ts & Hts).
  rewrite run_unsupportedCharset.
  by destruct (run_scanning chunks d ts Hg Hts) as (_ & _ & ?).
Qed.

(** X4.  The writes of a stream scanned to its end are the encodings of its
    chunks' texts, each with the snippet before its first marker if it has
    one, the chunks of empty text left out.  Together they are well-formed
    UTF-8 with no sequence left unfinished, wherever the chunks of the
    input were cut. *)
Theorem X4_scanned_output_well_formed (chunks : list bytes) (d : TextDecoder)
    (ts : list jsstring) :
  gate_ok chunks = true ->
  chunk_texts TextDecoder_new chunks = Some (d, ts) ->
  output chunks = flat_map (fun t => emitted (inject t)) ts /\
  process_queue utf8_decoder_new (concat (output chunks))
  = Some (utf8_decoder_new, concat (map inject ts)).
Proof.
  intros Hg Hts. rewrite output_eq.
  destruct (run_scanning chunks d ts Hg Hts) as (-> & _ & _).
  split; [done|]. rewrite concat_emitted. apply process_queue_encode.
  apply injected_scalar.
  by eapply chunk_texts_scalar; [apply wf_TextDecoder_new|].
Qed.

Lemma X4_scanned_output_well_formed_witness :
  process_queue utf8_decoder_new
    (concat (output [html [str "<head>"] ++ [226; 130];
                     [172] ++ html [str "</head>"]]))
  = Some (utf8_decoder_new,
          str "<head>" ++ [8364] ++ TAG_MANAGER ++ str "</head>").
Proof.
  destruct (X4_scanned_output_well_formed
              [html [str "<head>"] ++ [226; 130];
               [172] ++ html [str "</head>"]]
              {| decoder := utf8_decoder_new; BOM_seen := true |}
              [str "<head>"; [8364] ++ str "</head>"]) as [_ Hq];
    [vm_compute; reflexivity..|].
  rewrite Hq. vm_compute. reflexivity.
Defined.

(** X5.  A stream scanned to its end is longer than the encoding of its
    text by the bytes of the snippet, once for each splice. *)
Theorem X5_scanned_output_length (chunks : list bytes) (d : TextDecoder)
    (text : jsstring) :
  unsupportedCharset (run chunks) = false ->
  decode_stream TextDecoder_new (concat chunks) = Some (d, text) ->
  length (concat (output chunks))
  = (length (encode text)
     + injections (run chunks) * length (encode TAG_MANAGER))%nat.
Proof.
  intros (Hg & d' & ts & Hts)%run_scanned Hd.
  destruct (chunk_texts_concat _ _ _ _ Hd) as (ts' & Hts' & <-).
  rewrite Hts in Hts'. injection Hts' as _ <-.
  rewrite run_injections, output_eq.
  destruct (run_scanning chunks d' ts Hg Hts) as (-> & -> & _).
  by rewrite concat_emitted, injected_length.
Qed.

Lemma X5_scanned_output_length_witness :
  length (concat (output [html [HEAD_END]; html [HEAD_END]]))
  = (length (encode (HEAD_END ++ HEAD_END))
     + 2 * length (encode TAG_MANAGER))%nat.
Proof.
  apply (X5_scanned_output_length [html [HEAD_END]; html [HEAD_END]]
           {| decoder := utf8_decoder_new; BOM_seen := true |}
           (HEAD_END ++ HEAD_END));
    vm_compute; reflexivity.
Defined.





(** X8.  A read that is rejected ends the stream as the end of the input
    does: what was written before stays, nothing is written for the reads
    that would have followed, and the writer is closed. *)
Theorem X8_rejected_read_ends_stream (env : Env)
    (reads1 reads2 : list read_result) :
  modifyHtmlStream env (reads1 ++ ReadThrows :: reads2)
  = modifyHtmlStream env reads1.
Proof.
  unfold modifyHtmlStream. cbv zeta.
  assert (forall c, match c with
                    | Throw s' => s'
                    | Normal s' | ContinueLoop s' => s'
                    end = state_of c) as Hm by (by intros []).
  rewrite !Hm. f_equal. generalize Stream_new, 0%nat.
  induction reads1 as [|[v|] reads1 IH]; intros s i; [done| |done].
  cbn [app read_loop]. destruct (loop_body env i v s); [apply IH..|done].
Qed.

(** X9.  When the content type holds the word charset (in any case), an
    equals sign, and a value that runs up to the next white space or
    semicolon or to the end, with no letter c before the word, the header
    check decides by that value alone, put in lower case: the response is
    left alone exactly when it is none of the four names of
    [VALID_CHARSETS].  A value in quotes is none of them. *)
Theorem X9_header_charset_value (pre kw w1 w2 v rest : jsstring) :
  forallb (fun c => negb (canon c =? 67)) pre = true ->
  map canon kw = map canon (str "charset") ->
  forallb ws w1 = true -> forallb ws w2 = true ->
  v <> [] -> forallb (neg (either ws (chr 59))) v = true ->
  stops (neg (either ws (chr 59))) rest = true ->
  headerCharsetUnsupported (pre ++ kw ++ w1 ++ [61] ++ w2 ++ v ++ rest)
  = negb (includes VALID_CHARSETS (toLowerCase v)).
Proof.
  intros Hpre Hkw Hw1 Hw2 Hv Hpv Hr. unfold headerCharsetUnsupported.
  by rewrite header_exec.
Qed.

Lemma X9_header_charset_value_witness :
  headerCharsetUnsupported
    (str "text/html; " ++ str "Charset" ++ [] ++ [61] ++ []
       ++ ([DQUOTE] ++ str "UTF-8" ++ [DQUOTE]) ++ str "; x=y") = true.
Proof.
  rewrite (X9_header_charset_value (str "text/html; ") (str "Charset") [] []
             ([DQUOTE] ++ str "UTF-8" ++ [DQUOTE]) (str "; x=y"));
    vm_compute; (reflexivity || discriminate).
Defined.

(** X10.  With a sink that, once it has rejected a write, rejects the
    later ones, and no exception while the chunks are scanned, what the
    sink accepted is a beginning of what it would have been given had it
    accepted everything: a failing sink cuts the body short, it does not
    change or reorder it. *)
Theorem X10_failing_sink_truncates (env : Env) (chunks : list bytes) :
  (forall i, scan_fault env i = NoFault) ->
  (forall n, write_ok env n = false -> write_ok env (S n) = false) ->
  written (sink (state_of (modifyHtmlStream env (map ReadChunk chunks))))
    `prefix_of` output chunks.
Proof.
  intros Hf Hm. rewrite output_eq. unfold modifyHtmlStream. cbv zeta.
  pose proof (read_loop_prefix env Hf Hm 0 chunks Stream_new eq_refl) as Hp.
  assert (forall s, written (sink (state_of
                      match writer_close env s with
                      | Throw s' => Normal s'
                      | other => other
                      end)) = written (sink s)) as Hc.
  { intros s. unfold writer_close.
    destruct (close_ok env); cbn [state_of log sink];
      by rewrite written_app, app_nil_r. }
  rewrite Hc. by destruct (read_loop env 0 (map ReadChunk chunks) Stream_new).
Qed.

Lemma X10_failing_sink_truncates_witness :
  written (sink (state_of
    (modifyHtmlStream (sink_closes_after 1)
       (map ReadChunk [html [str "<head>"]; html [HEAD_END]]))))
    `prefix_of` output [html [str "<head>"]; html [HEAD_END]].
Proof.
  apply (X10_failing_sink_truncates (sink_closes_after 1)
           [html [str "<head>"]; html [HEAD_END]]).
  - intros i. reflexivity.
  - intros n H. cbn [write_ok sink_closes_after] in *.
    apply Nat.ltb_ge in H. apply Nat.ltb_ge. lia.
Defined.



(** X12.  Both patterns of the meta check need a quote character, an
    opening and a closing angle bracket.  A first chunk that holds no
    quote, or no opening bracket, or no closing bracket (a tag whose end
    comes in a later chunk, an attribute value written without quotes) is
    not flagged, whatever charset it names. *)
Theorem X12_meta_check_needs_quote_and_brackets (chunk : jsstring) :
  forallb (fun c => negb (quote c)) chunk = true \/
  forallb (fun c => negb (c =? 60)) chunk = true \/
  forallb (fun c => negb (c =? 62)) chunk = true ->
  chunkContainsInvalidCharset chunk = false.
Proof.
  intros H.
  assert (exists P : Z -> Prop,
            ((forall c, quote c = true -> P c) \/ P 60 \/ P 62) /\
            Forall (fun c => ~ P c) chunk) as (P & HP & Hf).
  { destruct H as [H|[H|H]]; rewrite forallb_forall in H.
    - exists (fun c => quote c = true). split; [by left|].
      apply Forall_forall. intros c Hc%list_elem_of_In%H.
      by destruct (quote c).
    - exists (fun c => c = 60). split; [right; by left|].
      apply Forall_forall. intros c Hc%list_elem_of_In%H. lia.
    - exists (fun c => c = 62). split; [right; by right|].
      apply Forall_forall. intros c Hc%list_elem_of_In%H. lia. }
  unfold chunkContainsInvalidCharset.
  rewrite (exec_none P charsetRegex chunk);
    [|by apply charsetRegex_requires|done].
  rewrite (exec_none P contentTypeRegex chunk);
    [done|by apply contentTypeRegex_requires|done].
Qed.

Lemma X12_meta_check_needs_quote_and_brackets_witness :
  chunkContainsInvalidCharset
    (str "<html><head><meta charset=windows-1251></head>") = false.
Proof.
  apply X12_meta_check_needs_quote_and_brackets.
  left. vm_compute. reflexivity.
Defined.

(** X13.  A first chunk in which a meta tag of the shape [charsetRegex] is
    written for, with a value outside [VALID_CHARSETS] (compared in lower
    case), comes after text in which no tag with a name in m opens, is
    flagged: the stream goes to passthrough.  The name and the keyword may
    be in any case, the quotes single or double, attributes may stand
    before the keyword and after the value. *)
Theorem X13_meta_charset_flagged (pre : jsstring) (m : MetaTag)
    (rest : jsstring) :
  no_m_tag pre = true ->
  tag_shape m = true ->
  includes VALID_CHARSETS (toLowerCase (tag_value m)) = false ->
  chunkContainsInvalidCharset (pre ++ tag_text m ++ rest) = true.
Proof.
  intros Hpre Hm Hv. destruct (meta_exec pre m rest Hpre Hm) as (r & Hr & Hr1).
  unfold chunkContainsInvalidCharset. rewrite Hr. cbv zeta.
  rewrite Hr1, Hv. cbn [negb].
  destruct (exec contentTypeRegex (pre ++ tag_text m ++ rest)) as [c|];
    [|done].
  destruct (exec metaRegex (m0 c)) as [c'|]; [|done].
  by destruct (negb (includes VALID_CHARSETS (toLowerCase (m1 c')))).
Qed.

Lemma X13_meta_charset_flagged_witness :
  chunkContainsInvalidCharset
    (str "<!DOCTYPE html><html lang='ru'><head>"
     ++ tag_text {| before_name := []; tag_name := str "META";
                    before_keyword := str " id='x' ";
                    tag_keyword := str "charset";
                    before_equals := str " "; after_equals := [];
                    open_quote := SQUOTE; tag_value := str "Windows-1251";
                    close_quote := SQUOTE; after_value := str " /" |}
     ++ str "<title>x</title></head>") = true.
Proof.
  apply X13_meta_charset_flagged; vm_compute; reflexivity.
Defined.

(** X14.  A first chunk in which a meta tag with http-equiv and
    content-type, of the shape [contentTypeRegex] is written for, comes
    after text in which no tag with a name in m opens, is flagged when the
    characters after the first charset and equals sign of the tag, up to
    the next white space or double quote, are not in [VALID_CHARSETS].
    Those characters can hold more than the name: a single quote that
    closes the attribute belongs to them, and utf-8 followed by it is no
    longer utf-8. *)
Theorem X14_http_equiv_charset_flagged (pre : jsstring) (m : EquivTag)
    (rest : jsstring) :
  no_m_tag pre = true ->
  equiv_shape m = true ->
  includes VALID_CHARSETS (toLowerCase (eq_value m)) = false ->
  chunkContainsInvalidCharset (pre ++ equiv_text m ++ rest) = true.
Proof.
  intros Hpre Hm Hv.
  destruct (equiv_exec pre m rest Hpre Hm) as (Hc & r & Hr & Hr1).
  unfold chunkContainsInvalidCharset. cbv zeta. rewrite Hc.
  cbn [m0]. rewrite Hr, Hr1, Hv. done.
Qed.

Lemma X14_http_equiv_charset_flagged_witness :
  chunkContainsInvalidCharset
    (str "<html><head>"
     ++ equiv_text
          {| eq_before_name := []; eq_name := str "meta";
             eq_before_equiv := str " "; eq_equiv := str "http-equiv";
             eq_before_equals := []; eq_after_equals := [];
             eq_quote := SQUOTE; eq_after_quote := [];
             eq_content_type := str "Content-Type";
             eq_before_keyword := str "' content='text/html; ";
             eq_keyword := str "charset"; eq_keyword_equals := [];
             eq_before_value := [];
             eq_value := str "utf-8'"; eq_rest := str " >" |}
     ++ str "</head>") = true.
Proof.
  apply X14_http_equiv_charset_flagged; vm_compute; reflexivity.
Defined.



(** X16.  The worker never changes the status or the headers of a
    response, and gives one back whenever the origin did: the content type
    and its charset are those of the origin also when the body has been
    decoded, spliced and encoded again.  The body is the origin's or what
    [modifyHtmlStream] wrote. *)
Theorem X16_status_and_headers_kept (r : Response) :
  processRequest None = None /\
  exists r',
    processRequest (Some r) = Some r' /\
    status r' = status r /\ headers r' = headers r /\
    (body r' = body r \/ body r' = output (body r)).
Proof.
  split; [done|]. unfold processRequest.
  destruct (status r =? 200); [|exists r; by auto].
  destruct (headers r !! "content-type") as [ct|]; [|exists r; by auto].
  destruct (negb (length ct =? 0)%nat
            && negb (indexOf ct (str "text/html") =? -1));
    [|exists r; by auto].
  unfold processHtmlResponse.
  destruct (headerCharsetUnsupported _); [exists r; by auto|].
  eexists. split; [done|]. cbn [Response_new status headers body]. auto.
Qed.

(** X17.  A response of status 200 whose content type holds text/html and
    nowhere the word charset, in any case, always goes through
    [modifyHtmlStream]: the header check lets it pass. *)
Theorem X17_no_header_charset_streamed (r : Response) (ct : jsstring) :
  status r = 200 ->
  headers r !! "content-type" = Some ct ->
  indexOf ct (str "text/html") <> -1 ->
  keyword_free (str "charset") ct = true ->
  processRequest (Some r) = Some (Response_new (output (body r)) r).
Proof.
  intros Hs Hct Hi Hk. unfold processRequest. rewrite Hs, Hct.
  change (200 =? 200) with true. cbv iota.
  assert (negb (length ct =? 0)%nat = true) as ->.
  { destruct ct; [|done]. exfalso. apply Hi. vm_compute. reflexivity. }
  assert (negb (indexOf ct (str "text/html") =? -1) = true) as ->
    by (apply negb_true_iff; lia).
  cbn [andb]. unfold processHtmlResponse. rewrite Hct.
  cbn [default from_option id]. unfold headerCharsetUnsupported.
  destruct (exec headerCharsetRegex ct) as [m|] eqn:E; [|done].
  apply header_needs_charset in E. congruence.
Qed.

Lemma X17_no_header_charset_streamed_witness :
  processRequest (Some windows_1251_response)
  = Some (Response_new (output (body windows_1251_response))
            windows_1251_response).
Proof.
  apply (X17_no_header_charset_streamed windows_1251_response
           (str "text/html")); [reflexivity|reflexivity| |reflexivity].
  vm_compute. discriminate.
Defined.

(** X18.  What [modifyHtmlStream] writes is always made of two parts: for
    the chunks before some place of the stream, the encodings of their
    texts with the snippet spliced in, and from that place on the chunks as
    they came.  The place is the beginning when the first chunk fails the
    charset check, otherwise the first chunk that does not decode, and the
    end of the stream exactly when the stream is still scanned there. *)
Theorem X18_scanned_then_raw (chunks : list bytes) :
  exists k d ts,
    (k <= length chunks)%nat /\
    chunk_texts TextDecoder_new (take k chunks) = Some (d, ts) /\
    output chunks
    = flat_map (fun t => emitted (inject t)) ts ++ drop k chunks /\
    (unsupportedCharset (run chunks) = false <-> k = length chunks) /\
    ((k < length chunks)%nat ->
     (k = 0%nat /\ gate_ok chunks = false) \/
     exists c, chunks !! k = Some c /\ decode_stream d c = None).
Proof.
  rewrite run_unsupportedCharset, output_eq.
  destruct chunks as [|c chunks].
  { exists 0%nat, TextDecoder_new, []. cbn. repeat split; try done. lia. }
  cbn [foldl gate_ok]. rewrite step_cases.
  cbn [unsupportedCharset Stream_new td firstChunk andb].
  destruct (decode_stream TextDecoder_new c) as [[d1 t1]|] eqn:E.
  - destruct (chunkContainsInvalidCharset t1).
    + exists 0%nat, TextDecoder_new, [].
      rewrite steps_passthrough by done.
      cbn [take chunk_texts flat_map drop app length sink log Stream_new
           set_unsupportedCharset set_firstChunk set_td unsupportedCharset
           map].
      cbn [written]. rewrite written_Write. split; [lia|]. split; [done|].
      split; [done|]. split; [split; [done|lia]|]. intros _. by left.
    + match goal with
      | |- context [foldl step ?s' chunks] =>
          destruct (steps_split s' chunks)
            as (k & d & ts & Hk & Hts & Hs & Hm & Hn); [done..|]
      end.
      exists (S k), d, (t1 :: ts). cbn [td] in Hts.
      cbn [take chunk_texts length drop]. rewrite E, Hts.
      split; [lia|]. split; [done|]. rewrite Hs. cbn [sink flat_map].
      change (sink Stream_new) with (@nil event).
      rewrite app_nil_l, <- map_app, written_Write, <- app_assoc.
      split; [done|]. split; [rewrite Hm; lia|].
      intros Hlt. right. apply Hn. lia.
  - exists 0%nat, TextDecoder_new, [].
    rewrite steps_passthrough by done.
    cbn [take chunk_texts flat_map drop app length sink log Stream_new
         set_unsupportedCharset unsupportedCharset map].
    cbn [written]. rewrite written_Write. split; [lia|]. split; [done|].
    split; [done|]. split; [split; [done|lia]|]. intros _. right.
    by exists c.
Qed.

End Further.
